(** * utils/losses.py: tensor losses and metrics, embedded and verified

    The module [utils/losses.py] is a flat collection of numeric functions over
    dense tensors.  This development embeds them shallowly:

    - a tensor is its shape together with its entries in row-major order, as a
      contiguous torch tensor stores them;
    - tensor entries are exact rationals ([Q], compared with [==]); the
      functions of the module are generic in the floating-point type of their
      arguments, so rounding is left out here and treated separately, in
      [Module Binary32], for the one function that fixes its precision
      ([mean_iou_noreduce], through [.float()]);
    - a call either returns a value, raises a Python exception, or returns
      normally a value holding [inf] or [nan] (division by zero and the mean of
      an empty tensor do not raise in torch): see [result]. *)

From Stdlib Require Import String Bool ZArith QArith Qpower Qround Qabs List Lia Lqa.
From Stdlib Require SpecFloat.
Import ListNotations.

Local Open Scope Q_scope.

(** ** Outcomes of a call *)

Inductive exn : Type :=
| AssertionError
| IndexError
| RuntimeError
| ValueError
| ZeroDivisionError
| AttributeError.

(** [NonFinite]: the call returns without raising, and the returned number (or
    some entry of the returned tensor) is [inf] or [nan]. *)
Inductive result (A : Type) : Type :=
| Ok (a : A)
| Raise (e : exn)
| NonFinite.

Arguments Ok {A} a.
Arguments Raise {A} e.
Arguments NonFinite {A}.

Definition bind {A B : Type} (r : result A) (k : A -> result B) : result B :=
  match r with
  | Ok a => k a
  | Raise e => Raise e
  | NonFinite => NonFinite
  end.

Notation "x <- c1 ;; c2" := (bind c1 (fun x => c2))
  (at level 61, c1 at next level, right associativity).

(** Sequencing after a value that may be non-finite: the statements that
    follow still run and may raise (their exceptions depend on shapes only, so
    they are found by running them on the placeholder [dflt]); otherwise the
    non-finite value propagates through the arithmetic that follows. *)
Definition bind_nf {A B : Type} (r : result A) (dflt : A) (k : A -> result B) : result B :=
  match r with
  | Ok a => k a
  | Raise e => Raise e
  | NonFinite => match k dflt with Raise e => Raise e | _ => NonFinite end
  end.

(** ** Tensors *)

Record tensor (A : Type) : Type := mkTensor { shape : list nat; data : list A }.

Arguments mkTensor {A} shape data.
Arguments shape {A} t.
Arguments data {A} t.

Definition numel (sh : list nat) : nat := fold_right Nat.mul 1%nat sh.

Definition ndim {A : Type} (t : tensor A) : nat := length (shape t).

(** A tensor is well formed when it has as many entries as its shape says. *)
Definition wf {A : Type} (t : tensor A) : Prop :=
  length (data t) = numel (shape t).

Definition shape_eqb (a b : list nat) : bool :=
  if list_eq_dec Nat.eq_dec a b then true else false.

(** *** Broadcasting *)

(** Shapes are aligned at their last dimension; two sizes are compatible when
    they are equal or one of them is 1.  Both arguments are reversed shapes. *)
Fixpoint broadcast_rev (a b : list nat) : option (list nat) :=
  match a, b with
  | [], _ => Some b
  | _, [] => Some a
  | x :: a', y :: b' =>
      match broadcast_rev a' b' with
      | None => None
      | Some r =>
          if (x =? y)%nat then Some (x :: r)
          else if (x =? 1)%nat then Some (y :: r)
          else if (y =? 1)%nat then Some (x :: r)
          else None
      end
  end.

Definition broadcast_shapes (a b : list nat) : option (list nat) :=
  option_map (@rev nat) (broadcast_rev (rev a) (rev b)).

(** Multi-index (last dimension first) of the row-major position [i]. *)
Fixpoint unravel_rev (rsh : list nat) (i : nat) : list nat :=
  match rsh with
  | [] => []
  | d :: r => (i mod d)%nat :: unravel_rev r (i / d)%nat
  end.

(** Row-major position in a source of reversed shape [rsrc] of the reversed
    multi-index [ridx]; a dimension of size 1 is read at index 0 and leading
    dimensions the source lacks are ignored. *)
Fixpoint ravel_rev (rsrc ridx : list nat) : nat :=
  match rsrc, ridx with
  | d :: r, k :: ks => ((if (d =? 1)%nat then 0 else k) + d * ravel_rev r ks)%nat
  | _, _ => 0%nat
  end.

Definition expand {A : Type} (dflt : A) (t : tensor A) (sh : list nat) : tensor A :=
  mkTensor sh
    (map (fun i => nth (ravel_rev (rev (shape t)) (unravel_rev (rev sh) i)) (data t) dflt)
         (seq 0 (numel sh))).

Definition map2 {A B C : Type} (f : A -> B -> C) (l1 : list A) (l2 : list B) : list C :=
  map (fun p => f (fst p) (snd p)) (combine l1 l2).

(** Elementwise binary operation with torch's broadcasting. *)
Definition zip_with {A B C : Type} (dA : A) (dB : B) (f : A -> B -> C)
    (a : tensor A) (b : tensor B) : result (tensor C) :=
  if shape_eqb (shape a) (shape b) then
    Ok (mkTensor (shape a) (map2 f (data a) (data b)))
  else
    match broadcast_shapes (shape a) (shape b) with
    | None => Raise RuntimeError
    | Some sh =>
        Ok (mkTensor sh (map2 f (data (expand dA a sh)) (data (expand dB b sh))))
    end.

Definition tmap {A B : Type} (f : A -> B) (t : tensor A) : tensor B :=
  mkTensor (shape t) (map f (data t)).

(** *** Arithmetic on entries *)

Definition Qsum (l : list Q) : Q := fold_right Qplus 0 l.

Definition Qneb (x y : Q) : bool := negb (Qeq_bool x y).

Definition Qgtb (x y : Q) : bool := negb (Qle_bool x y).

Definition Qminb (x y : Q) : Q := if Qle_bool x y then x else y.

Definition Qmaxb (x y : Q) : Q := if Qle_bool x y then y else x.

Definition bool_to_Q (b : bool) : Q := if b then 1 else 0.

Definition count_true (l : list bool) : nat := length (filter (fun b => b) l).

Definition Qnat (n : nat) : Q := inject_Z (Z.of_nat n).

(** [x / y] on floating-point numbers: no exception, a non-finite value when
    [y] is zero. *)
Definition fdiv (x y : Q) : result Q :=
  if Qeq_bool y 0 then NonFinite else Ok (x / y).

Fixpoint sequence {A : Type} (l : list (result A)) : result (list A) :=
  match l with
  | [] => Ok []
  | r :: rs => a <- r ;; as' <- sequence rs ;; Ok (a :: as')
  end.

Definition tmul (a b : tensor Q) : result (tensor Q) := zip_with 0 0 Qmult a b.

Definition tdiv (a b : tensor Q) : result (tensor Q) :=
  p <- zip_with 0 0 pair a b ;;
  d <- sequence (map (fun xy => fdiv (fst xy) (snd xy)) (data p)) ;;
  Ok (mkTensor (shape p) d).

(** [torch.mean(t)]: [nan] on an empty tensor. *)
Definition tmean (t : tensor Q) : result Q :=
  fdiv (Qsum (data t)) (Qnat (length (data t))).

(** *** Reductions and indexing *)

(** The [i]-th block of [k] consecutive entries. *)
Definition chunk {A : Type} (k i : nat) (l : list A) : list A :=
  firstn k (skipn (i * k) l).

(** [t.sum(dim=...)] over the last [n] dimensions. *)
Definition sum_trailing (n : nat) (t : tensor Q) : result (tensor Q) :=
  if (ndim t <? n)%nat then Raise IndexError
  else
    let pre := firstn (ndim t - n) (shape t) in
    let k := numel (skipn (ndim t - n) (shape t)) in
    Ok (mkTensor pre (map (fun i => Qsum (chunk k i (data t))) (seq 0 (numel pre)))).

(** [t.sum(dim=-1)]; torch accepts dimension -1 on a 0-dimensional tensor. *)
Definition sum_last (t : tensor Q) : result (tensor Q) :=
  match shape t with
  | [] => Ok t
  | _ => sum_trailing 1 t
  end.

(** [t.sum(dim=[-1, -2])]. *)
Definition sum_last2 (t : tensor Q) : result (tensor Q) := sum_trailing 2 t.

(** [t[:, c]] for a column [c] that is not negative. *)
Definition select_col {A : Type} (c : nat) (t : tensor A) : result (tensor A) :=
  match shape t with
  | d0 :: d1 :: rest =>
      if (d1 <=? c)%nat then Raise IndexError
      else
        let r := numel rest in
        Ok (mkTensor (d0 :: rest)
              (flat_map (fun b => chunk r (b * d1 + c) (data t)) (seq 0 d0)))
  | _ => Raise IndexError
  end.

(** [t.sum(dim=[1, ..., k])]: the entry at [(b, rest)] of the result adds the
    entries at [(b, m, rest)] over all positions [m] of the [k] summed
    dimensions. *)
Definition sum_middle (k : nat) (t : tensor Q) : result (tensor Q) :=
  match shape t with
  | d0 :: tl =>
      if (length tl <? k)%nat then Raise IndexError
      else
        let m := numel (firstn k tl) in
        let rest := skipn k tl in
        let r := numel rest in
        Ok (mkTensor (d0 :: rest)
              (map (fun i =>
                      Qsum (map (fun j => nth (((i / r) * m + j) * r + i mod r) (data t) 0)
                                (seq 0 m)))
                   (seq 0 (d0 * r))))
  | [] => Raise IndexError
  end.

(** Python's index normalisation: [-d <= z < d], negative indices count from
    the end. *)
Definition norm_index (d : nat) (z : Z) : option nat :=
  if ((0 <=? z) && (z <? Z.of_nat d))%Z then Some (Z.to_nat z)
  else if ((- Z.of_nat d <=? z) && (z <? 0))%Z then Some (Z.to_nat (z + Z.of_nat d))
  else None.

Fixpoint traverse {A B : Type} (f : A -> option B) (l : list A) : option (list B) :=
  match l with
  | [] => Some []
  | a :: l' =>
      match f a, traverse f l' with
      | Some b, Some bs => Some (b :: bs)
      | _, _ => None
      end
  end.

(** [t[:, idx]] for an integer index tensor [idx]: gathers along dimension 1.
    The indices are checked as the entries are read: when no entry is read,
    because [t] has none outside dimension 1, the result is empty whatever
    the indices. *)
Definition index_dim1 {A : Type} (t : tensor A) (idx : tensor Z) : result (tensor A) :=
  match shape t with
  | d0 :: d1 :: rest =>
      let r := numel rest in
      if (d0 * r =? 0)%nat then Ok (mkTensor (d0 :: shape idx ++ rest) [])
      else
        match traverse (norm_index d1) (data idx) with
        | None => Raise IndexError
        | Some js =>
            Ok (mkTensor (d0 :: shape idx ++ rest)
                  (flat_map (fun b => flat_map (fun j => chunk r (b * d1 + j) (data t)) js)
                            (seq 0 d0)))
        end
  | _ => Raise IndexError
  end.

(** [t[mask]] for a boolean mask with as many dimensions as [t]. *)
Definition masked_select {A : Type} (t : tensor A) (mask : tensor bool) : result (tensor A) :=
  if shape_eqb (shape t) (shape mask) then
    let sel := map fst (filter snd (combine (data t) (data mask))) in
    Ok (mkTensor [length sel] sel)
  else Raise IndexError.

(** ** geodesic_distance *)

(** What the function returns: the distance alone, or the pair with the count
    when [return_count] is set. *)
Inductive gd_value : Type :=
| GD (gd : Q)
| GDCount (gd : Q) (count : nat).

Definition geodesic_distance (predicted_rotations target_rotations : tensor Q)
    (return_count : bool) : result gd_value :=
  if negb (shape_eqb (shape predicted_rotations) (shape target_rotations)) then
    Raise AssertionError
  else
    prod <- tmul predicted_rotations target_rotations ;;
    s <- sum_last prod ;;
    let Rdist := tmap (fun x => 1 - x ^ 2) s in
    col <- select_col 0 target_rotations ;;
    let mask := tmap (fun x => Qneb x (-1000)) col in
    let count := count_true (data mask) in
    if (count =? 0)%nat then
      if return_count then Ok (GDCount 0 0) else Ok (GD 0)
    else
      Rsel <- masked_select Rdist mask ;;
      gd <- tmean Rsel ;;
      if return_count then Ok (GDCount gd count) else Ok (GD gd).

(** The [i]-th row of a 2-dimensional tensor, and the inner product of rows. *)
Definition row {A : Type} (t : tensor A) (i : nat) : list A :=
  chunk (nth 1 (shape t) 0%nat) i (data t).

Definition dot (u v : list Q) : Q := Qsum (map2 Qmult u v).

(** ** loss_flat *)

(** The mesh collaborator: only [faces] and [ff] are read. *)
Record Mesh : Type := mkMesh { faces : tensor Z; ff : tensor Z }.

(** One pass of the loop body: [torch.mean((cos - 1) ** 2)] for edge [i]. *)
Definition loss_flat_edge (mesh : Mesh) (norms : tensor Q) (i : nat) : result Q :=
  let norm1 := norms in
  idx <- select_col i (ff mesh) ;;
  norm2 <- index_dim1 norms idx ;;
  pr <- tmul norm1 norm2 ;;
  cos <- sum_last pr ;;
  tmean (tmap (fun c => (c - 1) ^ 2) cos).

Definition loss_flat (mesh : Mesh) (norms : tensor Q) : result Q :=
  let loss := Ok 0 in
  let step (loss : result Q) (i : nat) : result Q :=
    bind_nf loss 0 (fun l => m <- loss_flat_edge mesh norms i ;; Ok (l + m)) in
  let loss := fold_left step [0; 1; 2]%nat loss in
  bind_nf loss 0 (fun l =>
    match shape (faces mesh) with
    | [] => Raise IndexError
    | nf :: _ => Ok (l * (Qnat nf / 2))
    end).

(** ** mean_iou_noreduce and mean_miou_noreduce *)

Definition eps6 : Q := 1 # 1000000.

Definition half : Q := 1 # 2.

Definition mean_iou_noreduce (alpha_pred alpha_real : tensor Q) : result (tensor Q) :=
  let alpha_pred := tmap (fun x => Qgtb x half) alpha_pred in
  let alpha_real := tmap (fun x => Qgtb x half) alpha_real in
  i <- zip_with false false andb alpha_pred alpha_real ;;
  intersection <- sum_last2 (tmap bool_to_Q i) ;;
  u <- zip_with false false orb alpha_pred alpha_real ;;
  union <- sum_last2 (tmap bool_to_Q u) ;;
  tdiv intersection (tmap (fun x => x + eps6) union).

Definition mean_miou_noreduce (pred target : tensor Q) (balanced : bool)
    : result (tensor Q) :=
  mn <- zip_with 0 0 Qminb pred target ;;
  intersection <- sum_last2 mn ;;
  mx <- zip_with 0 0 Qmaxb pred target ;;
  union <- sum_last2 mx ;;
  if balanced then
    bind_nf (tdiv intersection (tmap (fun x => x + eps6) union)) intersection (fun iou =>
      tsum <- sum_last2 target ;;
      let wts := tmap (fun x => Qgtb x eps6) tsum in
      iw <- zip_with 0 false (fun x b => x * bool_to_Q b) iou wts ;;
      num <- sum_last iw ;;
      den <- sum_last (tmap bool_to_Q wts) ;;
      tdiv num den)
  else
    si <- sum_last intersection ;;
    su <- sum_last union ;;
    tdiv si (tmap (fun x => x + eps6) su).

(** ** agreement_score *)

(** [x / c] for a Python number [c]: every entry is non-finite when [c] is 0. *)
Definition tdiv_scalar (x : tensor Q) (c : Q) : result (tensor Q) :=
  d <- sequence (map (fun v => fdiv v c) (data x)) ;;
  Ok (mkTensor (shape x) d).

(** [t.unsqueeze(-1)] and [t.unsqueeze(-2)]. *)
Definition unsqueeze_last {A : Type} (t : tensor A) : tensor A :=
  mkTensor (shape t ++ [1%nat]) (data t).

Definition unsqueeze_before_last {A : Type} (t : tensor A) : result (tensor A) :=
  match shape t with
  | [] => Raise IndexError
  | sh => Ok (mkTensor (removelast sh ++ [1%nat; last sh 0%nat]) (data t))
  end.

(** [rotations @ rotations.transpose(1, 2)] on the 3-dimensional tensor
    (batch, hypotheses, d) the function is written for: entry [(b, i, j)] is
    the inner product of hypotheses [i] and [j] of batch element [b].  With
    fewer dimensions the transpose is rejected.  With more, torch accepts only
    special shapes, through a broadcast of the batch dimensions that is not
    modelled: the model answers [RuntimeError] there. *)
Definition pairwise_dot (rotations : tensor Q) : result (tensor Q) :=
  match shape rotations with
  | [b; h; d] =>
      Ok (mkTensor [b; h; h]
            (flat_map (fun n =>
               flat_map (fun i =>
                 map (fun j => dot (chunk d (n * h + i) (data rotations))
                                   (chunk d (n * h + j) (data rotations)))
                     (seq 0 h))
               (seq 0 h))
             (seq 0 b)))
  | _ :: _ :: _ :: _ => Raise RuntimeError
  | _ => Raise IndexError
  end.

Section Agreement.

(** The exponential is the tensor library's; it is kept abstract. *)
Variable exp : Q -> Q.

(** [F.softmax(t, dim=1)]: entry [(b, j, rest)] is [exp] of the entry divided
    by the sum of [exp] over the positions [j'] of dimension 1. *)
Definition softmax_dim1 (t : tensor Q) : result (tensor Q) :=
  match shape t with
  | d0 :: d1 :: rest =>
      let r := numel rest in
      d <- sequence
             (map (fun i =>
                     fdiv (exp (nth i (data t) 0))
                          (Qsum (map (fun j =>
                                        exp (nth (((i / (d1 * r)) * d1 + j) * r + i mod r)
                                                 (data t) 0))
                                     (seq 0 d1))))
                  (seq 0 (d0 * d1 * r))) ;;
      Ok (mkTensor (shape t) d)
  | _ => Raise IndexError
  end.

Definition agreement_score (iou_or_miou rotations : tensor Q) (temperature : Q)
    : result (tensor Q) :=
  bind_nf (tdiv_scalar iou_or_miou temperature) iou_or_miou (fun scaled =>
    v_conf <- softmax_dim1 scaled ;;
    rr <- pairwise_dot rotations ;;
    let D := tmap (fun x => 1 - x ^ 2) rr in
    v2 <- unsqueeze_before_last v_conf ;;
    v_conf_mask <- tmul (unsqueeze_last v_conf) v2 ;;
    dm <- tmul D v_conf_mask ;;
    sum_middle 2 dm).

End Agreement.

(** ** LaplacianLoss *)

Record LaplacianLoss : Type := mkLaplacianLoss { average : bool; laplacian : tensor Q }.

(** [torch.matmul(l, x)] for a matrix [l] of shape (r, c): a vector [x] of
    shape (c) gives a vector of shape (r); an [x] of shape (..., c, k) gives
    (..., r, k), each matrix of the batch being multiplied by [l].  The
    Laplacian buffer is a matrix; for another rank of [l] the model answers
    [RuntimeError]. *)
Definition matmul (l x : tensor Q) : result (tensor Q) :=
  match shape l with
  | [r; c] =>
      match rev (shape x) with
      | [] => Raise RuntimeError
      | [c'] =>
          if negb (c' =? c)%nat then Raise RuntimeError
          else Ok (mkTensor [r] (map (fun i => dot (chunk c i (data l)) (data x)) (seq 0 r)))
      | k :: c' :: rpre =>
          if negb (c' =? c)%nat then Raise RuntimeError
          else
            let pre := rev rpre in
            Ok (mkTensor (pre ++ [r; k])
                  (flat_map (fun p =>
                     flat_map (fun i =>
                       map (fun j =>
                              Qsum (map (fun v => nth (i * c + v) (data l) 0
                                                 * nth ((p * c + v) * k + j) (data x) 0)
                                        (seq 0 c)))
                           (seq 0 k))
                       (seq 0 r))
                     (seq 0 (numel pre))))
      end
  | _ => Raise RuntimeError
  end.

(** [x.sum()]. *)
Definition tsum (t : tensor Q) : Q := Qsum (data t).

Definition forward (self : LaplacianLoss) (x : tensor Q) : result (tensor Q) :=
  match shape x with
  | [] => Raise IndexError
  | batch_size :: _ =>
      x <- matmul (laplacian self) x ;;
      (* dims = 1 .. ndim-1; an empty tuple of dims reduces every dimension *)
      x <- (if (ndim x =? 1)%nat then sum_trailing 1 (tmap (fun v => v ^ 2) x)
            else sum_trailing (ndim x - 1) (tmap (fun v => v ^ 2) x)) ;;
      if average self then
        s <- fdiv (tsum x) (Qnat batch_size) ;;
        Ok (mkTensor [] [s])
      else Ok x
  end.

(** ** GANLoss *)

(** The instance: its configuration and the three lazily created label
    tensors, each a one-entry tensor once created. *)
Record GANLoss : Type := mkGANLoss {
  gan_mode : string;
  real_label : Q;
  fake_label : Q;
  real_label_tensor : option Q;
  fake_label_tensor : option Q;
  zero_tensor : option Q
}.

(** Methods read and update the instance: a state and outcome monad. *)
Definition M (A : Type) : Type := GANLoss -> result A * GANLoss.

Definition retM {A : Type} (a : A) : M A := fun s => (Ok a, s).

Definition liftM {A : Type} (r : result A) : M A := fun s => (r, s).

Definition bindM {A B : Type} (m : M A) (k : A -> M B) : M B :=
  fun s =>
    match m s with
    | (Ok a, s') => k a s'
    | (Raise e, s') => (Raise e, s')
    | (NonFinite, s') => (NonFinite, s')
    end.

Notation "x <~ c1 ;; c2" := (bindM c1 (fun x => c2))
  (at level 61, c1 at next level, right associativity).

Definition __init__ (gan_mode : string) (target_real_label target_fake_label : Q)
    : result GANLoss :=
  let self := mkGANLoss gan_mode target_real_label target_fake_label None None None in
  if String.eqb gan_mode "ls" then Ok self
  else if String.eqb gan_mode "original" then Ok self
  else if String.eqb gan_mode "w" then Ok self
  else if String.eqb gan_mode "hinge" then Ok self
  else Raise ValueError.

(** [label.expand_as(input)] for a label tensor of shape (1): rejected for a
    0-dimensional [input]. *)
Definition expand_as (v : Q) (input : tensor Q) : result (tensor Q) :=
  match shape input with
  | [] => Raise RuntimeError
  | sh => Ok (mkTensor sh (repeat v (numel sh)))
  end.

Definition get_target_tensor (input : tensor Q) (target_is_real : bool) : M (tensor Q) :=
  fun self =>
    if target_is_real then
      let self := match real_label_tensor self with
                  | None => mkGANLoss (gan_mode self) (real_label self) (fake_label self)
                              (Some (real_label self)) (fake_label_tensor self)
                              (zero_tensor self)
                  | Some _ => self
                  end in
      match real_label_tensor self with
      | Some v => (expand_as v input, self)
      | None => (Raise AttributeError, self)
      end
    else
      let self := match fake_label_tensor self with
                  | None => mkGANLoss (gan_mode self) (real_label self) (fake_label self)
                              (real_label_tensor self) (Some (fake_label self))
                              (zero_tensor self)
                  | Some _ => self
                  end in
      match fake_label_tensor self with
      | Some v => (expand_as v input, self)
      | None => (Raise AttributeError, self)
      end.

Definition get_zero_tensor (input : tensor Q) : M (tensor Q) :=
  fun self =>
    let self := match zero_tensor self with
                | None => mkGANLoss (gan_mode self) (real_label self) (fake_label self)
                            (real_label_tensor self) (fake_label_tensor self) (Some 0)
                | Some _ => self
                end in
    match zero_tensor self with
    | Some v => (expand_as v input, self)
    | None => (Raise AttributeError, self)
    end.

(** A [mask] argument as a caller may pass it: a tensor, or a list with one
    entry (a tensor or [None]) per scale. *)
Inductive mask_arg : Type :=
| MaskTensor (t : tensor Q)
| MaskList (l : list (option (tensor Q))).

(** [GANLoss.mean]. *)
Definition mean (x : tensor Q) (mask : option mask_arg) (weight : option Q) : result Q :=
  let weight := match weight with None => 1 | Some w => w end in
  match mask with
  | None => m <- tmean x ;; Ok (m * weight)
  | Some (MaskList _) => Raise AttributeError
  | Some (MaskTensor mask) =>
      if negb (shape_eqb (shape x) (shape mask)) then Raise AssertionError
      else
        xm <- tmul x mask ;;
        num <- sum_middle 3 xm ;;
        den <- sum_middle 3 mask ;;
        ret <- tdiv num den ;;
        m <- tmean ret ;;
        Ok (m * weight)
  end.

Section Loss.

(** [F.binary_cross_entropy_with_logits], the tensor library's, kept abstract. *)
Variable binary_cross_entropy_with_logits : tensor Q -> tensor Q -> result Q.

(** [F.mse_loss(input, target)] for a target of the shape of [input]. *)
Definition mse_loss (input target : tensor Q) : result Q :=
  d <- zip_with 0 0 (fun x y => (x - y) ^ 2) input target ;;
  tmean d.

Definition fneg (r : result Q) : result Q := v <- r ;; Ok (- v).

Definition loss (input : tensor Q) (target_is_real for_discriminator : bool)
    (mask : option mask_arg) (weight : option Q) : M Q :=
  fun self =>
    if String.eqb (gan_mode self) "original" then
      (target_tensor <~ get_target_tensor input target_is_real ;;
       liftM (binary_cross_entropy_with_logits input target_tensor)) self
    else if String.eqb (gan_mode self) "ls" then
      (target_tensor <~ get_target_tensor input target_is_real ;;
       liftM (mse_loss input target_tensor)) self
    else if String.eqb (gan_mode self) "hinge" then
      if for_discriminator then
        if target_is_real then
          (zero <~ get_zero_tensor input ;;
           minval <~ liftM (zip_with 0 0 Qminb (tmap (fun x => x - 1) input) zero) ;;
           liftM (fneg (mean minval mask weight))) self
        else
          (zero <~ get_zero_tensor input ;;
           minval <~ liftM (zip_with 0 0 Qminb (tmap (fun x => - x - 1) input) zero) ;;
           liftM (fneg (mean minval mask weight))) self
      else
        if negb target_is_real then (Raise AssertionError, self)
        else (fneg (mean input mask weight), self)
    else
      if target_is_real then (fneg (tmean input), self)
      else (tmean input, self).

(** One per-scale prediction: a tensor, or a list of tensors of which the last
    is used. *)
Inductive pred : Type :=
| Pred (t : tensor Q)
| PredList (l : list (tensor Q)).

(** The [input] argument of [__call__]: a tensor or a list of predictions. *)
Inductive input_arg : Type :=
| Single (t : tensor Q)
| Multi (l : list pred).

(** A number that may be non-finite ([None]), as the loop accumulates it. *)
Definition fl : Type := option Q.

Definition fl_add (a : fl) (r : result Q) : fl :=
  match a, r with
  | Some x, Ok y => Some (x + y)
  | _, _ => None
  end.

(** The loop of [__call__] from position [idx] on, with the loss accumulated
    so far. *)
Fixpoint call_loop (items : list pred) (idx : nat) (target_is_real for_discriminator : bool)
    (mask : option (list (option (tensor Q)))) (weight : option (list Q)) (acc : fl)
    : M fl :=
  match items with
  | [] => retM acc
  | pred_i :: items' =>
      fun self =>
        match (match pred_i with
               | Pred t => Ok t
               | PredList l => match rev l with [] => Raise IndexError | t :: _ => Ok t end
               end) with
        | Raise e => (Raise e, self)
        | NonFinite => (NonFinite, self)
        | Ok pred_i =>
            match (match mask with
                   | None => Ok None
                   | Some ms => match nth_error ms idx with
                                | Some m => Ok (option_map MaskTensor m)
                                | None => Raise IndexError
                                end
                   end) with
            | Raise e => (Raise e, self)
            | NonFinite => (NonFinite, self)
            | Ok mask_i =>
                match (match weight with
                       | None => Ok None
                       | Some ws => match nth_error ws idx with
                                    | Some w => Ok (Some w)
                                    | None => Raise IndexError
                                    end
                       end) with
                | Raise e => (Raise e, self)
                | NonFinite => (NonFinite, self)
                | Ok weight_i =>
                    match loss pred_i target_is_real for_discriminator mask_i weight_i self with
                    | (Raise e, self') => (Raise e, self')
                    | (loss_tensor, self') =>
                        (* the loss is 0-dimensional: bs = 1 and new_loss holds its value *)
                        call_loop items' (S idx) target_is_real for_discriminator
                          mask weight (fl_add acc loss_tensor) self'
                    end
                end
            end
        end
  end.

Definition fl_result (a : fl) : result Q :=
  match a with Some v => Ok v | None => NonFinite end.

(** [GANLoss.__call__].  The value returned for a list is a tensor of shape
    (1); for a single tensor it is the 0-dimensional loss. *)
Definition __call__ (input : input_arg) (target_is_real for_discriminator : bool)
    (mask : option mask_arg) (weight : option (list Q)) : M (tensor Q) :=
  match input with
  | Multi items =>
      fun self =>
        match (match mask with
               | None => Ok None
               | Some (MaskTensor _) => Raise AssertionError
               | Some (MaskList ms) =>
                   if negb (length items =? length ms)%nat then Raise AssertionError
                   else Ok (Some ms)
               end) with
        | Raise e => (Raise e, self)
        | NonFinite => (NonFinite, self)
        | Ok mask =>
            match call_loop items 0 target_is_real for_discriminator mask weight (Some 0) self with
            | (Ok acc, self') =>
                let denom := match weight with
                             | None => Qnat (length items)
                             | Some ws => fold_left Qplus ws 0
                             end in
                match items with
                | [] =>
                    (* loss is still the Python number 0 *)
                    if Qeq_bool denom 0 then (Raise ZeroDivisionError, self')
                    else (Ok (mkTensor [] [0 / denom]), self')
                | _ =>
                    ((l <- fl_result acc ;; v <- fdiv l denom ;; Ok (mkTensor [1%nat] [v])), self')
                end
            | (Raise e, self') => (Raise e, self')
            | (NonFinite, self') => (NonFinite, self')
            end
        end
  | Single t =>
      fun self =>
        match loss t target_is_real for_discriminator mask None self with
        | (r, self') => ((v <- r ;; Ok (mkTensor [] [v])), self')
        end
  end.

End Loss.

(** ** mean_iou_noreduce in single precision *)

(** [mean_iou_noreduce] converts its masks with [.float()], so its sums and its
    division are carried out in IEEE binary32 whatever the type of the
    arguments.  [rne] rounds a rational to the nearest number with a 24-bit
    significand, ties to even.  The exponent is left unbounded: the values
    rounded here are counts of pixels, the sum of a count and [1e-6], and a
    quotient of these, which all lie far inside the normal range of binary32. *)
Module Binary32.

(** [ilog2 x] is the integer [e] with [2^e <= x < 2^(e+1)], for [x > 0]. *)
Definition ilog2 (x : Q) : Z :=
  let e := (Z.log2 (Qnum x) - Z.log2 (Zpos (Qden x)))%Z in
  if Qle_bool (2 ^ e) x then e else (e - 1)%Z.

Definition round_half_even (t : Q) : Z :=
  let f := Qfloor t in
  match Qcompare (t - inject_Z f) (1 # 2) with
  | Lt => f
  | Gt => (f + 1)%Z
  | Eq => if Z.even f then f else (f + 1)%Z
  end.

(** The unit in the last place of [x > 0]. *)
Definition ulp (x : Q) : Q := 2 ^ (ilog2 x - 23).

Definition rne (x : Q) : Q :=
  match Qcompare x 0 with
  | Eq => 0
  | Gt => inject_Z (round_half_even (x / ulp x)) * ulp x
  | Lt => - (inject_Z (round_half_even (- x / ulp (- x))) * ulp (- x))
  end.

(** A sum of single-precision numbers, correctly rounded.  The entries added
    here are 0 or 1: up to [2^24] of them every partial sum is exact in any
    order of summation. *)
Definition fsum_last2 (t : tensor Q) : result (tensor Q) :=
  s <- sum_last2 t ;; Ok (tmap rne s).

Definition mean_iou_noreduce (alpha_pred alpha_real : tensor Q) : result (tensor Q) :=
  let alpha_pred := tmap (fun x => Qgtb x half) alpha_pred in
  let alpha_real := tmap (fun x => Qgtb x half) alpha_real in
  i <- zip_with false false andb alpha_pred alpha_real ;;
  intersection <- fsum_last2 (tmap bool_to_Q i) ;;
  u <- zip_with false false orb alpha_pred alpha_real ;;
  union <- fsum_last2 (tmap bool_to_Q u) ;;
  iou <- tdiv intersection (tmap (fun x => rne (x + rne eps6)) union) ;;
  Ok (tmap rne iou).

End Binary32.

(** ** evaluate_geodesic_distance *)

(** The distance of a value returned by [geodesic_distance]. *)
Definition gd_of (v : gd_value) : Q :=
  match v with GD g => g | GDCount g _ => g end.

(** [len(t)]: the size of the first dimension; a 0-dimensional tensor has no
    length. *)
Definition len {A : Type} (t : tensor A) : option nat :=
  match shape t with
  | [] => None
  | n :: _ => Some n
  end.

(** The function prints one line and returns nothing.  The model returns the
    values the line is built from, in the order of the format string: the
    distance (which may be non-finite), the number of samples with a pose,
    [len(mask)] and, when [num_total] is given, the recall with its numerator
    and denominator.  The rendering of the numbers ([:.5f]) and the experiment
    name, which is only printed, are left out. *)
Record gd_report : Type := mkReport {
  rep_gd : fl;
  rep_mask_len : nat;
  rep_total : nat;
  rep_recall : option (Q * nat * Q)
}.

(** [len] of a 0-dimensional tensor raises a [TypeError] in Python; both
    tensors measured here have at least one dimension whenever the statements
    before have not raised, and the model answers [RuntimeError] in its
    place. *)
Definition evaluate_geodesic_distance (predicted_rotations target_rotations : tensor Q)
    (num_total : option Q) : result gd_report :=
  col <- select_col 0 target_rotations ;;
  let mask := tmap (fun x => Qneb x (-1000)) col in
  let mask_len := count_true (data mask) in
  match geodesic_distance predicted_rotations target_rotations false with
  | Raise e => Raise e
  | r =>
      let gd := match r with Ok v => Some (gd_of v) | _ => None end in
      recall <- match num_total with
                | Some n =>
                    match len predicted_rotations with
                    | None => Raise RuntimeError
                    | Some l =>
                        if Qeq_bool n 0 then Raise ZeroDivisionError
                        else Ok (Some (Qnat l / n, l, n))
                    end
                | None => Ok None
                end ;;
      match len mask with
      | None => Raise RuntimeError
      | Some total => Ok (mkReport gd mask_len total recall)
      end
  end.

(** ** The functions in floating-point arithmetic *)

(** The tensors the module works on hold floating-point numbers and every
    operation on them rounds.  [Module Float] gives, in that arithmetic, the
    functions whose results depend on it.  It is parametrised by what the
    floating-point type and the tensor library fix:
    - [rnd], the rounding of an exact result to the nearest number of the
      type;
    - [fmax], the largest finite number of the type: a rounded result beyond
      it is an infinity;
    - [fsumq], the sum of a list of numbers as the library's reduction
      computes it, in whatever order it adds and rounds them;
    - for [agreement_score], [exp], the library's exponential, and [fdotq],
      the inner product of two rows as its matrix product computes it.
    A value is a rational or is [None]: the computation has left the finite
    numbers (an infinity or nan has appeared, which are not told apart) and
    is not followed further, so that [None] propagates and a function ends
    in [NonFinite].  The statements below are about results that are finite
    numbers.  The arguments of the functions are tensors of finite
    numbers. *)
Module Float.

Section Arithmetic.

Variable rnd : Q -> Q.
Variable fmax : Q.
Variable fsumq : list Q -> fl.

Definition fround (x : Q) : fl :=
  let y := rnd x in if Qle_bool (Qabs y) fmax then Some y else None.

Definition lift2 (f : Q -> Q -> fl) (a b : fl) : fl :=
  match a, b with
  | Some x, Some y => f x y
  | _, _ => None
  end.

Definition fadd : fl -> fl -> fl := lift2 (fun x y => fround (x + y)).

Definition fsub : fl -> fl -> fl := lift2 (fun x y => fround (x - y)).

Definition fmul : fl -> fl -> fl := lift2 (fun x y => fround (x * y)).

(** Division by zero gives an infinity or nan. *)
Definition fdiv : fl -> fl -> fl :=
  lift2 (fun x y => if Qeq_bool y 0 then None else fround (x / y)).

(** Negation and the minimum of two numbers do not round. *)
Definition fneg (a : fl) : fl := option_map Qopp a.

Definition fmin : fl -> fl -> fl := lift2 (fun x y => Some (Qminb x y)).

(** [x ** 2]. *)
Definition fsq (a : fl) : fl := fmul a a.

Definition fsum (l : list fl) : fl :=
  match traverse (fun a => a) l with
  | Some qs => fsumq qs
  | None => None
  end.

(** One order of summation: from left to right. *)
Definition seq_sum (l : list Q) : fl :=
  match l with
  | [] => Some 0
  | x :: l' => fold_left (fun acc y => fadd acc (Some y)) l' (Some x)
  end.

(** The inner product of two rows computed as [(u * v).sum()]. *)
Definition dot (u v : list Q) : fl :=
  fsum (map2 (fun x y => fmul (Some x) (Some y)) u v).

(** A tensor of finite numbers as a tensor of values. *)
Definition finite (t : tensor Q) : tensor fl := tmap Some t.

(** A returned number. *)
Definition value (a : fl) : result Q :=
  match a with
  | Some x => Ok x
  | None => NonFinite
  end.

Definition tmul (a b : tensor fl) : result (tensor fl) :=
  zip_with (Some 0) (Some 0) fmul a b.

Definition tdiv (a b : tensor fl) : result (tensor fl) :=
  zip_with (Some 0) (Some 0) fdiv a b.

Definition sum_trailing (n : nat) (t : tensor fl) : result (tensor fl) :=
  if (ndim t <? n)%nat then Raise IndexError
  else
    let pre := firstn (ndim t - n) (shape t) in
    let k := numel (skipn (ndim t - n) (shape t)) in
    Ok (mkTensor pre (map (fun i => fsum (chunk k i (data t))) (seq 0 (numel pre)))).

Definition sum_last (t : tensor fl) : result (tensor fl) :=
  match shape t with
  | [] => Ok t
  | _ => sum_trailing 1 t
  end.

Definition sum_middle (k : nat) (t : tensor fl) : result (tensor fl) :=
  match shape t with
  | d0 :: tl =>
      if (length tl <? k)%nat then Raise IndexError
      else
        let m := numel (firstn k tl) in
        let rest := skipn k tl in
        let r := numel rest in
        Ok (mkTensor (d0 :: rest)
              (map (fun i =>
                      fsum (map (fun j => nth (((i / r) * m + j) * r + i mod r) (data t)
                                              (Some 0))
                                (seq 0 m)))
                   (seq 0 (d0 * r))))
  | [] => Raise IndexError
  end.

(** [torch.mean(t)]: the sum divided by the number of entries; [nan] on an
    empty tensor. *)
Definition tmean (t : tensor fl) : fl :=
  fdiv (fsum (data t)) (Some (Qnat (length (data t)))).

(** *** geodesic_distance *)

Definition geodesic_distance (predicted_rotations target_rotations : tensor Q)
    (return_count : bool) : result gd_value :=
  if negb (shape_eqb (shape predicted_rotations) (shape target_rotations)) then
    Raise AssertionError
  else
    prod <- tmul (finite predicted_rotations) (finite target_rotations) ;;
    s <- sum_last prod ;;
    let Rdist := tmap (fun x => fsub (Some 1) (fsq x)) s in
    col <- select_col 0 target_rotations ;;
    let mask := tmap (fun x => Qneb x (-1000)) col in
    let count := count_true (data mask) in
    if (count =? 0)%nat then
      if return_count then Ok (GDCount 0 0) else Ok (GD 0)
    else
      Rsel <- masked_select Rdist mask ;;
      gd <- value (tmean Rsel) ;;
      if return_count then Ok (GDCount gd count) else Ok (GD gd).

(** *** loss_flat *)

Definition loss_flat_edge (mesh : Mesh) (norms : tensor Q) (i : nat) : result fl :=
  let norm1 := norms in
  idx <- select_col i (ff mesh) ;;
  norm2 <- index_dim1 norms idx ;;
  pr <- tmul (finite norm1) (finite norm2) ;;
  cos <- sum_last pr ;;
  Ok (tmean (tmap (fun c => fsq (fsub c (Some 1))) cos)).

Definition loss_flat (mesh : Mesh) (norms : tensor Q) : result Q :=
  let loss := Ok (Some 0) in
  let step (loss : result fl) (i : nat) : result fl :=
    l <- loss ;; m <- loss_flat_edge mesh norms i ;; Ok (fadd l m) in
  loss <- fold_left step [0; 1; 2]%nat loss ;;
  match shape (faces mesh) with
  | [] => Raise IndexError
  | nf :: _ => value (fmul loss (Some (Qnat nf / 2)))
  end.

(** *** mean_miou_noreduce *)

(** A tensor of values as a returned tensor of numbers. *)
Definition to_result (t : tensor fl) : result (tensor Q) :=
  match traverse (fun a => a) (data t) with
  | Some qs => Ok (mkTensor (shape t) qs)
  | None => NonFinite
  end.

(** [t + 1e-6]: the Python number is converted to the type of [t], then
    added. *)
Definition add_eps6 (t : tensor fl) : tensor fl :=
  tmap (fun x => fadd x (fround eps6)) t.

(** [t > 1e-6], the Python number converted to the type of [t]. *)
Definition gt_eps6 (t : tensor fl) : tensor (option bool) :=
  tmap (option_map (fun x => Qgtb x (rnd eps6))) t.

(** [iou * wts], an entry times [True] or [False]. *)
Definition mask_mul (x : fl) (b : option bool) : fl :=
  match b with
  | Some b => fmul x (Some (bool_to_Q b))
  | None => None
  end.

(** [wts.sum(dim=-1)] for a Boolean tensor: the integer count of [True]
    along the last dimension, converted to the floating-point type by the
    division that follows. *)
Definition count_last (t : tensor (option bool)) : result (tensor fl) :=
  let cnt (l : list (option bool)) : fl :=
    match traverse (fun a => a) l with
    | Some bs => fround (Qnat (count_true bs))
    | None => None
    end in
  match shape t with
  | [] => Ok (tmap (fun b => cnt [b]) t)
  | _ =>
      let pre := firstn (ndim t - 1) (shape t) in
      let k := numel (skipn (ndim t - 1) (shape t)) in
      Ok (mkTensor pre (map (fun i => cnt (chunk k i (data t))) (seq 0 (numel pre))))
  end.

(** [mean_miou_noreduce] computes in the floating-point type of its
    arguments. *)
Definition mean_miou_noreduce (pred target : tensor Q) (balanced : bool)
    : result (tensor Q) :=
  mn <- zip_with 0 0 Qminb pred target ;;
  intersection <- sum_trailing 2 (finite mn) ;;
  mx <- zip_with 0 0 Qmaxb pred target ;;
  union <- sum_trailing 2 (finite mx) ;;
  if balanced then
    iou <- tdiv intersection (add_eps6 union) ;;
    tsum <- sum_trailing 2 (finite target) ;;
    let wts := gt_eps6 tsum in
    iw <- zip_with (Some 0) (Some false) mask_mul iou wts ;;
    num <- sum_last iw ;;
    den <- count_last wts ;;
    res <- tdiv num den ;;
    to_result res
  else
    si <- sum_last intersection ;;
    su <- sum_last union ;;
    res <- tdiv si (add_eps6 su) ;;
    to_result res.

(** *** agreement_score *)

Section Agreement.

Variable exp : Q -> Q.
Variable fdotq : list Q -> list Q -> fl.

Definition fexp (a : fl) : fl := option_map exp a.

Definition fmaximum (l : list fl) : fl :=
  match traverse (fun a => a) l with
  | Some (q :: qs) => Some (fold_left Qmaxb qs q)
  | _ => None
  end.

(** [F.softmax(t, dim=1)] as the library computes it: the exponentials are
    taken of the entries less the maximum of their line, so that no
    exponential overflows, and each is normalised by their sum, here with one
    division. *)
Definition softmax_dim1 (t : tensor fl) : result (tensor fl) :=
  match shape t with
  | d0 :: d1 :: rest =>
      let r := numel rest in
      Ok (mkTensor (shape t)
            (map (fun i =>
                    let line := map (fun j => nth (((i / (d1 * r)) * d1 + j) * r + i mod r)
                                                  (data t) (Some 0))
                                    (seq 0 d1) in
                    let m := fmaximum line in
                    fdiv (fexp (fsub (nth i (data t) (Some 0)) m))
                         (fsum (map (fun x => fexp (fsub x m)) line)))
                 (seq 0 (d0 * d1 * r))))
  | _ => Raise IndexError
  end.

(** [rotations @ rotations.transpose(1, 2)] on a tensor (batch, hypotheses,
    d), as [pairwise_dot] above. *)
Definition pairwise_dot (rotations : tensor Q) : result (tensor fl) :=
  match shape rotations with
  | [b; h; d] =>
      Ok (mkTensor [b; h; h]
            (flat_map (fun n =>
               flat_map (fun i =>
                 map (fun j => fdotq (chunk d (n * h + i) (data rotations))
                                     (chunk d (n * h + j) (data rotations)))
                     (seq 0 h))
               (seq 0 h))
             (seq 0 b)))
  | _ :: _ :: _ :: _ => Raise RuntimeError
  | _ => Raise IndexError
  end.

Definition agreement_score (iou_or_miou rotations : tensor Q) (temperature : Q)
    : result (tensor Q) :=
  let scaled := tmap (fun v => fdiv (Some v) (Some temperature)) iou_or_miou in
  v_conf <- softmax_dim1 scaled ;;
  rr <- pairwise_dot rotations ;;
  let D := tmap (fun x => fsub (Some 1) (fsq x)) rr in
  v2 <- unsqueeze_before_last v_conf ;;
  v_conf_mask <- tmul (unsqueeze_last v_conf) v2 ;;
  dm <- tmul D v_conf_mask ;;
  v_agr <- sum_middle 2 dm ;;
  match traverse (fun a => a) (data v_agr) with
  | Some qs => Ok (mkTensor (shape v_agr) qs)
  | None => NonFinite
  end.

End Agreement.

(** *** GANLoss.mean and GANLoss.loss *)

Definition mean (x : tensor fl) (mask : option mask_arg) (weight : option Q) : result fl :=
  let weight := match weight with None => 1 | Some w => w end in
  match mask with
  | None => Ok (fmul (tmean x) (Some weight))
  | Some (MaskList _) => Raise AttributeError
  | Some (MaskTensor mask) =>
      if negb (shape_eqb (shape x) (shape mask)) then Raise AssertionError
      else
        xm <- tmul x (finite mask) ;;
        num <- sum_middle 3 xm ;;
        den <- sum_middle 3 (finite mask) ;;
        ret <- tdiv num den ;;
        Ok (fmul (tmean ret) (Some weight))
  end.

Section Loss.

Variable binary_cross_entropy_with_logits : tensor Q -> tensor Q -> result Q.

Definition mse_loss (input target : tensor fl) : result fl :=
  d <- zip_with (Some 0) (Some 0) (fun x y => fsq (fsub x y)) input target ;;
  Ok (tmean d).

Definition loss (input : tensor Q) (target_is_real for_discriminator : bool)
    (mask : option mask_arg) (weight : option Q) : M Q :=
  fun self =>
    if String.eqb (gan_mode self) "original" then
      (target_tensor <~ get_target_tensor input target_is_real ;;
       liftM (binary_cross_entropy_with_logits input target_tensor)) self
    else if String.eqb (gan_mode self) "ls" then
      (target_tensor <~ get_target_tensor input target_is_real ;;
       liftM (l <- mse_loss (finite input) (finite target_tensor) ;; value l)) self
    else if String.eqb (gan_mode self) "hinge" then
      if for_discriminator then
        if target_is_real then
          (zero <~ get_zero_tensor input ;;
           minval <~ liftM (zip_with (Some 0) (Some 0) fmin
                              (tmap (fun x => fsub (Some x) (Some 1)) input) (finite zero)) ;;
           liftM (m <- mean minval mask weight ;; value (fneg m))) self
        else
          (zero <~ get_zero_tensor input ;;
           minval <~ liftM (zip_with (Some 0) (Some 0) fmin
                              (tmap (fun x => fsub (Some (- x)) (Some 1)) input)
                              (finite zero)) ;;
           liftM (m <- mean minval mask weight ;; value (fneg m))) self
      else
        if negb target_is_real then (Raise AssertionError, self)
        else ((m <- mean (finite input) mask weight ;; value (fneg m)), self)
    else
      if target_is_real then (value (fneg (tmean (finite input))), self)
      else (value (tmean (finite input)), self).

End Loss.

End Arithmetic.

End Float.

(** IEEE binary32 as an instance: the largest finite number is
    [(2^24 - 1) * 2^104]. *)
Definition fmax32 : Q := inject_Z (16777215 * 2 ^ 104).

(** IEEE binary64, the type of tensors of doubles: [rne] rounds to the
    nearest number with a 53-bit significand, ties to even; the largest
    finite number is [(2^53 - 1) * 2^971]. *)
Module Binary64.

Definition ulp (x : Q) : Q := 2 ^ (Binary32.ilog2 x - 52).

Definition rne (x : Q) : Q :=
  match Qcompare x 0 with
  | Eq => 0
  | Gt => inject_Z (Binary32.round_half_even (x / ulp x)) * ulp x
  | Lt => - (inject_Z (Binary32.round_half_even (- x / ulp (- x))) * ulp (- x))
  end.

End Binary64.


(** ** Inputs and predicates of the statements *)


(** What the proofs ask of the exponential. *)
Definition positive (f : Q -> Q) : Prop := forall x, 0 < f x.

(** The exponential only has to be positive for the proofs; this rational
    function stands in for it where a concrete instance is needed. *)
Definition exp_standin (x : Q) : Q := 1 + x * x.

(** The adjacency of two triangles that share all three edges: across every
    edge the neighbour of face 0 is face 1 and the neighbour of face 1 is
    face 0. *)
Definition ff_two_faces : tensor Z := mkTensor [2; 3]%nat [1; 1; 1; 0; 0; 0]%Z.

(** Two outcomes agree in value: the same exception, or tensors with the same
    entries (their shapes may differ, as a 0-dimensional tensor and a tensor
    of shape (1) do). *)
Definition same_value (r1 r2 : result (tensor Q)) : Prop :=
  match r1, r2 with
  | Ok a, Ok b => Forall2 Qeq (data a) (data b)
  | Raise e1, Raise e2 => e1 = e2
  | _, _ => False
  end.

(** A mask entry that is 0 or 1. *)
Definition is_binary (x : Q) : Prop := x == 0 \/ x == 1.

(** [torch.ones(sh)]. *)
Definition ones (sh : list nat) : tensor Q := mkTensor sh (repeat 1 (numel sh)).

(** The value of a finite number of the Standard Library's specification of
    IEEE 754 arithmetic, against which [Binary32.rne] is checked below. *)
Definition SF2Q (f : SpecFloat.spec_float) : option Q :=
  match f with
  | SpecFloat.S754_zero _ => Some 0
  | SpecFloat.S754_finite s m e =>
      Some ((if s then - 1 else 1) * inject_Z (Zpos m) * 2 ^ e)
  | _ => None
  end.

(** 16, 32 and the binary32 number nearest to [1e-6]. *)
Definition sf16 : SpecFloat.spec_float := SpecFloat.S754_finite false 8388608 (-19).
Definition sf32 : SpecFloat.spec_float := SpecFloat.S754_finite false 8388608 (-18).
Definition sf_eps6 : SpecFloat.spec_float := SpecFloat.S754_finite false 8796093 (-43).

(** ** Further notions used in the statements *)

(** The hard mask of a soft one, as [mean_iou_noreduce] thresholds it. *)
Definition binarize (t : tensor Q) : tensor Q :=
  tmap (fun x => if Qgtb x half then 1 else 0) t.

(** Tensors of one shape with equal entries, and outcomes that agree up to
    the equality of rationals. *)
Definition teq (t1 t2 : tensor Q) : Prop :=
  shape t1 = shape t2 /\ Forall2 Qeq (data t1) (data t2).

Definition req (r1 r2 : result (tensor Q)) : Prop :=
  match r1, r2 with
  | Ok a, Ok b => teq a b
  | Raise e1, Raise e2 => e1 = e2
  | NonFinite, NonFinite => True
  | _, _ => False
  end.

Definition reqQ (r1 r2 : result Q) : Prop :=
  match r1, r2 with
  | Ok a, Ok b => a == b
  | Raise e1, Raise e2 => e1 = e2
  | NonFinite, NonFinite => True
  | _, _ => False
  end.

(** Outcomes of [geodesic_distance] that agree: the same count and equal
    distances, or the same failure. *)
Definition gd_equiv (r1 r2 : result gd_value) : Prop :=
  match r1, r2 with
  | Ok (GD a), Ok (GD b) => a == b
  | Ok (GDCount a n), Ok (GDCount b m) => a == b /\ n = m
  | Raise e1, Raise e2 => e1 = e2
  | NonFinite, NonFinite => True
  | _, _ => False
  end.

(** What [geodesic_distance] does once the per-sample distances [Rdist] are
    computed: the selection of the valid samples and their mean. *)
Definition geodesic_select (Rdist target_rotations : tensor Q) (return_count : bool)
    : result gd_value :=
  col <- select_col 0 target_rotations ;;
  let mask := tmap (fun x => Qneb x (-1000)) col in
  let count := count_true (data mask) in
  if (count =? 0)%nat then
    if return_count then Ok (GDCount 0 0) else Ok (GD 0)
  else
    Rsel <- masked_select Rdist mask ;;
    gd <- tmean Rsel ;;
    if return_count then Ok (GDCount gd count) else Ok (GD gd).

(** What Python's indexing makes of an index [z] into a dimension of size
    [d]: a negative index down to [-d] counts from the end. *)
Definition wrap_index (d : nat) (z : Z) : Z :=
  if ((- Z.of_nat d <=? z) && (z <? 0))%Z then (z + Z.of_nat d)%Z else z.

(** A relation that sums respect. *)
Definition sum_compatible (R : Q -> Q -> Prop) : Prop :=
  forall l1 l2, Forall2 R l1 l2 -> R (Qsum l1) (Qsum l2).

(** [0 <= x <= y], the relation of an intersection to its union. *)
Definition below (x y : Q) : Prop := 0 <= x /\ x <= y.

(** [x == - y]: what negating one factor does to a product and to a sum. *)
Definition opposite (x y : Q) : Prop := x == - y.

(** [y == k * x]: what scaling the entries by [k] does to a sum. *)
Definition scaled (k : Q) (x y : Q) : Prop := y == k * x.

(** Outcomes related entry by entry: tensors of one shape whose entries are
    related by [R], the same exception, or a non-finite value on both sides. *)
Definition related (R : Q -> Q -> Prop) (r1 r2 : result (tensor Q)) : Prop :=
  match r1, r2 with
  | Ok a, Ok b => shape a = shape b /\ Forall2 R (data a) (data b)
  | Raise e1, Raise e2 => e1 = e2
  | NonFinite, NonFinite => True
  | _, _ => False
  end.

(** The lazily created label tensors are caches of the configured labels:
    each is still missing or holds the value it is created with. *)
Definition consistent (self : GANLoss) : Prop :=
  (real_label_tensor self = None \/ real_label_tensor self = Some (real_label self))
  /\ (fake_label_tensor self = None \/ fake_label_tensor self = Some (fake_label self))
  /\ (zero_tensor self = None \/ zero_tensor self = Some 0).

(** Two instances configured alike. *)
Definition same_config (s1 s2 : GANLoss) : Prop :=
  gan_mode s1 = gan_mode s2 /\ real_label s1 = real_label s2 /\ fake_label s1 = fake_label s2.

(** A method that does not see the state of the caches: on instances
    configured alike and with consistent caches it has the same outcome and
    leaves such instances. *)
Definition transparent {A : Type} (m : M A) : Prop :=
  forall s1 s2, consistent s1 -> consistent s2 -> same_config s1 s2 ->
    fst (m s1) = fst (m s2)
    /\ consistent (snd (m s1)) /\ consistent (snd (m s2))
    /\ same_config s1 (snd (m s1)) /\ same_config s2 (snd (m s2)).

(** The modes [__init__] accepts. *)
Definition gan_modes : list string := ["ls"; "original"; "w"; "hinge"]%string.

(** A mask tensor without negative entries, and a weight that is not
    negative. *)
Definition mask_nonneg (mask : option mask_arg) : Prop :=
  match mask with
  | Some (MaskTensor m) => Forall (fun v => 0 <= v) (data m)
  | _ => True
  end.

Definition weight_nonneg (weight : option Q) : Prop :=
  match weight with
  | Some w => 0 <= w
  | None => True
  end.

(** A prediction the hinge loss of the discriminator does not penalise: at
    least 1 on a real sample, at most -1 on a fake one. *)
Definition beyond_margin (target_is_real : bool) (x : Q) : Prop :=
  if target_is_real then 1 <= x else x <= - (1).

(** Outcomes with the same entries, whatever the shapes: a 0-dimensional
    tensor and a tensor of shape (1) with one value, the same exception, or a
    non-finite value on both sides. *)
Definition same_outcome (r1 r2 : result (tensor Q)) : Prop :=
  match r1, r2 with
  | Ok a, Ok b => Forall2 Qeq (data a) (data b)
  | Raise e1, Raise e2 => e1 = e2
  | NonFinite, NonFinite => True
  | _, _ => False
  end.

(** A weighted part [x] of a weight [w]: nothing of nothing, or at least 0
    and less than the whole. *)
Definition share (x w : Q) : Prop := (w == 0 /\ x == 0) \/ (0 <= x /\ x < w).

(** A value that is the finite number [q]. *)
Definition fl_is (a : fl) (q : Q) : Prop := exists y, a = Some y /\ y == q.

(** What the statements ask of the rounding: 0 and 1 are numbers of the
    type, and the rounding of a rational does not depend on how it is
    written. *)
Definition rounding (rnd : Q -> Q) (fmax : Q) : Prop :=
  rnd 0 == 0 /\ rnd 1 == 1 /\ 1 <= fmax /\ forall x y, x == y -> rnd x == rnd y.

(** What they ask of the sum, in whatever order it adds: zeros add up to
    zero, and the sum of one number is that number. *)
Definition summation (fsumq : list Q -> fl) : Prop :=
  (forall l, Forall (fun x => x == 0) l -> fl_is (fsumq l) 0)
  /\ (forall x, fsumq [x] = Some x).



(** A rational function with value 1 at 0, to instantiate the exponential in
    the examples (the theorems hold for every [exp] with [exp 0 = 1]). *)
Definition exp_taylor2 (x : Q) : Q := 1 + x + x * x * (1 # 2).

(** ** The generator's hinge loss in the words of its description

    "The negated (masked, weighted) mean of the raw input", written out
    entry by entry with the roundings of the arithmetic, for the comparison
    with [Float.loss].  On an input (B, C, H, W) flattened to [xs], with
    [k = C * H * W] entries per batch element, the masked mean is the mean
    over the batch of (sum of input times mask) / (sum of mask). *)
Section HingeGenerator.

Variable rnd : Q -> Q.
Variable fmax : Q.
Variable fsumq : list Q -> fl.

(** [- (m * weight)], the weight 1 when none is given. *)
Definition negated_weighted (m : fl) (weight : option Q) : result Q :=
  match Float.fmul rnd fmax m (Some (match weight with None => 1 | Some w => w end)) with
  | Some p => Ok (- p)
  | None => NonFinite
  end.


(** For batch element [b]: the sum of input times mask over the sum of the mask. *)
Definition masked_ratio (k : nat) (xs ms : list Q) (b : nat) : fl :=
  Float.fdiv rnd fmax
    (Float.fsum fsumq
       (map (fun j => Float.fmul rnd fmax (Some (nth (b * k + j) xs 0))
                                          (Some (nth (b * k + j) ms 0)))
            (seq 0 k)))
    (Float.fsum fsumq (map (fun j => Some (nth (b * k + j) ms 0)) (seq 0 k))).

Definition negated_masked_mean (B k : nat) (xs ms : list Q) (weight : option Q) : result Q :=
  negated_weighted
    (Float.fdiv rnd fmax (Float.fsum fsumq (map (masked_ratio k xs ms) (seq 0 B)))
                (Some (Qnat B)))
    weight.

End HingeGenerator.


(** * Verification *)

(** ** Basic facts *)

Lemma shape_eqb_refl (s : list nat) : shape_eqb s s = true.
Proof. unfold shape_eqb. destruct (list_eq_dec Nat.eq_dec s s); congruence. Qed.

Lemma shape_eqb_eq (a b : list nat) : shape_eqb a b = true -> a = b.
Proof. unfold shape_eqb. destruct (list_eq_dec Nat.eq_dec a b); congruence. Qed.

Lemma shape_eqb_neq (a b : list nat) : a <> b -> shape_eqb a b = false.
Proof. unfold shape_eqb. destruct (list_eq_dec Nat.eq_dec a b); congruence. Qed.

Lemma zip_with_same_shape {A B C : Type} (dA : A) (dB : B) (f : A -> B -> C) a b :
  shape a = shape b ->
  zip_with dA dB f a b = Ok (mkTensor (shape a) (map2 f (data a) (data b))).
Proof. intros E. unfold zip_with. rewrite E, shape_eqb_refl. reflexivity. Qed.

Lemma map2_diag {A C : Type} (f : A -> A -> C) (l : list A) :
  map2 f l l = map (fun x => f x x) l.
Proof. unfold map2. induction l; simpl; congruence. Qed.


Lemma chunk_map {A B : Type} (f : A -> B) k i l :
  chunk k i (map f l) = map f (chunk k i l).
Proof. unfold chunk. now rewrite skipn_map, firstn_map. Qed.

Lemma chunk_length {A : Type} (k i n : nat) (l : list A) :
  length l = (n * k)%nat -> (i < n)%nat -> length (chunk k i l) = k.
Proof.
  intros Hl Hi. unfold chunk. rewrite length_firstn, length_skipn, Hl.
  assert ((i + 1) * k <= n * k)%nat by (apply Nat.mul_le_mono_r; lia). lia.
Qed.

Lemma chunk_one {A : Type} (j : nat) (l : list A) (dflt : A) :
  (j < length l)%nat -> chunk 1 j l = [nth j l dflt].
Proof.
  intros H. unfold chunk. rewrite Nat.mul_1_r.
  revert j H. induction l as [|a l IH]; intros j H; simpl in H; [lia|].
  destruct j as [|j]; simpl.
  - reflexivity.
  - apply IH. lia.
Qed.

Lemma nth_chunk {A : Type} (k i j : nat) (l : list A) (dflt : A) :
  (j < k)%nat -> nth j (chunk k i l) dflt = nth (i * k + j) l dflt.
Proof.
  intros H. unfold chunk. rewrite nth_firstn.
  destruct (Nat.ltb_spec j k); [|lia]. now rewrite nth_skipn.
Qed.

Lemma flat_map_ext_on {A B : Type} (f g : A -> list B) (l : list A) :
  (forall a, In a l -> f a = g a) -> flat_map f l = flat_map g l.
Proof.
  intros H. rewrite !flat_map_concat_map. f_equal. now apply map_ext_in.
Qed.

Lemma flat_map_singleton {A B : Type} (f : A -> B) (l : list A) :
  flat_map (fun a => [f a]) l = map f l.
Proof. induction l; simpl; congruence. Qed.

Lemma select_all {A : Type} (l : list A) (m : list bool) :
  Forall (fun b => b = true) m -> length m = length l ->
  map fst (filter snd (combine l m)) = l.
Proof.
  intros H. revert l. induction H as [|b m Hb _ IH]; intros [|a l] E; simpl in *;
    try reflexivity; try discriminate.
  subst b. simpl. f_equal. apply IH. lia.
Qed.

Lemma count_true_all_true (l : list bool) :
  Forall (fun b => b = true) l -> count_true l = length l.
Proof.
  unfold count_true. induction 1 as [|b l Hb _ IH]; simpl; [reflexivity|].
  rewrite Hb. simpl. now rewrite IH.
Qed.

Lemma count_true_all_false (l : list bool) :
  Forall (fun b => b = false) l -> count_true l = 0%nat.
Proof.
  unfold count_true. induction 1 as [|b l Hb _ IH]; simpl; [reflexivity|].
  now rewrite Hb.
Qed.

Lemma Qsq_one (x : Q) : x == 1 -> 1 - x ^ 2 == 0.
Proof. intros E. simpl. rewrite E. ring. Qed.

Lemma Qsum_all_zero (l : list Q) : Forall (fun x => x == 0) l -> Qsum l == 0.
Proof.
  induction 1 as [|x l Hx _ IH]; simpl; [reflexivity|]. rewrite Hx, IH. ring.
Qed.

Lemma Qeq_bool_false (x y : Q) : ~ x == y -> Qeq_bool x y = false.
Proof.
  intros H. destruct (Qeq_bool x y) eqn:E; [|reflexivity].
  apply Qeq_bool_eq in E. contradiction.
Qed.

Lemma Qnat_nonneg (n : nat) : 0 <= Qnat n.
Proof. unfold Qnat. change 0 with (inject_Z 0). rewrite <- Zle_Qle. lia. Qed.

Lemma Qnat_pos_neq0 (n : nat) : (0 < n)%nat -> Qeq_bool (Qnat n) 0 = false.
Proof.
  intros H. apply Qeq_bool_false. unfold Qnat, Qeq. simpl. lia.
Qed.

Lemma fdiv_zero_num (x : Q) (n : nat) :
  x == 0 -> (0 < n)%nat -> exists v, fdiv x (Qnat n) = Ok v /\ v == 0.
Proof.
  intros Hx Hn. unfold fdiv. rewrite (Qnat_pos_neq0 n Hn).
  eexists. split; [reflexivity|]. rewrite Hx. unfold Qdiv. ring.
Qed.

(** ** geodesic_distance *)

(** C4.  When every entry of [target_rotations[:, 0]] is the sentinel -1000, no
    sample is valid and [geodesic_distance] returns 0, or the pair (0, 0) when
    [return_count] is set, for predictions of the same shape; the mean over an
    empty selection is never taken. *)
Theorem geodesic_distance_no_valid_sample
    (predicted_rotations target_rotations col : tensor Q) (return_count : bool) :
  shape predicted_rotations = shape target_rotations ->
  select_col 0 target_rotations = Ok col ->
  Forall (fun x => x == -1000) (data col) ->
  geodesic_distance predicted_rotations target_rotations return_count
  = Ok (if return_count then GDCount 0 0 else GD 0).
Proof.
  intros Hs Hcol Hall.
  destruct predicted_rotations as [sp dp], target_rotations as [st dt].
  simpl in Hs. subst sp.
  assert (Hnd : exists d0 d1 rest, st = d0 :: d1 :: rest).
  { unfold select_col in Hcol. simpl in Hcol. destruct st as [|d0 [|d1 rest]];
      try discriminate. now exists d0, d1, rest. }
  destruct Hnd as (d0 & d1 & rest & ->).
  unfold geodesic_distance, tmul, zip_with. simpl shape.
  rewrite shape_eqb_refl. simpl negb. cbv iota. simpl bind.
  unfold sum_last, sum_trailing, ndim. simpl shape. cbv iota. simpl Nat.ltb. cbv iota.
  simpl bind. rewrite Hcol. simpl bind.
  rewrite count_true_all_false.
  - simpl. destruct return_count; reflexivity.
  - simpl. rewrite Forall_map. eapply Forall_impl; [|exact Hall].
    intros x Hx. unfold Qneb. apply Qeq_bool_iff in Hx. now rewrite Hx.
Qed.

Lemma geodesic_distance_no_valid_sample_witness :
  geodesic_distance
    (mkTensor [2; 4]%nat [1; 0; 0; 0; 0; 1; 0; 0])
    (mkTensor [2; 4]%nat [-1000; 0; 0; 0; -1000; 1; 0; 0]) true
  = Ok (GDCount 0 0).
Proof.
  apply (geodesic_distance_no_valid_sample
           (mkTensor [2; 4]%nat [1; 0; 0; 0; 0; 1; 0; 0])
           (mkTensor [2; 4]%nat [-1000; 0; 0; 0; -1000; 1; 0; 0])
           (mkTensor [2]%nat [-1000; -1000]) true).
  - reflexivity.
  - reflexivity.
  - repeat constructor; reflexivity.
Defined.


Lemma sum_chunks_sq (d N : nat) (l : list Q) :
  map (fun i => Qsum (chunk d i (map2 Qmult l l))) (seq 0 N)
  = map (fun i => dot (chunk d i l) (chunk d i l)) (seq 0 N).
Proof.
  apply map_ext. intros i. unfold dot. now rewrite !map2_diag, chunk_map.
Qed.

(** In exact arithmetic: for a rotation tensor [R] of shape (N, d) each of whose rows
    has a first component other than -1000 and has inner product 1 with itself
    (a unit quaternion, say), [geodesic_distance(R, R)] returns 0, with the
    count [N] when [return_count] is set. *)
Theorem geodesic_distance_self_unit (R : tensor Q) (N d : nat) (return_count : bool) :
  shape R = [N; d] ->
  wf R ->
  (0 < d)%nat ->
  (forall i, (i < N)%nat -> ~ nth 0 (row R i) 0 == -1000) ->
  (forall i, (i < N)%nat -> dot (row R i) (row R i) == 1) ->
  exists gd, geodesic_distance R R return_count
             = Ok (if return_count then GDCount gd N else GD gd)
             /\ gd == 0.
Proof.
  intros Hs Hwf Hd Hvalid Hunit.
  destruct R as [sh dt]. simpl in Hs. subst sh.
  unfold wf in Hwf. simpl in Hwf. rewrite Nat.mul_1_r in Hwf.
  unfold row in Hvalid, Hunit. simpl in Hvalid, Hunit.
  unfold geodesic_distance, tmul, zip_with. cbn [shape data].
  rewrite shape_eqb_refl. cbn [negb bind].
  unfold sum_last, sum_trailing, ndim. cbn [shape data length Nat.ltb Nat.leb bind].
  unfold select_col. cbn [shape data].
  destruct (Nat.leb_spec d 0) as [H0|_]; [lia|]. cbn [bind].
  cbn [Nat.sub firstn skipn numel fold_right]. rewrite !Nat.mul_1_r.
  rewrite sum_chunks_sq.
  assert (Hcol : flat_map (fun b => chunk 1 (b * d + 0) dt) (seq 0 N)
                 = map (fun b => nth 0 (chunk d b dt) 0) (seq 0 N)).
  { rewrite <- flat_map_singleton. apply flat_map_ext_on.
    intros b Hb. apply in_seq in Hb. rewrite Nat.add_0_r.
    rewrite (chunk_one _ _ 0), nth_chunk by nia. now rewrite Nat.add_0_r. }
  rewrite Hcol. clear Hcol. unfold tmap. cbn [shape data].
  set (mask := map (fun x => Qneb x (-1000)) _).
  assert (Hmask : Forall (fun b => b = true) mask).
  { subst mask. rewrite !Forall_map. apply Forall_forall. intros b Hb.
    apply in_seq in Hb. unfold Qneb. rewrite Qeq_bool_false; [reflexivity|].
    apply Hvalid. lia. }
  assert (Hlen : length mask = N).
  { subst mask. now rewrite !length_map, length_seq. }
  rewrite (count_true_all_true _ Hmask), Hlen.
  destruct N as [|N'].
  - cbn [Nat.eqb]. exists 0. destruct return_count; split; reflexivity.
  - cbn [Nat.eqb].
    unfold masked_select. cbn [shape data]. rewrite shape_eqb_refl.
    rewrite select_all; [|exact Hmask|now rewrite Hlen, !length_map, length_seq].
    cbn [bind]. unfold tmean. cbn [data].
    rewrite !length_map, length_seq.
    destruct (fdiv_zero_num
                (Qsum (map (fun x => 1 - x ^ 2)
                         (map (fun i => dot (chunk d i dt) (chunk d i dt)) (seq 0 (S N')))))
                (S N')) as (v & Hv & Hv0).
    + apply Qsum_all_zero. rewrite !Forall_map. apply Forall_forall.
      intros i Hi. apply in_seq in Hi. apply Qsq_one. apply Hunit. lia.
    + lia.
    + rewrite Hv. cbn [bind]. exists v. destruct return_count; split; auto.
Qed.

Lemma geodesic_distance_self_unit_witness :
  exists gd,
    geodesic_distance (mkTensor [2; 4]%nat [1; 0; 0; 0; 0; 3 # 5; 4 # 5; 0])
                      (mkTensor [2; 4]%nat [1; 0; 0; 0; 0; 3 # 5; 4 # 5; 0]) true
    = Ok (GDCount gd 2) /\ gd == 0.
Proof.
  apply (geodesic_distance_self_unit
           (mkTensor [2; 4]%nat [1; 0; 0; 0; 0; 3 # 5; 4 # 5; 0]) 2 4 true).
  - reflexivity.
  - reflexivity.
  - lia.
  - intros i Hi.
    destruct i as [|[|i]]; [vm_compute; discriminate | vm_compute; discriminate | lia].
  - intros i Hi.
    destruct i as [|[|i]]; [vm_compute; reflexivity | vm_compute; reflexivity | lia].
Defined.

(** ** agreement_score *)

Lemma sequence_map_ok {A B : Type} (f : A -> result B) (g : A -> B) (l : list A) :
  (forall a, In a l -> f a = Ok (g a)) -> sequence (map f l) = Ok (map g l).
Proof.
  induction l as [|a l IH]; intros H; simpl; [reflexivity|].
  rewrite (H a (or_introl eq_refl)), IH; [reflexivity|].
  intros b Hb. apply H. now right.
Qed.

Lemma fdiv_ok (x y : Q) : ~ y == 0 -> fdiv x y = Ok (x / y).
Proof. intros H. unfold fdiv. now rewrite Qeq_bool_false. Qed.

Lemma nth_all_zero (l : list Q) (k : nat) :
  Forall (fun x => x == 0) l -> nth k l 0 == 0.
Proof.
  intros H. revert k. induction H as [|x l Hx _ IH]; intros [|k]; simpl;
    try reflexivity; auto.
Qed.

Lemma map2_mult_zero_l (l1 l2 : list Q) :
  Forall (fun x => x == 0) l1 -> Forall (fun x => x == 0) (map2 Qmult l1 l2).
Proof.
  intros H. revert l2. unfold map2.
  induction H as [|x l Hx _ IH]; intros [|y l2]; simpl; constructor.
  - simpl. rewrite Hx. ring.
  - apply IH.
Qed.

(** The single-hypothesis product: one entry per batch element, the inner
    product of its hypothesis with itself. *)
Lemma pairwise_dot_single (B d : nat) (dt : list Q) :
  pairwise_dot (mkTensor [B; 1; d]%nat dt)
  = Ok (mkTensor [B; 1; 1]%nat (map (fun b => dot (chunk d b dt) (chunk d b dt)) (seq 0 B))).
Proof.
  unfold pairwise_dot. cbn [shape data]. do 2 f_equal.
  rewrite <- flat_map_singleton. apply flat_map_ext_on. intros b _.
  cbn [seq flat_map map app]. now rewrite Nat.mul_1_r, Nat.add_0_r.
Qed.

(** In exact arithmetic: with one hypothesis per batch element whose inner product
    with itself is 1 (a unit quaternion, say), a confidence of any value and a
    temperature other than 0, [agreement_score] returns a tensor over the
    batch that is zero at every position. *)
Theorem agreement_score_single_unit (exp : Q -> Q)
    (iou_or_miou rotations : tensor Q) (temperature : Q) (B d : nat) :
  positive exp ->
  ~ temperature == 0 ->
  shape iou_or_miou = [B; 1]%nat ->
  shape rotations = [B; 1; d]%nat ->
  (forall b, (b < B)%nat -> dot (chunk d b (data rotations)) (chunk d b (data rotations)) == 1) ->
  exists v_agr, agreement_score exp iou_or_miou rotations temperature = Ok v_agr
                /\ shape v_agr = [B]
                /\ length (data v_agr) = B
                /\ Forall (fun x => x == 0) (data v_agr).
Proof.
  intros Hexp Ht Hsi Hsr Hunit.
  destruct iou_or_miou as [si di], rotations as [sr dr]. cbn [shape data] in *. subst si sr.
  unfold agreement_score, tdiv_scalar. cbn [shape data].
  rewrite (sequence_map_ok _ (fun v => v / temperature)) by (intros; now apply fdiv_ok).
  cbn [bind bind_nf].
  unfold softmax_dim1. cbn [shape data numel fold_right].
  rewrite (sequence_map_ok _ (fun i => exp (nth i (map (fun v => v / temperature) di) 0)
             / Qsum (map (fun j => exp (nth (((i / (1 * 1)) * 1 + j) * 1 + i mod 1)
                                            (map (fun v => v / temperature) di) 0))
                         (seq 0 1)))).
  2:{ intros i _. apply fdiv_ok. cbn [seq map Qsum fold_right].
      match goal with |- ~ exp ?a + 0 == 0 => pose proof (Hexp a) end. lra. }
  cbn [bind]. rewrite pairwise_dot_single. cbn [bind].
  unfold unsqueeze_before_last, unsqueeze_last. cbn [shape data removelast last app bind].
  unfold tmul, zip_with. cbn [shape data]. rewrite shape_eqb_refl. cbn [bind shape data].
  unfold tmap. cbn [shape data]. rewrite shape_eqb_refl. cbn [bind shape data].
  unfold sum_middle. cbn [shape data length Nat.ltb Nat.leb firstn skipn numel fold_right].
  eexists. split; [reflexivity|]. cbn [shape data].
  rewrite length_map, length_seq, Nat.mul_1_r.
  repeat split.
  rewrite Forall_map. apply Forall_forall. intros i _.
  apply Qsum_all_zero. rewrite Forall_map. apply Forall_forall. intros j _.
  apply nth_all_zero. apply map2_mult_zero_l.
  rewrite !Forall_map. apply Forall_forall. intros b Hb. apply in_seq in Hb.
  apply Qsq_one. apply Hunit. lia.
Qed.


Lemma nth_map_seq {A : Type} (f : nat -> A) (n i : nat) (dflt : A) :
  (i < n)%nat -> nth i (map f (seq 0 n)) dflt = f i.
Proof.
  intros H. rewrite (nth_indep _ dflt (f 0%nat)) by now rewrite length_map, length_seq.
  rewrite map_nth, seq_nth by exact H. reflexivity.
Qed.

Lemma Forall2_map_seq {A B : Type} (R : A -> B -> Prop) (f : nat -> A) (g : nat -> B)
    (n : nat) :
  (forall i, (i < n)%nat -> R (f i) (g i)) ->
  Forall2 R (map f (seq 0 n)) (map g (seq 0 n)).
Proof.
  intros H. assert (G : forall s, (forall i, In i s -> (i < n)%nat) ->
                                  Forall2 R (map f s) (map g s)).
  { induction s as [|a s IH]; intros Hs; simpl; constructor.
    - apply H, Hs. now left.
    - apply IH. intros i Hi. apply Hs. now right. }
  apply G. intros i Hi. apply in_seq in Hi. lia.
Qed.


Lemma exp_standin_positive : positive exp_standin.
Proof. intros x. unfold exp_standin. nra. Qed.

Lemma agreement_score_single_unit_witness :
  exists v_agr,
    agreement_score exp_standin
      (mkTensor [2; 1]%nat [7 # 10; 1 # 5])
      (mkTensor [2; 1; 4]%nat [1; 0; 0; 0; 0; 3 # 5; 4 # 5; 0]) (1 # 100) = Ok v_agr
    /\ shape v_agr = [2%nat]
    /\ length (data v_agr) = 2%nat
    /\ Forall (fun x => x == 0) (data v_agr).
Proof.
  apply (agreement_score_single_unit exp_standin
           (mkTensor [2; 1]%nat [7 # 10; 1 # 5])
           (mkTensor [2; 1; 4]%nat [1; 0; 0; 0; 0; 3 # 5; 4 # 5; 0]) (1 # 100) 2 4).
  - exact exp_standin_positive.
  - vm_compute. discriminate.
  - reflexivity.
  - reflexivity.
  - intros b Hb.
    destruct b as [|[|b]]; [vm_compute; reflexivity | vm_compute; reflexivity | lia].
Defined.


(** ** loss_flat *)

Lemma firstn_plus {A : Type} (a b : nat) (l : list A) :
  firstn (a + b) l = firstn a l ++ firstn b (skipn a l).
Proof.
  revert l. induction a as [|a IH]; intros l; [reflexivity|].
  destruct l as [|x l]; simpl.
  - now rewrite firstn_nil.
  - now rewrite IH.
Qed.

(** A block of [k + k] entries is two consecutive blocks of [k]. *)
Lemma chunk_double {A : Type} (k b : nat) (l : list A) :
  chunk (k + k) b l = chunk k (2 * b) l ++ chunk k (2 * b + 1) l.
Proof.
  unfold chunk. rewrite firstn_plus, skipn_skipn. do 3 f_equal; lia.
Qed.

Lemma chunk_succ {A : Type} (k i : nat) (l : list A) :
  chunk k (S i) l = chunk k i (skipn k l).
Proof. unfold chunk. rewrite skipn_skipn. do 2 f_equal. lia. Qed.

(** A list of [n] blocks of [k] entries is the concatenation of its blocks. *)
Lemma chunks_concat {A : Type} (k n : nat) (l : list A) :
  length l = (n * k)%nat -> flat_map (fun i => chunk k i l) (seq 0 n) = l.
Proof.
  revert l. induction n as [|n IH]; intros l Hl.
  - destruct l; [reflexivity|discriminate].
  - cbn [seq flat_map]. rewrite <- seq_shift, flat_map_concat_map, map_map.
    rewrite <- flat_map_concat_map.
    rewrite (flat_map_ext_on _ (fun i => chunk k i (skipn k l))) by (intros; apply chunk_succ).
    rewrite IH by (rewrite length_skipn, Hl; simpl; lia).
    unfold chunk. simpl. apply firstn_skipn.
Qed.

Lemma sq_minus_one (c : Q) : c == 1 -> (c - 1) ^ 2 == 0.
Proof. intros E. simpl. rewrite E. ring. Qed.

(** When both faces of every batch element carry the same normal, gathering
    the neighbours' normals gives the normals back. *)
Lemma index_dim1_two_faces (B : nat) (dn : list Q) :
  length dn = (B * (2 * (3 * 1)))%nat ->
  (forall b, (b < B)%nat -> chunk 3 (2 * b) dn = chunk 3 (2 * b + 1) dn) ->
  index_dim1 (mkTensor [B; 2; 3]%nat dn) (mkTensor [2]%nat [1; 0]%Z)
  = Ok (mkTensor [B; 2; 3]%nat dn).
Proof.
  intros Hl Hsame. unfold index_dim1. cbn [shape data numel fold_right].
  destruct B as [|B'].
  { destruct dn; [reflexivity|discriminate]. }
  set (B := S B') in *.
  replace (B * (3 * 1) =? 0)%nat with false by (symmetry; apply Nat.eqb_neq; lia).
  cbn [traverse norm_index].
  cbn -[chunk flat_map seq]. do 2 f_equal.
  change (Pos.to_nat 1) with 1%nat.
  etransitivity; [|apply (chunks_concat 6 B dn); lia].
  apply flat_map_ext_on. intros b Hb. apply in_seq in Hb.
  cbn [flat_map]. rewrite app_nil_r.
  change 6%nat with (3 + 3)%nat. rewrite chunk_double.
  replace (b * 2 + 1)%nat with (2 * b + 1)%nat by lia.
  replace (b * 2 + 0)%nat with (2 * b)%nat by lia.
  now rewrite <- (Hsame b) by lia.
Qed.

Lemma loss_flat_edge_two_faces (mesh : Mesh) (norms : tensor Q) (B i : nat) :
  ff mesh = ff_two_faces ->
  shape norms = [B; 2; 3]%nat ->
  wf norms ->
  (0 < B)%nat ->
  (i < 3)%nat ->
  (forall b, (b < B)%nat ->
     chunk 3 (2 * b) (data norms) = chunk 3 (2 * b + 1) (data norms)) ->
  (forall f, (f < 2 * B)%nat ->
     dot (chunk 3 f (data norms)) (chunk 3 f (data norms)) == 1) ->
  exists m, loss_flat_edge mesh norms i = Ok m /\ m == 0.
Proof.
  intros Hff Hs Hwf HB Hi Hsame Hunit.
  destruct norms as [sn dn]. cbn [shape data] in *. subst sn.
  unfold wf in Hwf. cbn [shape data numel fold_right] in Hwf.
  unfold loss_flat_edge. rewrite Hff.
  assert (Hidx : select_col i ff_two_faces = Ok (mkTensor [2]%nat [1; 0]%Z)).
  { destruct i as [|[|[|i]]]; try reflexivity. lia. }
  rewrite Hidx. cbn [bind].
  rewrite (index_dim1_two_faces B dn Hwf Hsame). cbn [bind].
  unfold tmul, zip_with. cbn [shape data]. rewrite shape_eqb_refl. cbn [bind].
  unfold sum_last, sum_trailing, ndim.
  cbn [shape data length Nat.ltb Nat.leb Nat.sub firstn skipn numel fold_right bind].
  rewrite !Nat.mul_1_r. rewrite sum_chunks_sq.
  unfold tmean, tmap. cbn [shape data]. rewrite !length_map, length_seq.
  apply fdiv_zero_num; [|lia].
  apply Qsum_all_zero. rewrite !Forall_map. apply Forall_forall. intros f Hf.
  apply in_seq in Hf. apply sq_minus_one. apply Hunit. lia.
Qed.

(** In exact arithmetic: for a mesh of two triangles that are each other's neighbour across
    every edge, and normals of shape (batch, 2, 3) over a batch that is not
    empty, in which both faces of a batch element carry the same unit normal,
    [loss_flat] returns 0. *)
Theorem loss_flat_two_faces (mesh : Mesh) (norms : tensor Q) (B : nat) :
  shape (faces mesh) = [2; 3]%nat ->
  ff mesh = ff_two_faces ->
  shape norms = [B; 2; 3]%nat ->
  wf norms ->
  (0 < B)%nat ->
  (forall b, (b < B)%nat ->
     chunk 3 (2 * b) (data norms) = chunk 3 (2 * b + 1) (data norms)) ->
  (forall f, (f < 2 * B)%nat ->
     dot (chunk 3 f (data norms)) (chunk 3 f (data norms)) == 1) ->
  exists v, loss_flat mesh norms = Ok v /\ v == 0.
Proof.
  intros Hfaces Hff Hs Hwf HB Hsame Hunit.
  destruct (loss_flat_edge_two_faces mesh norms B 0 Hff Hs Hwf HB) as (m0 & E0 & Z0);
    auto; try lia.
  destruct (loss_flat_edge_two_faces mesh norms B 1 Hff Hs Hwf HB) as (m1 & E1 & Z1);
    auto; try lia.
  destruct (loss_flat_edge_two_faces mesh norms B 2 Hff Hs Hwf HB) as (m2 & E2 & Z2);
    auto; try lia.
  unfold loss_flat. cbn [fold_left bind_nf]. rewrite E0. cbn [bind bind_nf].
  rewrite E1. cbn [bind bind_nf]. rewrite E2. cbn [bind bind_nf]. rewrite Hfaces.
  eexists. split; [reflexivity|]. rewrite Z0, Z1, Z2. reflexivity.
Qed.

Lemma loss_flat_two_faces_witness :
  exists v,
    loss_flat (mkMesh (mkTensor [2; 3]%nat [0; 1; 2; 2; 1; 0]%Z) ff_two_faces)
              (mkTensor [1; 2; 3]%nat [3 # 5; 0; 4 # 5; 3 # 5; 0; 4 # 5]) = Ok v
    /\ v == 0.
Proof.
  apply (loss_flat_two_faces
           (mkMesh (mkTensor [2; 3]%nat [0; 1; 2; 2; 1; 0]%Z) ff_two_faces)
           (mkTensor [1; 2; 3]%nat [3 # 5; 0; 4 # 5; 3 # 5; 0; 4 # 5]) 1).
  - reflexivity.
  - reflexivity.
  - reflexivity.
  - reflexivity.
  - lia.
  - intros b Hb. destruct b as [|b]; [reflexivity | lia].
  - intros f Hf.
    destruct f as [|[|f]]; [vm_compute; reflexivity | vm_compute; reflexivity | lia].
Defined.

(** ** LaplacianLoss *)

(** The product of a square Laplacian with an input whose first dimension has
    size 1 has first dimension 1 again. *)
Lemma matmul_shape_batch1 (l x y : tensor Q) (V : nat) (rest : list nat) :
  shape l = [V; V] ->
  shape x = 1%nat :: rest ->
  matmul l x = Ok y ->
  shape y = [1%nat] \/ exists a tl, shape y = 1%nat :: a :: tl.
Proof.
  intros Hl Hx Hy. unfold matmul in Hy. rewrite Hl in Hy.
  assert (Hrev : shape x = rev (rev (shape x))) by now rewrite rev_involutive.
  destruct (rev (shape x)) as [|k [|c' rpre]] eqn:E.
  - discriminate.
  - cbn [rev app] in Hrev. rewrite Hx in Hrev. injection Hrev as <- _.
    destruct (1 =? V)%nat eqn:EV; cbn [negb] in Hy; [|discriminate].
    apply Nat.eqb_eq in EV. subst V. injection Hy as <-. now left.
  - destruct (c' =? V)%nat eqn:EV; cbn [negb] in Hy; [|discriminate].
    apply Nat.eqb_eq in EV. subst c'. injection Hy as <-. cbn [shape].
    right. cbn [rev] in Hrev. rewrite <- app_assoc in Hrev. cbn [app] in Hrev.
    rewrite Hx in Hrev. destruct (rev rpre) as [|p pre].
    + cbn [app] in Hrev |- *. injection Hrev as E1 _. subst V. eauto.
    + cbn [app] in Hrev |- *. injection Hrev as E1 _. subst p.
      destruct pre as [|a pre]; cbn [app]; eauto.
Qed.

(** After the product, the sum over the dimensions other than the first
    leaves one entry. *)
Lemma forward_sum_single (y : tensor Q) :
  shape y = [1%nat] \/ (exists a tl, shape y = 1%nat :: a :: tl) ->
  exists sh v,
    (if (ndim y =? 1)%nat then sum_trailing 1 (tmap (fun v => v ^ 2) y)
     else sum_trailing (ndim y - 1) (tmap (fun v => v ^ 2) y))
    = Ok (mkTensor sh [v]).
Proof.
  intros [H|(a & tl & H)]; unfold ndim, sum_trailing, tmap, ndim; cbn [shape data]; rewrite H.
  - cbn. eauto.
  - cbn [length Nat.eqb].
    replace (S (S (length tl)) - 1)%nat with (S (length tl)) by lia.
    destruct (Nat.ltb_spec (S (S (length tl))) (S (length tl))) as [?|_]; [lia|].
    replace (S (S (length tl)) - S (length tl))%nat with 1%nat by lia.
    cbn [firstn numel fold_right Nat.mul Nat.add seq map]. eauto.
Qed.

(** C7.  For a square Laplacian and an input whose batch dimension has size 1,
    [forward] with [average=False] and with [average=True] yield the same
    value: a single entry, the sum of the squares of the product, or the same
    exception when the product is rejected. *)
Theorem forward_average_batch1 (l x : tensor Q) (V : nat) (rest : list nat) :
  shape l = [V; V] ->
  shape x = 1%nat :: rest ->
  same_value (forward (mkLaplacianLoss false l) x) (forward (mkLaplacianLoss true l) x).
Proof.
  intros Hl Hx. unfold forward. rewrite Hx. cbn [laplacian average].
  destruct (matmul l x) as [y|e|] eqn:Hy; cbn [bind]; [|reflexivity|].
  - destruct (forward_sum_single y (matmul_shape_batch1 l x y V rest Hl Hx Hy))
      as (sh & v & ->).
    cbn [bind]. unfold tsum, fdiv. cbn [data Qsum fold_right].
    change (Qeq_bool (Qnat 1) 0) with false. cbn [bind same_value data].
    constructor; [|constructor]. unfold Qnat. simpl inject_Z. field.
  - unfold matmul in Hy. rewrite Hl in Hy.
    destruct (rev (shape x)) as [|k [|c' rpre]]; try discriminate;
      match type of Hy with (if ?c then _ else _) = _ => destruct c end; discriminate.
Qed.

Lemma forward_average_batch1_witness :
  same_value
    (forward (mkLaplacianLoss false (mkTensor [2; 2]%nat [1; -1; -1; 1]))
             (mkTensor [1; 2; 3]%nat [1; 2; 3; 4; 6; 8]))
    (forward (mkLaplacianLoss true (mkTensor [2; 2]%nat [1; -1; -1; 1]))
             (mkTensor [1; 2; 3]%nat [1; 2; 3; 4; 6; 8])).
Proof.
  apply (forward_average_batch1 (mkTensor [2; 2]%nat [1; -1; -1; 1])
           (mkTensor [1; 2; 3]%nat [1; 2; 3; 4; 6; 8]) 2 [2; 3]%nat).
  - reflexivity.
  - reflexivity.
Defined.

(** On that input both calls return: the per-sample vector [[100]] and the
    scalar [100]. *)
Example forward_average_batch1_values :
  forward (mkLaplacianLoss false (mkTensor [2; 2]%nat [1; -1; -1; 1]))
          (mkTensor [1; 2; 3]%nat [1; 2; 3; 4; 6; 8])
  = Ok (mkTensor [1%nat] [100])
  /\ exists v, forward (mkLaplacianLoss true (mkTensor [2; 2]%nat [1; -1; -1; 1]))
                       (mkTensor [1; 2; 3]%nat [1; 2; 3; 4; 6; 8])
               = Ok (mkTensor [] [v]) /\ v == 100.
Proof.
  split; [vm_compute; reflexivity|].
  eexists. split; [vm_compute; reflexivity|]. reflexivity.
Qed.

(** ** mean_iou_noreduce and mean_miou_noreduce *)

Lemma Qle_bool_false_lt (a b : Q) : Qle_bool a b = false -> b < a.
Proof.
  intros H. apply Qnot_le_lt. intros L. apply Qle_bool_iff in L. congruence.
Qed.

Ltac qle_cases :=
  repeat match goal with
         | |- context [Qle_bool ?a ?b] =>
             let E := fresh "E" in
             destruct (Qle_bool a b) eqn:E;
             [apply Qle_bool_iff in E | apply Qle_bool_false_lt in E]
         end.

Lemma binary_and_min (x y : Q) :
  is_binary x -> is_binary y ->
  bool_to_Q (andb (Qgtb x half) (Qgtb y half)) == Qminb x y.
Proof.
  unfold is_binary, Qgtb, Qminb, half. intros [Hx|Hx] [Hy|Hy]; qle_cases;
    cbn [negb andb bool_to_Q]; lra.
Qed.

Lemma binary_or_max (x y : Q) :
  is_binary x -> is_binary y ->
  bool_to_Q (orb (Qgtb x half) (Qgtb y half)) == Qmaxb x y.
Proof.
  unfold is_binary, Qgtb, Qmaxb, half. intros [Hx|Hx] [Hy|Hy]; qle_cases;
    cbn [negb orb bool_to_Q]; lra.
Qed.

Lemma binary_masks_and (l1 l2 : list Q) :
  Forall is_binary l1 -> Forall is_binary l2 ->
  Forall2 Qeq (map bool_to_Q (map2 andb (map (fun x => Qgtb x half) l1)
                                        (map (fun x => Qgtb x half) l2)))
              (map2 Qminb l1 l2).
Proof.
  intros H1. revert l2. unfold map2.
  induction H1 as [|x l1 Hx _ IH]; intros l2 H2; [constructor|].
  destruct H2 as [|y l2 Hy H2]; [constructor|].
  cbn [map combine fst snd]. constructor; [now apply binary_and_min|now apply IH].
Qed.

Lemma binary_masks_or (l1 l2 : list Q) :
  Forall is_binary l1 -> Forall is_binary l2 ->
  Forall2 Qeq (map bool_to_Q (map2 orb (map (fun x => Qgtb x half) l1)
                                       (map (fun x => Qgtb x half) l2)))
              (map2 Qmaxb l1 l2).
Proof.
  intros H1. revert l2. unfold map2.
  induction H1 as [|x l1 Hx _ IH]; intros l2 H2; [constructor|].
  destruct H2 as [|y l2 Hy H2]; [constructor|].
  cbn [map combine fst snd]. constructor; [now apply binary_or_max|now apply IH].
Qed.

Lemma Forall2_firstn {A B : Type} (R : A -> B -> Prop) (n : nat) l1 l2 :
  Forall2 R l1 l2 -> Forall2 R (firstn n l1) (firstn n l2).
Proof.
  intros H. revert n. induction H; intros [|n]; simpl; constructor; auto.
Qed.

Lemma Forall2_skipn {A B : Type} (R : A -> B -> Prop) (n : nat) l1 l2 :
  Forall2 R l1 l2 -> Forall2 R (skipn n l1) (skipn n l2).
Proof.
  intros H. revert n. induction H; intros [|n]; simpl; try constructor; auto.
Qed.

Lemma Qsum_Forall2 (l1 l2 : list Q) : Forall2 Qeq l1 l2 -> Qsum l1 == Qsum l2.
Proof.
  induction 1 as [|x y l1 l2 Hxy _ IH]; simpl; [reflexivity|]. now rewrite Hxy, IH.
Qed.

Lemma Qsum_chunk_Forall2 (k i : nat) (l1 l2 : list Q) :
  Forall2 Qeq l1 l2 -> Qsum (chunk k i l1) == Qsum (chunk k i l2).
Proof.
  intros H. apply Qsum_Forall2. unfold chunk. now apply Forall2_firstn, Forall2_skipn.
Qed.

Lemma Qsum_nonneg (l : list Q) : Forall (fun x => 0 <= x) l -> 0 <= Qsum l.
Proof. induction 1 as [|x l Hx _ IH]; simpl; lra. Qed.

Lemma Forall_firstn {A : Type} (P : A -> Prop) (n : nat) (l : list A) :
  Forall P l -> Forall P (firstn n l).
Proof. intros H. revert n. induction H; intros [|n]; simpl; constructor; auto. Qed.

Lemma Forall_skipn {A : Type} (P : A -> Prop) (n : nat) (l : list A) :
  Forall P l -> Forall P (skipn n l).
Proof. intros H. revert n. induction H; intros [|n]; simpl; try constructor; auto. Qed.

Lemma Forall_chunk {A : Type} (P : A -> Prop) (k i : nat) (l : list A) :
  Forall P l -> Forall P (chunk k i l).
Proof. intros H. unfold chunk. now apply Forall_firstn, Forall_skipn. Qed.

Lemma map2_map_same {A B C D : Type} (h : B -> C -> D) (f : A -> B) (g : A -> C)
    (s : list A) :
  map2 h (map f s) (map g s) = map (fun i => h (f i) (g i)) s.
Proof. unfold map2. induction s; simpl; congruence. Qed.

Lemma numel_app (a b : list nat) : numel (a ++ b) = (numel a * numel b)%nat.
Proof. induction a as [|x a IH]; simpl; [lia|]. rewrite IH. lia. Qed.

(** Division of tensors of one shape with no zero denominator. *)
Lemma tdiv_ok (a b : tensor Q) :
  shape a = shape b ->
  Forall (fun y => ~ y == 0) (data b) ->
  tdiv a b = Ok (mkTensor (shape a) (map2 Qdiv (data a) (data b))).
Proof.
  intros Hs Hnz. unfold tdiv. rewrite (zip_with_same_shape _ _ _ _ _ Hs).
  cbn [bind shape data]. unfold map2 at 1. rewrite map_map.
  rewrite (sequence_map_ok _ (fun p => fst p / snd p)); [reflexivity|].
  intros [x y] Hin. cbn [fst snd]. apply fdiv_ok.
  apply in_combine_r in Hin. rewrite Forall_forall in Hnz. now apply Hnz.
Qed.

(** Summing the trailing dimensions [tl] of a tensor of shape [pre ++ tl]. *)
Lemma sum_trailing_app (pre tl : list nat) (d : list Q) :
  sum_trailing (length tl) (mkTensor (pre ++ tl) d)
  = Ok (mkTensor pre (map (fun i => Qsum (chunk (numel tl) i d)) (seq 0 (numel pre)))).
Proof.
  unfold sum_trailing, ndim. cbn [shape data]. rewrite length_app.
  destruct (Nat.ltb_spec (length pre + length tl) (length tl)) as [?|_]; [lia|].
  replace (length pre + length tl - length tl)%nat with (length pre + 0)%nat by lia.
  rewrite firstn_app_2, skipn_app, Nat.add_0_r, skipn_all, Nat.sub_diag. cbn [firstn skipn app].
  now rewrite app_nil_r.
Qed.

Lemma sum_last_app (pre : list nat) (c : nat) (d : list Q) :
  sum_last (mkTensor (pre ++ [c]) d)
  = Ok (mkTensor pre (map (fun i => Qsum (chunk (numel [c]) i d)) (seq 0 (numel pre)))).
Proof.
  unfold sum_last. cbn [shape]. rewrite <- (sum_trailing_app pre [c] d).
  destruct pre; reflexivity.
Qed.

Lemma Qsum_chunk_one_map_seq (f : nat -> Q) (n j : nat) :
  (j < n)%nat -> Qsum (chunk 1 j (map f (seq 0 n))) == f j.
Proof.
  intros H. rewrite (chunk_one _ _ 0) by now rewrite length_map, length_seq.
  rewrite nth_map_seq by exact H. simpl. ring.
Qed.

Lemma Qmaxb_binary_nonneg (l1 l2 : list Q) :
  Forall is_binary l1 -> Forall is_binary l2 -> Forall (fun x => 0 <= x) (map2 Qmaxb l1 l2).
Proof.
  intros H1. revert l2. unfold map2.
  induction H1 as [|x l1 Hx _ IH]; intros l2 H2; [constructor|].
  destruct H2 as [|y l2 Hy H2]; [constructor|].
  cbn [map combine fst snd]. constructor; [|now apply IH].
  unfold Qmaxb, is_binary in *. destruct Hx, Hy; qle_cases; lra.
Qed.

Lemma bool_to_Q_nonneg (l : list bool) : Forall (fun x => 0 <= x) (map bool_to_Q l).
Proof. rewrite Forall_map. apply Forall_forall. intros [|] _; simpl; lra. Qed.

Lemma eps6_pos : 0 < eps6.
Proof. reflexivity. Qed.

(** In exact arithmetic: for 0/1 masks [pred] and [target] of one shape (..., 1, H, W), with a
    single channel, [mean_miou_noreduce(pred, target, balanced=False)] and
    [mean_iou_noreduce(pred, target)] both return, with the same entries
    (the second keeps the channel dimension of size 1): for each leading
    position, the sum of the elementwise minima divided by the sum of the
    elementwise maxima plus [1e-6]. *)
Theorem mean_miou_noreduce_unbalanced_binary
    (pred target : tensor Q) (pre : list nat) (H W : nat) :
  shape pred = pre ++ [1; H; W]%nat ->
  shape target = pre ++ [1; H; W]%nat ->
  Forall is_binary (data pred) ->
  Forall is_binary (data target) ->
  exists miou iou,
    mean_miou_noreduce pred target false = Ok miou
    /\ mean_iou_noreduce pred target = Ok iou
    /\ shape miou = pre
    /\ shape iou = pre ++ [1%nat]
    /\ Forall2 Qeq (data miou) (data iou)
    /\ Forall2 Qeq (data miou)
         (map (fun j => Qsum (chunk (numel [H; W]) j (map2 Qminb (data pred) (data target)))
                        / (Qsum (chunk (numel [H; W]) j
                                   (map2 Qmaxb (data pred) (data target))) + eps6))
              (seq 0 (numel pre))).
Proof.
  intros Hsp Hst Hbp Hbt.
  destruct pred as [sp dp], target as [st dt]. cbn [shape data] in *. subst sp st.
  pose proof eps6_pos as Heps.
  pose proof (Qmaxb_binary_nonneg dp dt Hbp Hbt) as Hmax.
  set (k := numel [H; W]).
  (* mean_miou_noreduce *)
  unfold mean_miou_noreduce, sum_last2.
  rewrite !zip_with_same_shape by reflexivity. cbn [bind shape data].
  replace (pre ++ [1; H; W])%nat with ((pre ++ [1]) ++ [H; W])%nat
    by now rewrite <- app_assoc.
  rewrite !(sum_trailing_app (pre ++ [1%nat]) [H; W]). cbn [bind].
  rewrite !sum_last_app. cbn [bind]. fold k.
  rewrite numel_app. cbn [numel fold_right]. rewrite !Nat.mul_1_r.
  rewrite tdiv_ok; cbn [shape data tmap]; [|reflexivity|].
  2:{ rewrite !Forall_map. apply Forall_forall. intros j Hj. apply in_seq in Hj.
      rewrite Qsum_chunk_one_map_seq by lia.
      pose proof (Qsum_nonneg _ (Forall_chunk _ k j _ Hmax)). lra. }
  (* mean_iou_noreduce *)
  unfold mean_iou_noreduce, sum_last2, tmap. cbn [shape data].
  rewrite !zip_with_same_shape by reflexivity. cbn [bind shape data].
  rewrite !(sum_trailing_app (pre ++ [1%nat]) [H; W]). cbn [bind]. fold k.
  rewrite numel_app. cbn [numel fold_right]. rewrite !Nat.mul_1_r.
  rewrite tdiv_ok; cbn [shape data tmap]; [|reflexivity|].
  2:{ rewrite !Forall_map. apply Forall_forall. intros j _.
      pose proof (Qsum_nonneg _ (Forall_chunk _ k j _ (bool_to_Q_nonneg
        (map2 orb (map (fun x => Qgtb x half) dp) (map (fun x => Qgtb x half) dt))))).
      lra. }
  do 2 eexists. split; [reflexivity|]. split; [reflexivity|]. cbn [shape data].
  split; [reflexivity|]. split; [reflexivity|].
  rewrite !map_map, !map2_map_same.
  split; apply Forall2_map_seq; intros j Hj; rewrite !Qsum_chunk_one_map_seq by lia.
  - rewrite (Qsum_chunk_Forall2 k j _ _ (binary_masks_and dp dt Hbp Hbt)).
    rewrite (Qsum_chunk_Forall2 k j _ _ (binary_masks_or dp dt Hbp Hbt)).
    reflexivity.
  - reflexivity.
Qed.

Lemma mean_miou_noreduce_unbalanced_binary_witness :
  exists miou iou,
    mean_miou_noreduce (mkTensor [1; 2; 2]%nat [1; 0; 1; 1])
                       (mkTensor [1; 2; 2]%nat [1; 1; 0; 1]) false = Ok miou
    /\ mean_iou_noreduce (mkTensor [1; 2; 2]%nat [1; 0; 1; 1])
                         (mkTensor [1; 2; 2]%nat [1; 1; 0; 1]) = Ok iou
    /\ shape miou = []
    /\ shape iou = [] ++ [1%nat]
    /\ Forall2 Qeq (data miou) (data iou)
    /\ Forall2 Qeq (data miou)
         (map (fun j => Qsum (chunk (numel [2; 2]%nat) j
                                (map2 Qminb [1; 0; 1; 1] [1; 1; 0; 1]))
                        / (Qsum (chunk (numel [2; 2]%nat) j
                                   (map2 Qmaxb [1; 0; 1; 1] [1; 1; 0; 1])) + eps6))
              (seq 0 (numel []))).
Proof.
  apply (mean_miou_noreduce_unbalanced_binary
           (mkTensor [1; 2; 2]%nat [1; 0; 1; 1]) (mkTensor [1; 2; 2]%nat [1; 1; 0; 1])
           [] 2 2).
  - reflexivity.
  - reflexivity.
  - repeat (apply Forall_cons; [(left; reflexivity) || (right; reflexivity)|]).
    apply Forall_nil.
  - repeat (apply Forall_cons; [(left; reflexivity) || (right; reflexivity)|]).
    apply Forall_nil.
Defined.

(** ** GANLoss *)

(** On that input the generator's loss is [-(mean * weight) = -8]. *)
Example loss_hinge_generator_value :
  exists v, fneg (mean (mkTensor [1; 1; 1; 2]%nat [3; 5]) None (Some 2)) = Ok v /\ v == -8.
Proof. eexists. split; [vm_compute; reflexivity|reflexivity]. Qed.

(** C9.  In the modes 'ls', 'original' and 'w', [loss] does not read [mask]
    and [weight]: two calls on the same instance that differ in them only
    return the same value and leave the same instance. *)
Theorem loss_ignores_mask_weight (bce : tensor Q -> tensor Q -> result Q) (self : GANLoss)
    (input : tensor Q) (target_is_real for_discriminator : bool)
    (mask1 mask2 : option mask_arg) (weight1 weight2 : option Q) :
  gan_mode self = "ls"%string \/ gan_mode self = "original"%string
  \/ gan_mode self = "w"%string ->
  loss bce input target_is_real for_discriminator mask1 weight1 self
  = loss bce input target_is_real for_discriminator mask2 weight2 self.
Proof.
  intros [Hm|[Hm|Hm]]; unfold loss; rewrite Hm; reflexivity.
Qed.

Lemma loss_ignores_mask_weight_witness :
  loss mse_loss (mkTensor [1; 1; 1; 2]%nat [3; 5]) true true
       (Some (MaskTensor (mkTensor [1; 1; 1; 2]%nat [1; 0]))) (Some 2)
       (mkGANLoss "ls" 1 0 None None None)
  = loss mse_loss (mkTensor [1; 1; 1; 2]%nat [3; 5]) true true None None
         (mkGANLoss "ls" 1 0 None None None).
Proof.
  apply (loss_ignores_mask_weight mse_loss (mkGANLoss "ls" 1 0 None None None)
           (mkTensor [1; 1; 1; 2]%nat [3; 5]) true true
           (Some (MaskTensor (mkTensor [1; 1; 1; 2]%nat [1; 0]))) None (Some 2) None).
  left. reflexivity.
Defined.

(** In hinge mode, by contrast, the weight is read. *)
Example loss_hinge_reads_weight :
  fst (loss mse_loss (mkTensor [1; 1; 1; 2]%nat [3; 5]) true false None (Some 2)
         (mkGANLoss "hinge" 1 0 None None None))
  <> fst (loss mse_loss (mkTensor [1; 1; 1; 2]%nat [3; 5]) true false None None
            (mkGANLoss "hinge" 1 0 None None None)).
Proof. vm_compute. discriminate. Qed.

Section CallContract.

Variable bce : tensor Q -> tensor Q -> result Q.

(** A mask list whose length differs from the input's fails the assertion. *)
Lemma call_mask_length_mismatch (items : list pred) (ms : list (option (tensor Q)))
    (target_is_real for_discriminator : bool) (weight : option (list Q)) (self : GANLoss) :
  length items <> length ms ->
  __call__ bce (Multi items) target_is_real for_discriminator (Some (MaskList ms)) weight self
  = (Raise AssertionError, self).
Proof.
  intros H. unfold __call__. apply Nat.eqb_neq in H. now rewrite H.
Qed.

(** A weight list that runs out before the input does makes the loop raise
    (at [weight[idx]], if nothing raised before). *)
Lemma call_loop_weight_short (items : list pred) (ws : list Q) :
  forall (idx : nat) (target_is_real for_discriminator : bool)
         (mask : option (list (option (tensor Q)))) (acc : fl) (self : GANLoss),
    (idx <= length ws < idx + length items)%nat ->
    exists e self',
      call_loop bce items idx target_is_real for_discriminator mask (Some ws) acc self
      = (Raise e, self').
Proof.
  induction items as [|p items IH]; intros idx tir fd mask acc self Hlen; cbn [length] in Hlen.
  - lia.
  - cbn [call_loop].
    destruct (match p with
              | Pred t => Ok t
              | PredList l => match rev l with [] => Raise IndexError | t :: _ => Ok t end
              end) as [t|e|] eqn:Ep; eauto.
    + destruct (match mask with
                | None => Ok None
                | Some ms => match nth_error ms idx with
                             | Some m => Ok (option_map MaskTensor m)
                             | None => Raise IndexError
                             end
                end) as [mi|e|] eqn:Em; eauto.
      * destruct (nth_error ws idx) as [w|] eqn:Ew; eauto.
        assert (idx < length ws)%nat by (apply nth_error_Some; congruence).
        destruct (loss bce t tir fd mi (Some w) self) as [[v|e|] self'] eqn:El; eauto.
        -- apply IH. lia.
        -- apply IH. lia.
      * destruct mask as [ms|]; [|discriminate].
        destruct (nth_error ms idx); discriminate.
    + destruct p as [t|l]; [discriminate|]. destruct (rev l); discriminate.
Qed.

Lemma call_weight_short (items : list pred) (ws : list Q)
    (target_is_real for_discriminator : bool) (mask : option mask_arg) (self : GANLoss) :
  (length ws < length items)%nat ->
  exists e self',
    __call__ bce (Multi items) target_is_real for_discriminator mask (Some ws) self
    = (Raise e, self').
Proof.
  intros H. unfold __call__.
  destruct mask as [[mt|ms]|]; eauto.
  - destruct (negb (length items =? length ms)%nat); eauto.
    destruct (call_loop_weight_short items ws 0 target_is_real for_discriminator
                (Some ms) (Some 0) self) as (e & s' & ->); eauto. lia.
  - destruct (call_loop_weight_short items ws 0 target_is_real for_discriminator
                None (Some 0) self) as (e & s' & ->); eauto. lia.
Qed.

(** When the call on a list that is not empty returns a tensor, its entry is
    the loss accumulated over the scales divided by the number of scales, or
    by the sum of the weights when weights are given. *)
Lemma call_normalisation (items : list pred) (target_is_real for_discriminator : bool)
    (mask : option mask_arg) (weight : option (list Q)) (self self' : GANLoss)
    (out : tensor Q) :
  items <> [] ->
  __call__ bce (Multi items) target_is_real for_discriminator mask weight self = (Ok out, self') ->
  exists (ms : option (list (option (tensor Q)))) (total : Q),
    call_loop bce items 0 target_is_real for_discriminator ms weight (Some 0) self
    = (Ok (Some total), self')
    /\ out = mkTensor [1%nat]
               [total / match weight with
                        | None => Qnat (length items)
                        | Some ws => fold_left Qplus ws 0
                        end].
Proof.
  intros Hne H. unfold __call__ in H.
  destruct (match mask with
            | None => Ok None
            | Some (MaskTensor _) => Raise AssertionError
            | Some (MaskList ms) =>
                if negb (length items =? length ms)%nat then Raise AssertionError
                else Ok (Some ms)
            end) as [ms|e|]; try discriminate.
  destruct (call_loop bce items 0 target_is_real for_discriminator ms weight (Some 0) self)
    as [[acc|e|] s1] eqn:E; try discriminate.
  destruct items as [|p items]; [congruence|].
  destruct acc as [total|]; cbn [fl_result bind] in H; [|discriminate].
  unfold fdiv in H.
  destruct (Qeq_bool _ 0); cbn [bind] in H; [discriminate|].
  injection H as H1 H2. subst out self'. exists ms, total. split; [exact E|reflexivity].
Qed.

(** C2 (the defect).  A weight list longer than the input is not rejected:
    with one scale of loss 3 (mode 'w', aiming for fake) and the two weights
    [[1; 1]], the call returns [3 / (1 + 1)] where the contract asks for a
    failure. *)
Theorem call_weight_longer_returns :
  exists v,
    __call__ bce (Multi [Pred (mkTensor [1; 1; 1; 1]%nat [3])]) false true None (Some [1; 1])
         (mkGANLoss "w" 1 0 None None None)
    = (Ok (mkTensor [1%nat] [v]), mkGANLoss "w" 1 0 None None None)
    /\ v == 3 # 2.
Proof.
  eexists. split; [vm_compute; reflexivity|reflexivity].
Qed.

End CallContract.

(** ** Rounding to binary32 *)

Lemma pow2_pos (e : Z) : 0 < 2 ^ e.
Proof. apply Qpower_0_lt. reflexivity. Qed.

Lemma pow2_succ (e : Z) : 2 ^ (e + 1) == 2 * 2 ^ e.
Proof. rewrite Qpower_plus by discriminate. simpl (2 ^ 1). ring. Qed.

Lemma pow2_le (a b : Z) : (a <= b)%Z -> 2 ^ a <= 2 ^ b.
Proof. intros H. apply Qpower_le_compat_l; [exact H|discriminate]. Qed.

Lemma pow2_lt_inv (a b : Z) : 2 ^ a < 2 ^ b -> (a < b)%Z.
Proof. intros H. apply (Qpower_lt_compat_l_inv 2); [exact H|reflexivity]. Qed.

Lemma pow2_inject (n : Z) : (0 <= n)%Z -> inject_Z (2 ^ n) == 2 ^ n.
Proof. intros H. now rewrite Zpower_Qpower. Qed.

(** [ilog2] is the floor of the binary logarithm. *)
Lemma ilog2_spec (x : Q) :
  0 < x -> 2 ^ Binary32.ilog2 x <= x /\ x < 2 ^ (Binary32.ilog2 x + 1).
Proof.
  intros Hx. destruct x as [n d]. unfold Binary32.ilog2. cbn [Qnum Qden].
  assert (Hn : (0 < n)%Z) by (unfold Qlt in Hx; simpl in Hx; lia).
  set (a := Z.log2 n). set (b := Z.log2 (Zpos d)).
  assert (Ha : (0 <= a)%Z) by apply Z.log2_nonneg.
  assert (Hb : (0 <= b)%Z) by apply Z.log2_nonneg.
  destruct (Z.log2_spec n Hn) as [Ha1 Ha2]. fold a in Ha1, Ha2.
  destruct (Z.log2_spec (Zpos d) eq_refl) as [Hb1 Hb2]. fold b in Hb1, Hb2.
  assert (Qa1 : 2 ^ a <= inject_Z n).
  { rewrite <- pow2_inject by lia. now rewrite <- Zle_Qle. }
  assert (Qa2 : inject_Z n < 2 ^ (a + 1)).
  { rewrite <- pow2_inject by lia. rewrite <- Zlt_Qlt. replace (a + 1)%Z with (Z.succ a) by lia.
    exact Ha2. }
  assert (Qb1 : 2 ^ b <= inject_Z (Zpos d)).
  { rewrite <- pow2_inject by lia. now rewrite <- Zle_Qle. }
  assert (Qb2 : inject_Z (Zpos d) < 2 ^ (b + 1)).
  { rewrite <- pow2_inject by lia. rewrite <- Zlt_Qlt. replace (b + 1)%Z with (Z.succ b) by lia.
    exact Hb2. }
  assert (Hxd : (n # d) * inject_Z (Zpos d) == inject_Z n).
  { unfold Qeq, Qmult, inject_Z. simpl. lia. }
  assert (Hd : 0 < inject_Z (Zpos d)) by reflexivity.
  assert (Hup : (n # d) < 2 ^ (a - b + 1)).
  { assert (E : 2 ^ (a + 1) == 2 ^ (a - b + 1) * 2 ^ b).
    { rewrite <- Qpower_plus by discriminate.
      replace (a - b + 1 + b)%Z with (a + 1)%Z by lia. reflexivity. }
    pose proof (pow2_pos (a - b + 1)).
    apply Qnot_le_lt. intros C. rewrite E in Qa2. nra. }
  assert (Hlo : 2 ^ (a - b - 1) < (n # d)).
  { assert (E : 2 ^ a == 2 ^ (a - b - 1) * 2 ^ (b + 1)).
    { rewrite <- Qpower_plus by discriminate.
      replace (a - b - 1 + (b + 1))%Z with a by lia. reflexivity. }
    pose proof (pow2_pos (a - b - 1)).
    apply Qnot_le_lt. intros C. rewrite E in Qa1. nra. }
  destruct (Qle_bool (2 ^ (a - b)) (n # d)) eqn:E.
  - apply Qle_bool_iff in E. split; assumption.
  - apply Qle_bool_false_lt in E. split.
    + now apply Qlt_le_weak.
    + replace (a - b - 1 + 1)%Z with (a - b)%Z by lia. exact E.
Qed.

Lemma ilog2_unique (x : Q) (e : Z) :
  2 ^ e <= x -> x < 2 ^ (e + 1) -> Binary32.ilog2 x = e.
Proof.
  intros H1 H2.
  assert (Hx : 0 < x) by (pose proof (pow2_pos e); lra).
  destruct (ilog2_spec x Hx) as [S1 S2].
  assert (e < Binary32.ilog2 x + 1)%Z by (apply pow2_lt_inv; lra).
  assert (Binary32.ilog2 x < e + 1)%Z by (apply pow2_lt_inv; lra).
  lia.
Qed.

(** Rounding to an integer, ties to even. *)
Lemma round_half_even_bounds (t : Q) :
  (Qfloor t <= Binary32.round_half_even t <= Qfloor t + 1)%Z.
Proof.
  unfold Binary32.round_half_even.
  destruct (Qcompare (t - inject_Z (Qfloor t)) (1 # 2)); [destruct (Z.even (Qfloor t))| |]; lia.
Qed.

Lemma round_half_even_ge (t : Q) (z : Z) :
  inject_Z z <= t -> (z <= Binary32.round_half_even t)%Z.
Proof.
  intros H. pose proof (round_half_even_bounds t).
  apply Qfloor_resp_le in H. rewrite Qfloor_Z in H. lia.
Qed.

Lemma round_half_even_le (t : Q) (z : Z) :
  t <= inject_Z z -> (Binary32.round_half_even t <= z)%Z.
Proof.
  intros H. pose proof (round_half_even_bounds t) as B.
  pose proof (Qfloor_resp_le _ _ H) as F. rewrite Qfloor_Z in F.
  destruct (Z.eq_dec (Qfloor t) z) as [E|E]; [|lia].
  unfold Binary32.round_half_even.
  destruct (Qcompare (t - inject_Z (Qfloor t)) (1 # 2)) eqn:C.
  - apply Qeq_alt in C. rewrite E in C. lra.
  - lia.
  - apply Qgt_alt in C. rewrite E in C. lra.
Qed.

Lemma round_half_even_Z (z : Z) : Binary32.round_half_even (inject_Z z) = z.
Proof.
  apply Z.le_antisymm.
  - apply round_half_even_le. apply Qle_refl.
  - apply round_half_even_ge. apply Qle_refl.
Qed.

Lemma round_half_even_mono (t1 t2 : Q) :
  t1 <= t2 -> (Binary32.round_half_even t1 <= Binary32.round_half_even t2)%Z.
Proof.
  intros H. pose proof (Qfloor_resp_le _ _ H) as F.
  pose proof (round_half_even_bounds t1) as B1.
  pose proof (round_half_even_bounds t2) as B2.
  destruct (Z.eq_dec (Qfloor t1) (Qfloor t2)) as [E|E]; [|lia].
  unfold Binary32.round_half_even in *. rewrite <- E in *.
  destruct (Qcompare (t1 - inject_Z (Qfloor t1)) (1 # 2)) eqn:C1;
    destruct (Qcompare (t2 - inject_Z (Qfloor t1)) (1 # 2)) eqn:C2;
    try (destruct (Z.even (Qfloor t1))); try lia;
    repeat match goal with
           | H : Qcompare _ _ = Eq |- _ => apply Qeq_alt in H
           | H : Qcompare _ _ = Lt |- _ => apply Qlt_alt in H
           | H : Qcompare _ _ = Gt |- _ => apply Qgt_alt in H
           end; lra.
Qed.

Lemma round_half_even_comp (t1 t2 : Q) :
  t1 == t2 -> Binary32.round_half_even t1 = Binary32.round_half_even t2.
Proof.
  intros H. apply Z.le_antisymm; apply round_half_even_mono; rewrite H; apply Qle_refl.
Qed.

(** Rounding a positive number. *)
Lemma rne_pos (x : Q) :
  0 < x ->
  Binary32.rne x
  = inject_Z (Binary32.round_half_even (x / Binary32.ulp x)) * Binary32.ulp x.
Proof.
  intros H. unfold Binary32.rne. apply Qgt_alt in H. now rewrite H.
Qed.

Lemma rne_zero (x : Q) : x == 0 -> Binary32.rne x = 0.
Proof.
  intros H. unfold Binary32.rne. apply Qeq_alt in H. now rewrite H.
Qed.

Lemma ulp_pos (x : Q) : 0 < Binary32.ulp x.
Proof. apply pow2_pos. Qed.

Lemma pow2_23 : 2 ^ 23 == inject_Z 8388608.
Proof. reflexivity. Qed.

Lemma pow2_24 : 2 ^ 24 == inject_Z 16777216.
Proof. reflexivity. Qed.

Lemma ulp_scale (e : Z) : 2 ^ e == inject_Z 8388608 * 2 ^ (e - 23).
Proof.
  rewrite <- pow2_23, <- Qpower_plus by discriminate.
  replace (23 + (e - 23))%Z with e by lia. reflexivity.
Qed.

(** The significand of a positive number lies between [2^23] and [2^24]. *)
Lemma significand_bounds (x : Q) :
  0 < x ->
  (8388608 <= Binary32.round_half_even (x / Binary32.ulp x) <= 16777216)%Z.
Proof.
  intros Hx. destruct (ilog2_spec x Hx) as [S1 S2].
  pose proof (ulp_pos x) as Hu. unfold Binary32.ulp in *.
  set (u := 2 ^ (Binary32.ilog2 x - 23)) in *.
  rewrite (ulp_scale (Binary32.ilog2 x)) in S1. fold u in S1.
  rewrite pow2_succ, (ulp_scale (Binary32.ilog2 x)) in S2. fold u in S2.
  split.
  - apply round_half_even_ge. apply Qle_shift_div_l; [exact Hu|]. exact S1.
  - apply round_half_even_le. apply Qle_shift_div_r; [exact Hu|].
    change (inject_Z 16777216) with (2 * inject_Z 8388608). lra.
Qed.

(** A rounded positive number stays in the binade of its argument. *)
Lemma rne_binade (x : Q) :
  0 < x ->
  2 ^ Binary32.ilog2 x <= Binary32.rne x /\ Binary32.rne x <= 2 ^ (Binary32.ilog2 x + 1).
Proof.
  intros Hx. rewrite (rne_pos x Hx). pose proof (significand_bounds x Hx) as [B1 B2].
  pose proof (ulp_pos x) as Hu. unfold Binary32.ulp in *.
  set (u := 2 ^ (Binary32.ilog2 x - 23)) in *.
  set (m := Binary32.round_half_even (x / u)) in *.
  rewrite pow2_succ, (ulp_scale (Binary32.ilog2 x)). fold u.
  rewrite Zle_Qle in B1, B2.
  change (inject_Z 16777216) with (2 * inject_Z 8388608) in B2. nra.
Qed.

Lemma rne_positive (x : Q) : 0 < x -> 0 < Binary32.rne x.
Proof.
  intros Hx. destruct (rne_binade x Hx) as [B _].
  pose proof (pow2_pos (Binary32.ilog2 x)). lra.
Qed.

Lemma rne_nonneg (x : Q) : 0 <= x -> 0 <= Binary32.rne x.
Proof.
  intros Hx. destruct (Qlt_le_dec 0 x) as [H|H].
  - apply Qlt_le_weak. now apply rne_positive.
  - rewrite rne_zero by lra. apply Qle_refl.
Qed.

(** Rounding is monotone. *)
Lemma rne_mono_pos (x y : Q) : 0 < x -> x <= y -> Binary32.rne x <= Binary32.rne y.
Proof.
  intros Hx Hxy. assert (Hy : 0 < y) by lra.
  destruct (ilog2_spec x Hx) as [X1 X2]. destruct (ilog2_spec y Hy) as [Y1 Y2].
  assert (Hle : (Binary32.ilog2 x < Binary32.ilog2 y + 1)%Z) by (apply pow2_lt_inv; lra).
  destruct (Z.eq_dec (Binary32.ilog2 x) (Binary32.ilog2 y)) as [E|E].
  - rewrite (rne_pos x Hx), (rne_pos y Hy). unfold Binary32.ulp. rewrite E.
    pose proof (pow2_pos (Binary32.ilog2 y - 23)) as Hu.
    set (u := 2 ^ (Binary32.ilog2 y - 23)) in *.
    apply Qmult_le_compat_r; [|lra].
    rewrite <- Zle_Qle. apply round_half_even_mono.
    apply Qmult_le_compat_r; [exact Hxy|]. apply Qinv_le_0_compat. lra.
  - destruct (rne_binade x Hx) as [_ Bx]. destruct (rne_binade y Hy) as [By _].
    assert (2 ^ (Binary32.ilog2 x + 1) <= 2 ^ Binary32.ilog2 y) by (apply pow2_le; lia).
    lra.
Qed.

Lemma rne_mono (x y : Q) : 0 <= x -> x <= y -> Binary32.rne x <= Binary32.rne y.
Proof.
  intros Hx Hxy. destruct (Qlt_le_dec 0 x) as [H|H].
  - now apply rne_mono_pos.
  - rewrite (rne_zero x) by lra. apply rne_nonneg. lra.
Qed.

(** A number with a 24-bit significand is its own rounding. *)
Lemma rne_representable (m e : Z) :
  (8388608 <= m < 16777216)%Z ->
  Binary32.rne (inject_Z m * 2 ^ (e - 23)) == inject_Z m * 2 ^ (e - 23).
Proof.
  intros [M1 M2]. pose proof (pow2_pos (e - 23)) as Hu.
  rewrite Zle_Qle in M1. rewrite Zlt_Qlt in M2.
  set (u := 2 ^ (e - 23)) in *. set (r := inject_Z m * u).
  assert (H23 : 0 < inject_Z 8388608) by reflexivity.
  assert (Hr : 0 < r) by (subst r; nra).
  assert (He : Binary32.ilog2 r = e).
  { apply ilog2_unique.
    - rewrite (ulp_scale e). fold u. subst r. nra.
    - rewrite pow2_succ, (ulp_scale e). fold u. subst r.
      change (inject_Z 16777216) with (2 * inject_Z 8388608) in M2. nra. }
  rewrite (rne_pos r Hr). unfold Binary32.ulp. rewrite He. fold u.
  rewrite (round_half_even_comp (r / u) (inject_Z m)).
  - rewrite round_half_even_Z. reflexivity.
  - subst r. field. lra.
Qed.

Lemma rne_idempotent (x : Q) : 0 <= x -> Binary32.rne (Binary32.rne x) == Binary32.rne x.
Proof.
  intros Hx. destruct (Qlt_le_dec 0 x) as [H|H].
  - rewrite (rne_pos x H). pose proof (significand_bounds x H) as [B1 B2].
    unfold Binary32.ulp.
    set (e := Binary32.ilog2 x). set (m := Binary32.round_half_even _) in *.
    destruct (Z.eq_dec m 16777216) as [E|E].
    + rewrite E.
      assert (R : inject_Z 16777216 * 2 ^ (e - 23) == inject_Z 8388608 * 2 ^ (e + 1 - 23)).
      { replace (e + 1 - 23)%Z with (e - 23 + 1)%Z by lia. rewrite pow2_succ.
        change (inject_Z 16777216) with (2 * inject_Z 8388608). ring. }
      assert (P : 0 < inject_Z 16777216 * 2 ^ (e - 23)).
      { pose proof (pow2_pos (e - 23)). change (inject_Z 16777216) with 16777216. lra. }
      assert (P' : 0 < inject_Z 8388608 * 2 ^ (e + 1 - 23)) by (rewrite <- R; exact P).
      apply Qle_antisym.
      * rewrite R at 2. rewrite <- (rne_representable 8388608 (e + 1)) by lia.
        apply rne_mono_pos; [exact P|]. rewrite R. apply Qle_refl.
      * rewrite R at 1. rewrite <- (rne_representable 8388608 (e + 1)) at 1 by lia.
        apply rne_mono_pos; [exact P'|]. rewrite R. apply Qle_refl.
    + apply rne_representable. lia.
  - rewrite (rne_zero x) by lra. reflexivity.
Qed.

Lemma rne_one : Binary32.rne 1 == 1.
Proof. reflexivity. Qed.

Lemma rne_eps6_pos : 0 < Binary32.rne eps6.
Proof. reflexivity. Qed.

(** ** The range of mean_iou_noreduce *)

(** An elementwise operation either rejects the two shapes or pairs up two
    lists of entries that do not depend on the operation. *)
Lemma zip_with_spec {A B : Type} (dA : A) (dB : B) (a : tensor A) (b : tensor B) :
  (forall (C : Type) (f : A -> B -> C), zip_with dA dB f a b = Raise RuntimeError)
  \/ exists sh la lb,
       forall (C : Type) (f : A -> B -> C),
         zip_with dA dB f a b = Ok (mkTensor sh (map2 f la lb)).
Proof.
  unfold zip_with. destruct (shape_eqb (shape a) (shape b)).
  - right. now exists (shape a), (data a), (data b).
  - destruct (broadcast_shapes (shape a) (shape b)) as [sh|].
    + right. now exists sh, (data (expand dA a sh)), (data (expand dB b sh)).
    + now left.
Qed.

(** A sum over trailing dimensions either rejects the shape or adds up blocks
    whose size and number depend on the shape only. *)
Lemma sum_trailing_spec (n : nat) (sh : list nat) :
  (forall d, sum_trailing n (mkTensor sh d) = Raise IndexError)
  \/ exists pre k,
       forall d, sum_trailing n (mkTensor sh d)
                 = Ok (mkTensor pre (map (fun i => Qsum (chunk k i d)) (seq 0 (numel pre)))).
Proof.
  unfold sum_trailing, ndim. cbn [shape data]. destruct (length sh <? n)%nat.
  - now left.
  - right. now exists (firstn (length sh - n) sh), (numel (skipn (length sh - n) sh)).
Qed.

Lemma Qsum_le (l1 l2 : list Q) : Forall2 Qle l1 l2 -> Qsum l1 <= Qsum l2.
Proof. induction 1 as [|x y l1 l2 Hxy _ IH]; simpl; lra. Qed.

(** In every block the count of the intersection is at most the count of the
    union, and neither is negative. *)
Lemma intersection_le_union (la lb : list bool) (k i : nat) :
  0 <= Qsum (chunk k i (map bool_to_Q (map2 andb la lb)))
  /\ Qsum (chunk k i (map bool_to_Q (map2 andb la lb)))
     <= Qsum (chunk k i (map bool_to_Q (map2 orb la lb))).
Proof.
  split.
  - apply Qsum_nonneg, Forall_chunk, bool_to_Q_nonneg.
  - apply Qsum_le. unfold chunk. apply Forall2_firstn, Forall2_skipn.
    unfold map2. rewrite !map_map. revert lb.
    induction la as [|x la IH]; intros [|y lb]; cbn [combine map]; constructor.
    + destruct x, y; simpl; lra.
    + apply IH.
Qed.

Lemma ratio_range (a b : Q) : 0 <= a -> a <= b -> 0 <= a / (b + eps6) /\ a / (b + eps6) < 1.
Proof.
  intros Ha Hab. pose proof eps6_pos. split.
  - apply Qle_shift_div_l; lra.
  - apply Qlt_shift_div_r; lra.
Qed.

(** In exact arithmetic every entry is at least 0 and below 1, and no
    denominator is 0. *)
Lemma mean_iou_noreduce_exact_range (alpha_pred alpha_real : tensor Q) :
  (exists e, mean_iou_noreduce alpha_pred alpha_real = Raise e)
  \/ exists iou, mean_iou_noreduce alpha_pred alpha_real = Ok iou
                 /\ Forall (fun x => 0 <= x /\ x < 1) (data iou).
Proof.
  unfold mean_iou_noreduce, sum_last2.
  destruct (zip_with_spec false false
              (tmap (fun x => Qgtb x half) alpha_pred)
              (tmap (fun x => Qgtb x half) alpha_real)) as [Z|(sh & la & lb & Z)];
    rewrite !Z; cbn [bind]; [left; eauto|].
  unfold tmap. cbn [shape data].
  destruct (sum_trailing_spec 2 sh) as [S|(pre & k & S)]; rewrite !S; cbn [bind];
    [left; eauto|].
  cbn [shape data]. right. rewrite tdiv_ok; cbn [shape data]; [|reflexivity|].
  - eexists. split; [reflexivity|]. cbn [data].
    rewrite map_map, map2_map_same, Forall_map. apply Forall_forall. intros i _.
    destruct (intersection_le_union la lb k i). now apply ratio_range.
  - rewrite !Forall_map. apply Forall_forall. intros i _.
    destruct (intersection_le_union la lb k i). pose proof eps6_pos. lra.
Qed.

Lemma rne_denominator_positive (c : Q) :
  0 <= c -> 0 < Binary32.rne (Binary32.rne c + Binary32.rne eps6).
Proof.
  intros Hc. apply rne_positive.
  pose proof (rne_nonneg c Hc). pose proof rne_eps6_pos. lra.
Qed.

Lemma rne_ratio_range (a b : Q) :
  0 <= a -> a <= b ->
  0 <= Binary32.rne (Binary32.rne a / Binary32.rne (Binary32.rne b + Binary32.rne eps6))
  /\ Binary32.rne (Binary32.rne a / Binary32.rne (Binary32.rne b + Binary32.rne eps6)) <= 1.
Proof.
  intros Ha Hab. assert (Hb : 0 <= b) by lra.
  pose proof (rne_denominator_positive b Hb) as HD.
  pose proof (rne_nonneg a Ha) as Hra. pose proof (rne_nonneg b Hb) as Hrb.
  pose proof rne_eps6_pos as He.
  assert (Hle : Binary32.rne a <= Binary32.rne (Binary32.rne b + Binary32.rne eps6)).
  { apply Qle_trans with (Binary32.rne b); [now apply rne_mono|].
    rewrite <- (rne_idempotent b Hb) at 1. apply rne_mono; lra. }
  set (D := Binary32.rne (Binary32.rne b + Binary32.rne eps6)) in *.
  assert (Hq0 : 0 <= Binary32.rne a / D) by (apply Qle_shift_div_l; lra).
  assert (Hq1 : Binary32.rne a / D <= 1) by (apply Qle_shift_div_r; lra).
  split.
  - now apply rne_nonneg.
  - rewrite <- rne_one. now apply rne_mono.
Qed.

(** C10, amended.  Whenever [mean_iou_noreduce] returns, no denominator is 0
    and every entry is at least 0 and at most 1 in the single precision the
    function computes in; in exact arithmetic every entry is below 1. *)
Theorem mean_iou_noreduce_range (alpha_pred alpha_real : tensor Q) :
  ((exists e, Binary32.mean_iou_noreduce alpha_pred alpha_real = Raise e)
   \/ exists iou, Binary32.mean_iou_noreduce alpha_pred alpha_real = Ok iou
                  /\ Forall (fun x => 0 <= x /\ x <= 1) (data iou))
  /\ ((exists e, mean_iou_noreduce alpha_pred alpha_real = Raise e)
      \/ exists iou, mean_iou_noreduce alpha_pred alpha_real = Ok iou
                     /\ Forall (fun x => 0 <= x /\ x < 1) (data iou)).
Proof.
  split; [|apply mean_iou_noreduce_exact_range].
  unfold Binary32.mean_iou_noreduce, Binary32.fsum_last2, sum_last2.
  destruct (zip_with_spec false false
              (tmap (fun x => Qgtb x half) alpha_pred)
              (tmap (fun x => Qgtb x half) alpha_real)) as [Z|(sh & la & lb & Z)];
    rewrite !Z; cbn [bind]; [left; eauto|].
  unfold tmap. cbn [shape data].
  destruct (sum_trailing_spec 2 sh) as [S|(pre & k & S)]; rewrite !S; cbn [bind];
    [left; eauto|].
  cbn [shape data]. right. rewrite tdiv_ok; cbn [shape data]; [|reflexivity|].
  - eexists. split; [reflexivity|]. cbn [data].
    rewrite !map_map, map2_map_same, !Forall_map. apply Forall_forall. intros i _.
    destruct (intersection_le_union la lb k i). now apply rne_ratio_range.
  - rewrite !Forall_map. apply Forall_forall. intros i _.
    pose proof (rne_denominator_positive _
                  (Qsum_nonneg _ (Forall_chunk _ k i _ (bool_to_Q_nonneg (map2 orb la lb))))).
    lra.
Qed.

(** C10, as stated, fails in the arithmetic the function computes in: for two
    all-ones masks of 4x8 pixels the intersection and the union are both 32,
    [32 + 1e-6] rounds to 32 in binary32, and the entry returned is exactly 1. *)
Lemma mean_iou_noreduce_reaches_one :
  exists v, Binary32.mean_iou_noreduce (ones [4; 8]%nat) (ones [4; 8]%nat)
            = Ok (mkTensor [] [v])
            /\ v == 1 /\ ~ v < 1.
Proof.
  eexists. split; [vm_compute; reflexivity|]. split; [reflexivity|]. intros H. discriminate H.
Qed.

(** [Binary32.rne] against the Standard Library's binary32 operations
    ([prec = 24], [emax = 128]) on the values of the example above and on a
    neighbour where the sum does move: [1e-6], [32 + 1e-6], [32 / 32],
    [16 + 1e-6] and [16 / (16 + 1e-6)]. *)
Example rne_agrees_with_SpecFloat :
  SF2Q sf_eps6 = Some (Binary32.rne eps6)
  /\ (exists a, SF2Q (SpecFloat.SFadd 24 128 sf32 sf_eps6) = Some a
                /\ a == Binary32.rne (32 + Binary32.rne eps6) /\ a == 32)
  /\ (exists q, SF2Q (SpecFloat.SFdiv 24 128 sf32 (SpecFloat.SFadd 24 128 sf32 sf_eps6))
                = Some q
                /\ q == Binary32.rne (32 / Binary32.rne (32 + Binary32.rne eps6))
                /\ q == 1)
  /\ (exists a, SF2Q (SpecFloat.SFadd 24 128 sf16 sf_eps6) = Some a
                /\ a == Binary32.rne (16 + Binary32.rne eps6) /\ 16 < a)
  /\ (exists q, SF2Q (SpecFloat.SFdiv 24 128 sf16 (SpecFloat.SFadd 24 128 sf16 sf_eps6))
                = Some q
                /\ q == Binary32.rne (16 / Binary32.rne (16 + Binary32.rne eps6))
                /\ q < 1).
Proof.
  split; [vm_compute; reflexivity|].
  repeat split; eexists; (split; [vm_compute; reflexivity|]); split; vm_compute; reflexivity.
Qed.

(** On masks of one shape with at least two dimensions the function returns,
    in both arithmetics, one entry per leading position. *)
Lemma mean_iou_noreduce_returns (alpha_pred alpha_real : tensor Q) :
  shape alpha_pred = shape alpha_real ->
  (2 <= ndim alpha_pred)%nat ->
  (exists iou, Binary32.mean_iou_noreduce alpha_pred alpha_real = Ok iou
               /\ shape iou = firstn (ndim alpha_pred - 2) (shape alpha_pred))
  /\ (exists iou, mean_iou_noreduce alpha_pred alpha_real = Ok iou
                  /\ shape iou = firstn (ndim alpha_pred - 2) (shape alpha_pred)).
Proof.
  intros Hs Hn. destruct alpha_pred as [sh dp], alpha_real as [sr dr].
  cbn [shape] in Hs. subst sr. unfold ndim in *. cbn [shape] in *.
  assert (L : (length sh <? 2)%nat = false) by (apply Nat.ltb_ge; lia).
  split.
  - unfold Binary32.mean_iou_noreduce, Binary32.fsum_last2, sum_last2, sum_trailing, ndim, tmap.
    rewrite !zip_with_same_shape by reflexivity. cbn [bind shape data]. rewrite L.
    cbn [bind shape data].
    rewrite tdiv_ok; cbn [shape data];
      [eexists; split; reflexivity|reflexivity|].
    rewrite !Forall_map. apply Forall_forall. intros i _.
    pose proof (rne_denominator_positive _
                  (Qsum_nonneg _ (Forall_chunk _ (numel (skipn (length sh - 2) sh)) i _
                     (bool_to_Q_nonneg (map2 orb (map (fun x => Qgtb x half) dp)
                                                 (map (fun x => Qgtb x half) dr)))))).
    lra.
  - unfold mean_iou_noreduce, sum_last2, sum_trailing, ndim, tmap.
    rewrite !zip_with_same_shape by reflexivity. cbn [bind shape data]. rewrite L.
    cbn [bind shape data].
    rewrite tdiv_ok; cbn [shape data];
      [eexists; split; reflexivity|reflexivity|].
    rewrite !Forall_map. apply Forall_forall. intros i _.
    pose proof (Qsum_nonneg _ (Forall_chunk _ (numel (skipn (length sh - 2) sh)) i _
                  (bool_to_Q_nonneg (map2 orb (map (fun x => Qgtb x half) dp)
                                              (map (fun x => Qgtb x half) dr))))).
    pose proof eps6_pos. lra.
Qed.

(** ** The operations on small inputs *)

(** Broadcasting a column against a row. *)
Example zip_with_broadcast :
  zip_with 0 0 Qplus (mkTensor [2; 1]%nat [10; 20]) (mkTensor [3]%nat [1; 2; 3])
  = Ok (mkTensor [2; 3]%nat [10 + 1; 10 + 2; 10 + 3; 20 + 1; 20 + 2; 20 + 3]).
Proof. reflexivity. Qed.

Example zip_with_incompatible :
  zip_with 0 0 Qplus (mkTensor [2; 3]%nat [1; 2; 3; 4; 5; 6]) (mkTensor [2]%nat [1; 2])
  = Raise RuntimeError.
Proof. reflexivity. Qed.

(** [sum(dim=[1])] of a (2, 2, 3) tensor and [sum(dim=[1, 2])] of a (2, 2, 2)
    tensor. *)
Example sum_middle_examples :
  (exists t, sum_middle 1 (mkTensor [2; 2; 3]%nat [1; 2; 3; 4; 5; 6; 7; 8; 9; 10; 11; 12])
             = Ok t
             /\ shape t = [2; 3]%nat /\ Forall2 Qeq (data t) [5; 7; 9; 17; 19; 21])
  /\ (exists t, sum_middle 2 (mkTensor [2; 2; 2]%nat [1; 2; 3; 4; 5; 6; 7; 8]) = Ok t
                /\ shape t = [2%nat] /\ Forall2 Qeq (data t) [10; 26]).
Proof.
  split; eexists; (split; [vm_compute; reflexivity|]); (split; [reflexivity|]);
    repeat constructor.
Qed.

(** Gathering along dimension 1 with an index that counts from the end, and
    with one out of range. *)
Example index_dim1_examples :
  index_dim1 (mkTensor [1; 3; 2]%nat [1; 2; 3; 4; 5; 6]) (mkTensor [2]%nat [2; -3]%Z)
  = Ok (mkTensor [1; 2; 2]%nat [5; 6; 1; 2])
  /\ index_dim1 (mkTensor [1; 3; 2]%nat [1; 2; 3; 4; 5; 6]) (mkTensor [1]%nat [3]%Z)
     = Raise IndexError
  /\ index_dim1 (mkTensor [1; 2; 0]%nat ([] : list Q)) (mkTensor [1]%nat [2]%Z)
     = Ok (mkTensor [1; 1; 0]%nat []).
Proof. repeat split; reflexivity. Qed.

(** An unknown mode is rejected when the instance is built. *)
Example init_bogus : __init__ "bogus" 1 0 = Raise ValueError.
Proof. reflexivity. Qed.

(** The balanced mean over channels that are all empty is [0 / 0]. *)
Example mean_miou_noreduce_all_empty :
  mean_miou_noreduce (mkTensor [1; 2; 2]%nat [0; 0; 0; 0]) (mkTensor [1; 2; 2]%nat [0; 0; 0; 0])
                     true
  = NonFinite.
Proof. reflexivity. Qed.

(** Where the two forms of [forward] differ although the first dimension has
    size 1: a matrix that is not square, applied to a 2-dimensional input
    (whose first dimension is then the one the product contracts, not a
    batch). *)
Example forward_not_square :
  exists a b,
    forward (mkLaplacianLoss false (mkTensor [2; 1]%nat [1; 2])) (mkTensor [1; 3]%nat [1; 2; 3])
    = Ok a
    /\ forward (mkLaplacianLoss true (mkTensor [2; 1]%nat [1; 2])) (mkTensor [1; 3]%nat [1; 2; 3])
       = Ok b
    /\ Forall2 Qeq (data a) [14; 56] /\ Forall2 Qeq (data b) [70].
Proof.
  do 2 eexists. split; [vm_compute; reflexivity|]. split; [vm_compute; reflexivity|].
  split; repeat constructor.
Qed.

(** * Further properties of the module *)

(** ** Elementwise operations *)

Lemma shape_eqb_sym (a b : list nat) : shape_eqb a b = shape_eqb b a.
Proof.
  unfold shape_eqb.
  destruct (list_eq_dec Nat.eq_dec a b), (list_eq_dec Nat.eq_dec b a); congruence.
Qed.

Lemma broadcast_rev_sym (a b : list nat) : broadcast_rev a b = broadcast_rev b a.
Proof.
  revert b. induction a as [|x a IH]; intros [|y b]; try reflexivity.
  cbn [broadcast_rev]. rewrite (IH b). destruct (broadcast_rev b a) as [r|]; [|reflexivity].
  destruct (Nat.eqb_spec x y), (Nat.eqb_spec y x); try congruence.
  destruct (Nat.eqb_spec x 1), (Nat.eqb_spec y 1); congruence.
Qed.

Lemma broadcast_shapes_sym (a b : list nat) : broadcast_shapes a b = broadcast_shapes b a.
Proof. unfold broadcast_shapes. now rewrite broadcast_rev_sym. Qed.

Lemma map2_comm {A C : Type} (f : A -> A -> C) (l1 l2 : list A) :
  (forall x y, f x y = f y x) -> map2 f l1 l2 = map2 f l2 l1.
Proof.
  intros H. unfold map2. revert l2.
  induction l1 as [|x l1 IH]; intros [|y l2]; cbn [combine map fst snd]; try reflexivity.
  now rewrite H, IH.
Qed.

(** A commutative operation may take its tensors in either order, broadcast
    or not. *)
Lemma zip_with_comm {A C : Type} (d : A) (f : A -> A -> C) (a b : tensor A) :
  (forall x y, f x y = f y x) -> zip_with d d f a b = zip_with d d f b a.
Proof.
  intros H. unfold zip_with. rewrite (shape_eqb_sym (shape b)).
  destruct (shape_eqb (shape a) (shape b)) eqn:E.
  - apply shape_eqb_eq in E. now rewrite E, (map2_comm f _ _ H).
  - rewrite (broadcast_shapes_sym (shape b)).
    destruct (broadcast_shapes (shape a) (shape b)); [|reflexivity].
    now rewrite (map2_comm f _ _ H).
Qed.

(** ** mean_iou_noreduce: symmetry, thresholding, a mask against itself *)

(** X1.  [mean_iou_noreduce] is symmetric in its two masks, for every pair of
    inputs (broadcast or rejected alike), in exact arithmetic and in single
    precision. *)
Theorem mean_iou_noreduce_sym (alpha_pred alpha_real : tensor Q) :
  mean_iou_noreduce alpha_pred alpha_real = mean_iou_noreduce alpha_real alpha_pred
  /\ Binary32.mean_iou_noreduce alpha_pred alpha_real
     = Binary32.mean_iou_noreduce alpha_real alpha_pred.
Proof.
  unfold mean_iou_noreduce, Binary32.mean_iou_noreduce.
  rewrite (zip_with_comm false andb _ _ andb_comm), (zip_with_comm false orb _ _ orb_comm).
  split; reflexivity.
Qed.

Lemma Qgtb_binarize (x : Q) : Qgtb (if Qgtb x half then 1 else 0) half = Qgtb x half.
Proof. destruct (Qgtb x half); reflexivity. Qed.

(** X2.  [mean_iou_noreduce] scores soft masks as their thresholding at 0.5:
    replacing every entry by 1 when it exceeds 0.5 and by 0 otherwise changes
    nothing of the result. *)
Theorem mean_iou_noreduce_binarize (alpha_pred alpha_real : tensor Q) :
  mean_iou_noreduce (binarize alpha_pred) (binarize alpha_real)
  = mean_iou_noreduce alpha_pred alpha_real.
Proof.
  unfold mean_iou_noreduce, binarize, tmap. cbn [shape data].
  rewrite !map_map.
  rewrite (map_ext _ _ Qgtb_binarize (data alpha_pred)).
  rewrite (map_ext _ _ Qgtb_binarize (data alpha_real)).
  reflexivity.
Qed.

Lemma map2_diag_idem {A : Type} (f : A -> A -> A) (l : list A) :
  (forall x, f x x = x) -> map2 f l l = l.
Proof.
  intros H. rewrite map2_diag. induction l as [|x l IH]; cbn [map]; [reflexivity|].
  now rewrite H, IH.
Qed.

(** A sum of 0/1 entries is a count. *)
Lemma Qsum_bool_count (l : list bool) : Qsum (map bool_to_Q l) == Qnat (count_true l).
Proof.
  unfold count_true, Qnat. induction l as [|b l IH]; cbn [map Qsum fold_right filter].
  - reflexivity.
  - rewrite IH. destruct b; cbn [bool_to_Q length].
    + rewrite Nat2Z.inj_succ, <- Z.add_1_l, inject_Z_plus. reflexivity.
    + ring.
Qed.

Lemma self_ratio (n : nat) :
  Qnat n / (Qnat n + eps6) == 0
  \/ (1 - eps6 < Qnat n / (Qnat n + eps6) /\ Qnat n / (Qnat n + eps6) < 1).
Proof.
  pose proof eps6_pos as He. destruct n as [|n].
  - left. unfold Qnat. simpl inject_Z. unfold Qdiv. ring.
  - right. assert (H1 : 1 <= Qnat (S n)).
    { unfold Qnat. change 1 with (inject_Z 1). rewrite <- Zle_Qle. lia. }
    split.
    + apply Qlt_shift_div_l; [lra|]. assert (eps6 < 1) by reflexivity. nra.
    + apply Qlt_shift_div_r; lra.
Qed.

Lemma rne_comp_nonneg (x y : Q) : 0 <= x -> x == y -> Binary32.rne x == Binary32.rne y.
Proof.
  intros Hx E. apply Qle_antisym; apply rne_mono; rewrite <- ?E; try exact Hx; apply Qle_refl.
Qed.

(** X3.  The IoU of a mask with itself, in the single precision the function
    computes in: for every input of at least two dimensions the call
    returns, and the entry of a block is 0 when the block has no pixel above
    0.5, and positive and at most 1 when it has one. *)
Theorem mean_iou_noreduce_self (alpha : tensor Q) :
  (2 <= ndim alpha)%nat ->
  exists iou,
    Binary32.mean_iou_noreduce alpha alpha = Ok iou
    /\ shape iou = firstn (ndim alpha - 2) (shape alpha)
    /\ Forall2 (fun n x => (n = 0%nat -> x == 0) /\ ((0 < n)%nat -> 0 < x /\ x <= 1))
         (map (fun i => count_true
                          (chunk (numel (skipn (ndim alpha - 2) (shape alpha))) i
                                 (map (fun x => Qgtb x half) (data alpha))))
              (seq 0 (numel (firstn (ndim alpha - 2) (shape alpha)))))
         (data iou).
Proof.
  intros Hn. destruct alpha as [sh d]. unfold ndim in *. cbn [shape data] in *.
  assert (L : (length sh <? 2)%nat = false) by (apply Nat.ltb_ge; lia).
  unfold Binary32.mean_iou_noreduce, Binary32.fsum_last2, sum_last2, sum_trailing, ndim, tmap.
  rewrite !zip_with_same_shape by reflexivity. cbn [bind shape data]. rewrite L.
  cbn [bind shape data].
  rewrite (map2_diag_idem andb _ andb_diag), (map2_diag_idem orb _ orb_diag).
  set (k := numel (skipn (length sh - 2) sh)).
  set (l := map (fun x => Qgtb x half) d).
  assert (Hc : forall i, Qsum (chunk k i (map bool_to_Q l)) == Qnat (count_true (chunk k i l))).
  { intros i. rewrite chunk_map. apply Qsum_bool_count. }
  assert (Hs : forall i, 0 <= Qsum (chunk k i (map bool_to_Q l))).
  { intros i. rewrite (Hc i). apply Qnat_nonneg. }
  rewrite tdiv_ok; cbn [shape data]; [|reflexivity|].
  - eexists. split; [reflexivity|]. split; [reflexivity|]. cbn [data].
    rewrite !map_map, map2_map_same, map_map. apply Forall2_map_seq. intros i _.
    set (S := Qsum (chunk k i (map bool_to_Q l))).
    pose proof (rne_denominator_positive S (Hs i)) as HD. fold S in HD.
    split.
    + intros N. specialize (Hc i). fold S in Hc. rewrite N in Hc.
      rewrite rne_zero; [reflexivity|].
      rewrite (rne_zero S) by exact Hc. unfold Qdiv. ring.
    + intros N. split.
      * apply rne_positive.
        assert (P : 0 < Binary32.rne S).
        { apply rne_positive. specialize (Hc i). fold S in Hc. rewrite Hc.
          unfold Qnat. change 0 with (inject_Z 0). rewrite <- Zlt_Qlt. lia. }
        apply Qlt_shift_div_l; [exact HD|]. now rewrite Qmult_0_l.
      * apply (rne_ratio_range S S); [apply Hs|apply Qle_refl].
  - rewrite !Forall_map. apply Forall_forall. intros i _.
    pose proof (rne_denominator_positive _ (Hs i)). lra.
Qed.

Lemma mean_iou_noreduce_self_witness :
  exists iou,
    Binary32.mean_iou_noreduce (mkTensor [2; 1; 2]%nat [1; 3 # 10; 0; 2 # 5])
                               (mkTensor [2; 1; 2]%nat [1; 3 # 10; 0; 2 # 5]) = Ok iou
    /\ shape iou = firstn (ndim (mkTensor [2; 1; 2]%nat [1; 3 # 10; 0; 2 # 5]) - 2)
                          (shape (mkTensor [2; 1; 2]%nat [1; 3 # 10; 0; 2 # 5]))
    /\ Forall2 (fun n x => (n = 0%nat -> x == 0) /\ ((0 < n)%nat -> 0 < x /\ x <= 1))
         (map (fun i => count_true
                          (chunk (numel (skipn (ndim (mkTensor [2; 1; 2]%nat
                                                        [1; 3 # 10; 0; 2 # 5]) - 2)
                                               (shape (mkTensor [2; 1; 2]%nat
                                                         [1; 3 # 10; 0; 2 # 5])))) i
                                 (map (fun x => Qgtb x half)
                                      (data (mkTensor [2; 1; 2]%nat [1; 3 # 10; 0; 2 # 5])))))
              (seq 0 (numel (firstn (ndim (mkTensor [2; 1; 2]%nat [1; 3 # 10; 0; 2 # 5]) - 2)
                                    (shape (mkTensor [2; 1; 2]%nat [1; 3 # 10; 0; 2 # 5]))))))
         (data iou).
Proof.
  apply (mean_iou_noreduce_self (mkTensor [2; 1; 2]%nat [1; 3 # 10; 0; 2 # 5])).
  unfold ndim. simpl. lia.
Defined.

Lemma Qsum_zero_entries (l : list bool) :
  Forall (fun b => b = false) l -> Qsum (map bool_to_Q l) == 0.
Proof.
  intros H. apply Qsum_all_zero. rewrite Forall_map.
  eapply Forall_impl; [|exact H]. intros b ->. reflexivity.
Qed.

(** X4.  Masks of one shape that share no pixel above 0.5 have IoU exactly 0
    at every position. *)
Theorem mean_iou_noreduce_disjoint (alpha_pred alpha_real : tensor Q) :
  shape alpha_pred = shape alpha_real ->
  (2 <= ndim alpha_pred)%nat ->
  Forall (fun p => andb (Qgtb (fst p) half) (Qgtb (snd p) half) = false)
         (combine (data alpha_pred) (data alpha_real)) ->
  exists iou,
    mean_iou_noreduce alpha_pred alpha_real = Ok iou
    /\ shape iou = firstn (ndim alpha_pred - 2) (shape alpha_pred)
    /\ Forall (fun x => x == 0) (data iou).
Proof.
  intros Hs Hn Hdis. destruct alpha_pred as [sh dp], alpha_real as [sr dr].
  cbn [shape data] in *. subst sr. unfold ndim in *. cbn [shape] in *.
  assert (L : (length sh <? 2)%nat = false) by (apply Nat.ltb_ge; lia).
  unfold mean_iou_noreduce, sum_last2, sum_trailing, ndim, tmap.
  rewrite !zip_with_same_shape by reflexivity. cbn [bind shape data]. rewrite L.
  cbn [bind shape data].
  set (k := numel (skipn (length sh - 2) sh)).
  assert (Hz : Forall (fun b => b = false)
                 (map2 andb (map (fun x => Qgtb x half) dp) (map (fun x => Qgtb x half) dr))).
  { unfold map2. rewrite Forall_map. clear -Hdis. revert dr Hdis.
    induction dp as [|x dp IH]; intros [|y dr] H; cbn [map combine]; constructor.
    - inversion H; subst. assumption.
    - apply IH. now inversion H. }
  rewrite tdiv_ok; cbn [shape data]; [|reflexivity|].
  - eexists. split; [reflexivity|]. split; [reflexivity|]. cbn [data].
    rewrite map_map, map2_map_same, Forall_map. apply Forall_forall. intros i _.
    rewrite chunk_map, (Qsum_zero_entries _ (Forall_chunk _ k i _ Hz)).
    unfold Qdiv. ring.
  - rewrite !Forall_map. apply Forall_forall. intros i _.
    pose proof (Qsum_nonneg _ (Forall_chunk _ k i _ (bool_to_Q_nonneg
                  (map2 orb (map (fun x => Qgtb x half) dp)
                            (map (fun x => Qgtb x half) dr))))).
    pose proof eps6_pos. lra.
Qed.

Lemma mean_iou_noreduce_disjoint_witness :
  exists iou,
    mean_iou_noreduce (mkTensor [2; 2]%nat [1; 1; 0; 0]) (mkTensor [2; 2]%nat [0; 0; 1; 1])
    = Ok iou
    /\ shape iou = firstn (ndim (mkTensor [2; 2]%nat [1; 1; 0; 0]) - 2) [2; 2]%nat
    /\ Forall (fun x => x == 0) (data iou).
Proof.
  apply (mean_iou_noreduce_disjoint (mkTensor [2; 2]%nat [1; 1; 0; 0])
           (mkTensor [2; 2]%nat [0; 0; 1; 1])).
  - reflexivity.
  - unfold ndim. simpl. lia.
  - repeat constructor.
Defined.

(** ** Relations carried through the tensor operations *)

Lemma Forall2_chunk {A B : Type} (R : A -> B -> Prop) (k i : nat) l1 l2 :
  Forall2 R l1 l2 -> Forall2 R (chunk k i l1) (chunk k i l2).
Proof. intros H. unfold chunk. now apply Forall2_firstn, Forall2_skipn. Qed.

Lemma Forall2_nth {A B : Type} (R : A -> B -> Prop) (n : nat) l1 l2 (d1 : A) (d2 : B) :
  Forall2 R l1 l2 -> R d1 d2 -> R (nth n l1 d1) (nth n l2 d2).
Proof.
  intros H Hd. revert n. induction H; intros [|n]; simpl; auto.
Qed.

Lemma Forall2_map2 {A A' B B' C C' : Type}
    (R : A -> A' -> Prop) (S : B -> B' -> Prop) (T : C -> C' -> Prop)
    (f : A -> B -> C) (g : A' -> B' -> C') la la' lb lb' :
  (forall a a' b b', R a a' -> S b b' -> T (f a b) (g a' b')) ->
  Forall2 R la la' -> Forall2 S lb lb' ->
  Forall2 T (map2 f la lb) (map2 g la' lb').
Proof.
  intros H Ha. unfold map2. revert lb lb'.
  induction Ha as [|a a' la la' Haa _ IH]; intros lb lb' Hb; [constructor|].
  destruct Hb as [|b b' lb lb' Hbb Hb]; [constructor|].
  cbn [combine map fst snd]. constructor; auto.
Qed.

Lemma Forall2_same {A : Type} (R : A -> A -> Prop) (l : list A) :
  (forall x, R x x) -> Forall2 R l l.
Proof. intros H. induction l; constructor; auto. Qed.

Lemma Forall_nth_default {A : Type} (P : A -> Prop) (l : list A) (n : nat) (d : A) :
  Forall P l -> P d -> P (nth n l d).
Proof.
  intros H Hd. destruct (nth_in_or_default n l d) as [I| ->]; [|exact Hd].
  rewrite Forall_forall in H. now apply H.
Qed.

Lemma sum_compatible_Qeq : sum_compatible Qeq.
Proof. exact Qsum_Forall2. Qed.

Lemma sum_compatible_below : sum_compatible below.
Proof.
  intros l1 l2 H. unfold below. induction H as [|x y l1 l2 [H0 H1] _ [IH0 IH1]]; simpl; lra.
Qed.

Lemma sum_trailing_rel (R : Q -> Q -> Prop) (n : nat) (sh : list nat) (d1 d2 : list Q) :
  sum_compatible R -> Forall2 R d1 d2 ->
  (sum_trailing n (mkTensor sh d1) = Raise IndexError
   /\ sum_trailing n (mkTensor sh d2) = Raise IndexError)
  \/ exists pre r1 r2,
       sum_trailing n (mkTensor sh d1) = Ok (mkTensor pre r1)
       /\ sum_trailing n (mkTensor sh d2) = Ok (mkTensor pre r2)
       /\ Forall2 R r1 r2.
Proof.
  intros HR H. destruct (sum_trailing_spec n sh) as [S|(pre & k & S)]; rewrite !S.
  - now left.
  - right. do 3 eexists. split; [reflexivity|]. split; [reflexivity|].
    apply Forall2_map_seq. intros i _. apply HR. now apply Forall2_chunk.
Qed.

Lemma sum_last_rel (R : Q -> Q -> Prop) (sh : list nat) (d1 d2 : list Q) :
  sum_compatible R -> Forall2 R d1 d2 ->
  exists pre r1 r2,
    sum_last (mkTensor sh d1) = Ok (mkTensor pre r1)
    /\ sum_last (mkTensor sh d2) = Ok (mkTensor pre r2)
    /\ Forall2 R r1 r2.
Proof.
  intros HR H. unfold sum_last. cbn [shape]. destruct sh as [|s sh].
  - now exists [], d1, d2.
  - destruct (sum_trailing_rel R 1 (s :: sh) d1 d2 HR H) as [[E _]|X]; [|exact X].
    unfold sum_trailing, ndim in E. cbn [shape length Nat.ltb Nat.leb] in E. discriminate.
Qed.

(** An elementwise operation pairs up the same two lists whichever way round
    its tensors are given; properties of the entries (and of the padding
    value) carry over to the lists. *)
Lemma zip_with_lists {A : Type} (d : A) (P : A -> Prop) (a b : tensor A) :
  P d -> Forall P (data a) -> Forall P (data b) ->
  ((forall (C : Type) (f : A -> A -> C), zip_with d d f a b = Raise RuntimeError)
   /\ (forall (C : Type) (f : A -> A -> C), zip_with d d f b a = Raise RuntimeError))
  \/ exists sh la lb,
       Forall P la /\ Forall P lb
       /\ (forall (C : Type) (f : A -> A -> C),
             zip_with d d f a b = Ok (mkTensor sh (map2 f la lb)))
       /\ (forall (C : Type) (f : A -> A -> C),
             zip_with d d f b a = Ok (mkTensor sh (map2 f lb la))).
Proof.
  intros Hd Ha Hb. unfold zip_with. rewrite (shape_eqb_sym (shape b)).
  destruct (shape_eqb (shape a) (shape b)) eqn:E.
  - apply shape_eqb_eq in E. right. exists (shape a), (data a), (data b).
    rewrite E. repeat split; auto.
  - rewrite (broadcast_shapes_sym (shape b)).
    destruct (broadcast_shapes (shape a) (shape b)) as [sh|].
    + right. exists sh, (data (expand d a sh)), (data (expand d b sh)).
      repeat split; auto; unfold expand; cbn [data]; rewrite Forall_map;
        apply Forall_forall; intros i _; now apply Forall_nth_default.
    + left. split; reflexivity.
Qed.

Lemma Forall_map2_rel {A B C : Type} (R : A -> B -> Prop) (P : C -> Prop)
    (f : A -> B -> C) l1 l2 :
  (forall x y, R x y -> P (f x y)) -> Forall2 R l1 l2 -> Forall P (map2 f l1 l2).
Proof.
  intros H H2. unfold map2. induction H2; cbn [combine map fst snd]; constructor; auto.
Qed.

Lemma Forall2_map_r {A B C : Type} (R : A -> C -> Prop) (g : B -> C) l1 l2 :
  Forall2 (fun x y => R x (g y)) l1 l2 -> Forall2 R l1 (map g l2).
Proof. induction 1; cbn [map]; constructor; auto. Qed.

Lemma Forall2_length_eq {A B : Type} (R : A -> B -> Prop) l1 l2 :
  Forall2 R l1 l2 -> length l1 = length l2.
Proof. induction 1; simpl; congruence. Qed.

Lemma min_below_max (la lb : list Q) :
  Forall (fun x => 0 <= x) la -> Forall (fun x => 0 <= x) lb ->
  Forall2 below (map2 Qminb la lb) (map2 Qmaxb la lb).
Proof.
  intros Ha. revert lb. unfold map2.
  induction Ha as [|x la Hx _ IH]; intros lb Hb; [constructor|].
  destruct Hb as [|y lb Hy Hb]; [constructor|].
  cbn [combine map fst snd]. constructor; [|now apply IH].
  unfold below, Qminb, Qmaxb. qle_cases; lra.
Qed.

(** ** mean_miou_noreduce without balancing *)

(** In exact arithmetic, for masks with no negative entry, the ratio of
    [mean_miou_noreduce] with [balanced=False] stays below 1 and its
    denominator is never 0, broadcasting included. *)
Lemma mean_miou_noreduce_unbalanced_exact (pred target : tensor Q) :
  Forall (fun x => 0 <= x) (data pred) ->
  Forall (fun x => 0 <= x) (data target) ->
  (exists e, mean_miou_noreduce pred target false = Raise e)
  \/ exists iou, mean_miou_noreduce pred target false = Ok iou
                 /\ Forall (fun x => 0 <= x /\ x < 1) (data iou).
Proof.
  intros Hp Ht. unfold mean_miou_noreduce, sum_last2.
  destruct (zip_with_lists 0 (fun x => 0 <= x) pred target (Qle_refl 0) Hp Ht)
    as [[Z _]|(sh & la & lb & Ha & Hb & Z & _)]; rewrite !Z; cbn [bind]; [left; eauto|].
  destruct (sum_trailing_rel below 2 sh _ _ sum_compatible_below (min_below_max la lb Ha Hb))
    as [[E1 E2]|(pre & r1 & r2 & E1 & E2 & Hr)]; rewrite E1; cbn [bind]; [left; eauto|].
  rewrite E2. cbn [bind].
  destruct (sum_last_rel below pre r1 r2 sum_compatible_below Hr)
    as (pre' & s1 & s2 & F1 & F2 & Hs).
  rewrite F1, F2. cbn [bind]. right.
  pose proof eps6_pos as He.
  rewrite tdiv_ok; cbn [shape data tmap]; [|reflexivity|].
  - eexists. split; [reflexivity|]. cbn [data].
    apply (Forall_map2_rel (fun x z => 0 <= x /\ x + eps6 <= z)).
    + intros x z [H0 H1]. split.
      * apply Qle_shift_div_l; lra.
      * apply Qlt_shift_div_r; lra.
    + apply Forall2_map_r. eapply Forall2_impl; [|exact Hs].
      unfold below. intros x y [H0 H1]. lra.
  - rewrite Forall_map. apply Forall_forall. intros y Hy.
    assert (0 <= y); [|lra].
    clear -Hs Hy. induction Hs as [|a b l1 l2 [H0 H1] _ IH]; [contradiction|].
    destruct Hy as [<-|Hy]; [lra|auto].
Qed.

Lemma Forall_unit_nonneg (l : list Q) :
  Forall (fun x => 0 <= x /\ x <= 1) l -> Forall (fun x => 0 <= x) l.
Proof. apply Forall_impl. intros x [H _]. exact H. Qed.

(** X5.  For masks with entries between 0 and 1, [mean_miou_noreduce] with
    [balanced=False] never divides by zero, and whenever it returns every
    entry is at least 0 and at most 1, broadcasting included: the total
    intersection never exceeds the total union. *)
Theorem mean_miou_noreduce_unbalanced_range (pred target : tensor Q) :
  Forall (fun x => 0 <= x /\ x <= 1) (data pred) ->
  Forall (fun x => 0 <= x /\ x <= 1) (data target) ->
  (exists e, mean_miou_noreduce pred target false = Raise e)
  \/ exists iou, mean_miou_noreduce pred target false = Ok iou
                 /\ Forall (fun x => 0 <= x /\ x <= 1) (data iou).
Proof.
  intros Hp Ht.
  destruct (mean_miou_noreduce_unbalanced_exact pred target
              (Forall_unit_nonneg _ Hp) (Forall_unit_nonneg _ Ht)) as [E|(iou & E & R)].
  - now left.
  - right. exists iou. split; [exact E|].
    eapply Forall_impl; [|exact R]. intros x [H0 H1]. split; [exact H0|lra].
Qed.

Lemma mean_miou_noreduce_unbalanced_range_witness :
  (exists e, mean_miou_noreduce (mkTensor [1; 1; 2]%nat [3 # 10; 1])
                                (mkTensor [1; 1; 2]%nat [1 # 2; 1 # 4]) false = Raise e)
  \/ exists iou, mean_miou_noreduce (mkTensor [1; 1; 2]%nat [3 # 10; 1])
                                    (mkTensor [1; 1; 2]%nat [1 # 2; 1 # 4]) false = Ok iou
                 /\ Forall (fun x => 0 <= x /\ x <= 1) (data iou).
Proof.
  apply (mean_miou_noreduce_unbalanced_range (mkTensor [1; 1; 2]%nat [3 # 10; 1])
           (mkTensor [1; 1; 2]%nat [1 # 2; 1 # 4])).
  - repeat constructor; discriminate.
  - repeat constructor; discriminate.
Defined.

(** With a negative entry the ratio leaves that range. *)
Example mean_miou_noreduce_negative_entry :
  exists v, mean_miou_noreduce (mkTensor [1; 1; 1]%nat [-2]) (mkTensor [1; 1; 1]%nat [-1]) false
            = Ok (mkTensor [] [v])
            /\ 1 < v.
Proof. eexists. split; [vm_compute; reflexivity|reflexivity]. Qed.

Lemma map2_swap_rel {A C : Type} (T : C -> C -> Prop) (f : A -> A -> C) (la lb : list A) :
  (forall x y, T (f x y) (f y x)) -> Forall2 T (map2 f la lb) (map2 f lb la).
Proof.
  intros H. unfold map2. revert lb.
  induction la as [|x la IH]; intros [|y lb]; cbn [combine map fst snd]; constructor; auto.
Qed.

Lemma fdiv_rel (x x' y y' : Q) : x == x' -> y == y' -> reqQ (fdiv x y) (fdiv x' y').
Proof.
  intros Hx Hy. unfold fdiv.
  destruct (Qeq_bool y 0) eqn:E, (Qeq_bool y' 0) eqn:E'; cbn [reqQ]; auto.
  - apply Qeq_bool_iff in E. rewrite Hy in E. apply Qeq_bool_iff in E. congruence.
  - apply Qeq_bool_iff in E'. rewrite <- Hy in E'. apply Qeq_bool_iff in E'. congruence.
  - now rewrite Hx, Hy.
Qed.

Lemma sequence_fdiv_rel (l l' : list (Q * Q)) :
  Forall2 (fun p q => fst p == fst q /\ snd p == snd q) l l' ->
  match sequence (map (fun xy => fdiv (fst xy) (snd xy)) l),
        sequence (map (fun xy => fdiv (fst xy) (snd xy)) l') with
  | Ok a, Ok b => Forall2 Qeq a b
  | NonFinite, NonFinite => True
  | _, _ => False
  end.
Proof.
  induction 1 as [|p q l l' [H1 H2] _ IH]; cbn [map sequence]; [constructor|].
  pose proof (fdiv_rel _ _ _ _ H1 H2) as F.
  destruct (fdiv (fst p) (snd p)) as [a|e|] eqn:Ep, (fdiv (fst q) (snd q)) as [b|e'|] eqn:Eq;
    cbn [reqQ bind] in *; try contradiction; auto.
  - destruct (sequence (map _ l)) as [r| |], (sequence (map _ l')) as [r'| |];
      cbn [bind]; try contradiction; auto.
  - unfold fdiv in Ep. destruct (Qeq_bool (snd p) 0); discriminate.
Qed.

(** Elementwise operations respect relations between the entries. *)
Lemma zip_with_rel {A B C : Type} (R : A -> A -> Prop) (S : B -> B -> Prop)
    (T : C -> C -> Prop) (dA : A) (dB : B) (f : A -> B -> C)
    (a a' : tensor A) (b b' : tensor B) :
  (forall x x' y y', R x x' -> S y y' -> T (f x y) (f x' y')) ->
  R dA dA -> S dB dB ->
  shape a = shape a' -> Forall2 R (data a) (data a') ->
  shape b = shape b' -> Forall2 S (data b) (data b') ->
  (zip_with dA dB f a b = Raise RuntimeError /\ zip_with dA dB f a' b' = Raise RuntimeError)
  \/ exists sh r r',
       zip_with dA dB f a b = Ok (mkTensor sh r)
       /\ zip_with dA dB f a' b' = Ok (mkTensor sh r')
       /\ Forall2 T r r'.
Proof.
  intros Hf HdA HdB Ha Hda Hb Hdb. unfold zip_with. rewrite <- Ha, <- Hb.
  destruct (shape_eqb (shape a) (shape b)).
  - right. do 3 eexists. split; [reflexivity|]. split; [reflexivity|].
    now apply (Forall2_map2 R S T).
  - destruct (broadcast_shapes (shape a) (shape b)) as [sh|]; [|now left].
    right. do 3 eexists. split; [reflexivity|]. split; [reflexivity|].
    apply (Forall2_map2 R S T); auto; unfold expand; cbn [data]; rewrite <- ?Ha, <- ?Hb;
      apply Forall2_map_seq; intros i _; now apply Forall2_nth.
Qed.

Lemma tdiv_rel (a a' b b' : tensor Q) :
  teq a a' -> teq b b' -> req (tdiv a b) (tdiv a' b').
Proof.
  intros [Sa Da] [Sb Db]. unfold tdiv.
  destruct (zip_with_rel Qeq Qeq (fun p q => fst p == fst q /\ snd p == snd q)
              0 0 pair a a' b b') as [[E E']|(sh & r & r' & E & E' & H)];
    auto; try reflexivity; rewrite E, E'; cbn [bind req]; [reflexivity|].
  cbn [shape data]. pose proof (sequence_fdiv_rel r r' H) as F.
  destruct (sequence (map _ r)) as [x| |], (sequence (map _ r')) as [x'| |];
    cbn [bind req]; try contradiction; auto.
  split; [reflexivity|exact F].
Qed.

Lemma tmean_rel (a a' : tensor Q) :
  Forall2 Qeq (data a) (data a') -> reqQ (tmean a) (tmean a').
Proof.
  intros H. unfold tmean. rewrite (Forall2_length_eq _ _ _ H).
  apply fdiv_rel; [now apply Qsum_Forall2|reflexivity].
Qed.

Lemma Qminb_comm (x y : Q) : Qminb x y == Qminb y x.
Proof. unfold Qminb. qle_cases; lra. Qed.

Lemma Qmaxb_comm (x y : Q) : Qmaxb x y == Qmaxb y x.
Proof. unfold Qmaxb. qle_cases; lra. Qed.

(** X6.  [mean_miou_noreduce] with [balanced=False] is symmetric in its two
    masks: for every pair of inputs the two calls raise the same exception,
    are both non-finite, or return tensors of one shape with equal entries. *)
Theorem mean_miou_noreduce_unbalanced_sym (pred target : tensor Q) :
  req (mean_miou_noreduce pred target false) (mean_miou_noreduce target pred false).
Proof.
  unfold mean_miou_noreduce, sum_last2.
  destruct (zip_with_lists 0 (fun _ => True) pred target I)
    as [[Z Z']|(sh & la & lb & _ & _ & Z & Z')];
    try (apply Forall_forall; intros; exact I);
    rewrite !Z, !Z'; cbn [bind req]; [reflexivity|].
  destruct (sum_trailing_rel Qeq 2 sh _ _ sum_compatible_Qeq
              (map2_swap_rel Qeq Qminb la lb Qminb_comm))
    as [[E1 E2]|(pre & r1 & r2 & E1 & E2 & Hr)]; rewrite E1, E2; cbn [bind req];
    [reflexivity|].
  destruct (sum_trailing_rel Qeq 2 sh _ _ sum_compatible_Qeq
              (map2_swap_rel Qeq Qmaxb la lb Qmaxb_comm))
    as [[F1 F2]|(pre' & u1 & u2 & F1 & F2 & Hu)]; rewrite F1, F2; cbn [bind req];
    [reflexivity|].
  assert (pre' = pre).
  { destruct (sum_trailing_spec 2 sh) as [S|(p & k & S)];
      rewrite S in E1, F1; [discriminate|]. congruence. }
  subst pre'.
  destruct (sum_last_rel Qeq pre r1 r2 sum_compatible_Qeq Hr) as (p1 & s1 & s2 & G1 & G2 & Hs).
  destruct (sum_last_rel Qeq pre u1 u2 sum_compatible_Qeq Hu) as (p2 & v1 & v2 & K1 & K2 & Hv).
  rewrite G1, G2, K1, K2. cbn [bind].
  apply tdiv_rel.
  - split; [reflexivity|exact Hs].
  - split; [reflexivity|]. unfold tmap. cbn [data].
    clear -Hv. induction Hv; cbn [map]; constructor; auto. now rewrite H.
Qed.

(** ** geodesic_distance: sign, range, invalid samples *)

Lemma geodesic_distance_select (p t : tensor Q) (rc : bool) :
  shape p = shape t ->
  geodesic_distance p t rc
  = (prod <- tmul p t ;; s <- sum_last prod ;;
     geodesic_select (tmap (fun x => 1 - x ^ 2) s) t rc).
Proof.
  intros H. unfold geodesic_distance, geodesic_select. now rewrite H, shape_eqb_refl.
Qed.

Lemma select_rel {A B : Type} (R : A -> B -> Prop) (l1 : list A) (l2 : list B)
    (m : list bool) :
  Forall2 R l1 l2 ->
  Forall2 R (map fst (filter snd (combine l1 m))) (map fst (filter snd (combine l2 m))).
Proof.
  intros H. revert m. induction H as [|x y l1 l2 Hxy _ IH]; intros [|b m];
    cbn [combine filter map]; try constructor.
  destruct b; cbn [snd map fst]; [constructor; auto|auto].
Qed.

Lemma geodesic_select_rel (R1 R2 t : tensor Q) (rc : bool) :
  teq R1 R2 -> gd_equiv (geodesic_select R1 t rc) (geodesic_select R2 t rc).
Proof.
  intros [Hs Hd]. unfold geodesic_select.
  destruct (select_col 0 t) as [col|e|]; cbn [bind gd_equiv]; auto.
  destruct (count_true _ =? 0)%nat.
  - destruct rc; cbn [gd_equiv]; [split|]; reflexivity.
  - unfold masked_select. rewrite <- Hs.
    destruct (shape_eqb (shape R1) _); cbn [bind gd_equiv]; auto.
    pose proof (tmean_rel
                  (mkTensor [length (map fst (filter snd (combine (data R1)
                     (data (tmap (fun x => Qneb x (-1000)) col)))))]
                     (map fst (filter snd (combine (data R1)
                        (data (tmap (fun x => Qneb x (-1000)) col))))))
                  (mkTensor [length (map fst (filter snd (combine (data R2)
                     (data (tmap (fun x => Qneb x (-1000)) col)))))]
                     (map fst (filter snd (combine (data R2)
                        (data (tmap (fun x => Qneb x (-1000)) col))))))
                  (select_rel Qeq _ _ _ Hd)) as F.
    destruct (tmean _) as [a| |], (tmean _) as [b| |]; cbn [reqQ bind gd_equiv] in *;
      try contradiction; auto.
    destruct rc; cbn [gd_equiv]; auto.
Qed.

Lemma sum_compatible_opposite : sum_compatible opposite.
Proof.
  intros l1 l2 H. unfold opposite in *.
  induction H as [|x y l1 l2 Hxy _ IH]; simpl; [reflexivity|]. rewrite Hxy, IH. ring.
Qed.

(** X7.  [geodesic_distance] does not see the sign of the predictions: [q]
    and [-q] are the same rotation and negating every entry of
    [predicted_rotations] gives the same count and distance, or the same
    failure, for every pair of inputs. *)
Theorem geodesic_distance_sign (predicted_rotations target_rotations : tensor Q)
    (return_count : bool) :
  gd_equiv (geodesic_distance (tmap Qopp predicted_rotations) target_rotations return_count)
           (geodesic_distance predicted_rotations target_rotations return_count).
Proof.
  destruct predicted_rotations as [sp dp], target_rotations as [st dt].
  destruct (list_eq_dec Nat.eq_dec sp st) as [E|E].
  - subst st. change (tmap Qopp (mkTensor sp dp)) with (mkTensor sp (map Qopp dp)).
    rewrite !geodesic_distance_select by reflexivity.
    unfold tmul. cbn [shape data].
    rewrite !zip_with_same_shape by reflexivity. cbn [bind shape data].
    assert (H : Forall2 opposite (map2 Qmult (map Qopp dp) dt) (map2 Qmult dp dt)).
    { unfold map2, opposite. clear. revert dt.
      induction dp as [|x dp IH]; intros [|y dt]; cbn [map combine fst snd]; constructor.
      - ring.
      - apply IH. }
    destruct (sum_last_rel opposite sp _ _ sum_compatible_opposite H)
      as (pre & r1 & r2 & E1 & E2 & Hr).
    rewrite E1, E2. cbn [bind]. apply geodesic_select_rel.
    split; [reflexivity|]. unfold tmap. cbn [data].
    clear -Hr. induction Hr as [|x y l1 l2 Hxy _ IH]; cbn [map]; constructor; auto.
    unfold opposite in Hxy. simpl. rewrite Hxy. ring.
  - unfold geodesic_distance, tmap. cbn [shape data].
    rewrite (shape_eqb_neq _ _ E). reflexivity.
Qed.

Lemma combine_skipn {A B : Type} (n : nat) (l : list A) (l' : list B) :
  combine (skipn n l) (skipn n l') = skipn n (combine l l').
Proof.
  revert l l'. induction n as [|n IH]; intros [|x l] [|y l']; cbn [skipn combine];
    try reflexivity; auto.
  now destruct (skipn n l).
Qed.

Lemma chunk_map2 {A B C : Type} (f : A -> B -> C) (k i : nat) l1 l2 :
  chunk k i (map2 f l1 l2) = map2 f (chunk k i l1) (chunk k i l2).
Proof.
  unfold chunk, map2. now rewrite <- combine_firstn, combine_skipn, skipn_map, firstn_map.
Qed.

(** [target[:, 0]] of a 2-dimensional tensor: the first component of each row. *)
Lemma select_col0_rows (N d : nat) (dt : list Q) :
  length dt = (N * d)%nat -> (0 < d)%nat ->
  select_col 0 (mkTensor [N; d] dt)
  = Ok (mkTensor [N] (map (fun i => nth 0 (chunk d i dt) 0) (seq 0 N))).
Proof.
  intros Hl Hd. unfold select_col. cbn [shape data].
  destruct (Nat.leb_spec d 0) as [?|_]; [lia|]. cbn [numel fold_right]. do 2 f_equal.
  rewrite <- flat_map_singleton. apply flat_map_ext_on.
  intros b Hb. apply in_seq in Hb. rewrite Nat.add_0_r.
  rewrite (chunk_one _ _ 0), nth_chunk by nia. now rewrite Nat.add_0_r.
Qed.

(** The per-sample distances of two 2-dimensional tensors of one shape. *)
Lemma geodesic_distance_rows (p t : tensor Q) (N d : nat) (rc : bool) :
  shape p = [N; d] -> shape t = [N; d] -> wf t -> (0 < d)%nat ->
  geodesic_distance p t rc
  = geodesic_select
      (mkTensor [N] (map (fun i => 1 - dot (row p i) (row t i) ^ 2) (seq 0 N))) t rc.
Proof.
  intros Hp Ht Hwf Hd. rewrite geodesic_distance_select by congruence.
  destruct p as [sp dp], t as [st dt]. cbn [shape data] in *. subst sp st.
  unfold tmul. rewrite zip_with_same_shape by reflexivity. cbn [bind shape data].
  unfold sum_last, sum_trailing, ndim.
  cbn [shape data length Nat.ltb Nat.leb Nat.sub firstn skipn numel fold_right bind].
  rewrite !Nat.mul_1_r. unfold tmap, row, dot. cbn [shape data nth]. rewrite map_map.
  do 2 f_equal. apply map_ext. intros i. now rewrite chunk_map2.
Qed.

Lemma select_map_seq_agree {A : Type} (F F' : nat -> A) (M : nat -> bool) (s : list nat) :
  (forall i, In i s -> M i = true -> F i = F' i) ->
  map fst (filter snd (combine (map F s) (map M s)))
  = map fst (filter snd (combine (map F' s) (map M s))).
Proof.
  induction s as [|i s IH]; intros H; [reflexivity|].
  cbn [map combine filter snd]. destruct (M i) eqn:E; cbn [map fst].
  - rewrite (H i (or_introl eq_refl) E). f_equal. apply IH. intros j Hj. apply H. now right.
  - apply IH. intros j Hj. apply H. now right.
Qed.

Lemma select_map_seq_Forall {A : Type} (P : A -> Prop) (F : nat -> A) (M : nat -> bool)
    (s : list nat) :
  (forall i, In i s -> M i = true -> P (F i)) ->
  Forall P (map fst (filter snd (combine (map F s) (map M s)))).
Proof.
  induction s as [|i s IH]; intros H; [constructor|].
  cbn [map combine filter snd]. destruct (M i) eqn:E; cbn [map fst].
  - constructor; [now apply H; [left|]|]. apply IH. intros j Hj. apply H. now right.
  - apply IH. intros j Hj. apply H. now right.
Qed.

(** X8.  Samples whose target carries the sentinel are excluded entirely: two
    predictions that agree on the rows whose target is valid give the same
    result, whatever stands in the other rows. *)
Theorem geodesic_distance_invalid_rows (p p' t : tensor Q) (N d : nat) (rc : bool) :
  shape p = [N; d] -> shape p' = [N; d] -> shape t = [N; d] -> wf t -> (0 < d)%nat ->
  (forall i, (i < N)%nat -> ~ nth 0 (row t i) 0 == -1000 -> row p i = row p' i) ->
  geodesic_distance p t rc = geodesic_distance p' t rc.
Proof.
  intros Hp Hp' Ht Hwf Hd Hrows.
  rewrite (geodesic_distance_rows p t N d rc Hp Ht Hwf Hd).
  rewrite (geodesic_distance_rows p' t N d rc Hp' Ht Hwf Hd).
  destruct t as [st dt]. cbn [shape] in Ht. subst st.
  unfold wf in Hwf. cbn [shape data numel fold_right] in Hwf. rewrite Nat.mul_1_r in Hwf.
  unfold geodesic_select. rewrite (select_col0_rows N d dt Hwf Hd). cbn [bind].
  unfold tmap. cbn [shape data]. rewrite map_map.
  destruct (count_true _ =? 0)%nat; [reflexivity|].
  unfold masked_select. cbn [shape data]. rewrite shape_eqb_refl.
  rewrite (select_map_seq_agree
             (fun i => 1 - dot (row p i) (row (mkTensor [N; d] dt) i) ^ 2)
             (fun i => 1 - dot (row p' i) (row (mkTensor [N; d] dt) i) ^ 2)); [reflexivity|].
  intros i Hi Hm. apply in_seq in Hi. rewrite (Hrows i); [reflexivity|lia|].
  unfold row. cbn [shape data nth]. unfold Qneb in Hm.
  intros C. apply Qeq_bool_iff in C. rewrite C in Hm. discriminate.
Qed.

Lemma geodesic_distance_invalid_rows_witness :
  geodesic_distance (mkTensor [2; 2]%nat [1; 0; 5; 7])
                    (mkTensor [2; 2]%nat [0; 1; -1000; 0]) true
  = geodesic_distance (mkTensor [2; 2]%nat [1; 0; 0; 0])
                      (mkTensor [2; 2]%nat [0; 1; -1000; 0]) true.
Proof.
  apply (geodesic_distance_invalid_rows (mkTensor [2; 2]%nat [1; 0; 5; 7])
           (mkTensor [2; 2]%nat [1; 0; 0; 0]) (mkTensor [2; 2]%nat [0; 1; -1000; 0]) 2 2 true).
  - reflexivity.
  - reflexivity.
  - reflexivity.
  - reflexivity.
  - lia.
  - intros i Hi Hv. destruct i as [|[|i]]; [reflexivity| |lia].
    exfalso. apply Hv. reflexivity.
Defined.

Lemma Qsquare_nonneg (w : Q) : 0 <= w * w.
Proof.
  destruct (Qlt_le_dec w 0).
  - setoid_replace (w * w) with ((- w) * (- w)) by ring. apply Qmult_le_0_compat; lra.
  - apply Qmult_le_0_compat; lra.
Qed.

Lemma select_Forall {A : Type} (P : A -> Prop) (l : list A) (m : list bool) :
  Forall P l -> Forall P (map fst (filter snd (combine l m))).
Proof.
  intros H. revert m. induction H as [|x l Hx _ IH]; intros [|b m]; cbn [combine filter map];
    try constructor.
  destruct b; cbn [snd map fst]; [constructor; auto|auto].
Qed.

Lemma Qsum_le_length (l : list Q) : Forall (fun x => x <= 1) l -> Qsum l <= Qnat (length l).
Proof.
  unfold Qnat, Qsum. induction 1 as [|x l Hx _ IH]; cbn [fold_right length].
  - apply Qle_refl.
  - rewrite Nat2Z.inj_succ, <- Z.add_1_l, inject_Z_plus. change (inject_Z 1) with 1. lra.
Qed.

(** X9.  The distance [geodesic_distance] returns never exceeds 1, for every
    pair of inputs: each per-sample distance is 1 minus a square, and the
    result is a mean of them (or 0). *)
Theorem geodesic_distance_le_one (p t : tensor Q) (rc : bool) (v : gd_value) :
  geodesic_distance p t rc = Ok v -> gd_of v <= 1.
Proof.
  unfold geodesic_distance.
  destruct (negb (shape_eqb (shape p) (shape t))); [discriminate|].
  destruct (tmul p t) as [pr| |]; cbn [bind]; try discriminate.
  destruct (sum_last pr) as [s| |]; cbn [bind]; try discriminate.
  destruct (select_col 0 t) as [col| |]; cbn [bind]; try discriminate.
  destruct (count_true _ =? 0)%nat.
  { destruct rc; intros E; injection E as <-; cbn [gd_of]; discriminate. }
  unfold masked_select.
  destruct (shape_eqb _ _); cbn [bind]; [|discriminate].
  unfold tmean, fdiv. cbn [data].
  match goal with |- context [Qsum ?l] => set (sel := l) end.
  assert (Hsel : Forall (fun x => x <= 1) sel).
  { subst sel. apply select_Forall. unfold tmap. cbn [data]. rewrite Forall_map.
    apply Forall_forall. intros x _. pose proof (Qsquare_nonneg x). simpl. lra. }
  destruct (Qeq_bool (Qnat (length sel)) 0) eqn:Z; cbn [bind]; [discriminate|].
  assert (P : 0 < Qnat (length sel)).
  { pose proof (Qnat_nonneg (length sel)) as N. apply Qle_lteq in N.
    destruct N as [N|N]; [exact N|]. symmetry in N. apply Qeq_bool_iff in N. congruence. }
  assert (G : Qsum sel / Qnat (length sel) <= 1).
  { apply Qle_shift_div_r; [exact P|]. rewrite Qmult_1_l. now apply Qsum_le_length. }
  destruct rc; intros E; injection E as <-; cbn [gd_of]; exact G.
Qed.

Lemma geodesic_distance_le_one_witness : gd_of (GDCount (400 # 625) 1) <= 1.
Proof.
  apply (geodesic_distance_le_one
           (mkTensor [2; 2]%nat [1; 0; 5; 7]) (mkTensor [2; 2]%nat [3 # 5; 4 # 5; -1000; 0])
           true).
  vm_compute. reflexivity.
Defined.

(** ** loss_flat: sign, indices into the faces *)

Lemma loss_flat_edge_nonneg (mesh : Mesh) (norms : tensor Q) (i : nat) (m : Q) :
  loss_flat_edge mesh norms i = Ok m -> 0 <= m.
Proof.
  unfold loss_flat_edge.
  destruct (select_col i (ff mesh)) as [idx| |]; cbn [bind]; try discriminate.
  destruct (index_dim1 norms idx) as [n2| |]; cbn [bind]; try discriminate.
  destruct (tmul norms n2) as [pr| |]; cbn [bind]; try discriminate.
  destruct (sum_last pr) as [c| |]; cbn [bind]; try discriminate.
  unfold tmean, tmap, fdiv. cbn [data]. rewrite length_map.
  destruct (Qeq_bool (Qnat (length (data c))) 0) eqn:Z; [discriminate|].
  intros E. injection E as <-.
  assert (P : 0 < Qnat (length (data c))).
  { destruct (length (data c)) eqn:L; [discriminate Z|].
    unfold Qnat. change 0 with (inject_Z 0). rewrite <- Zlt_Qlt. lia. }
  apply Qle_shift_div_l; [exact P|]. rewrite Qmult_0_l.
  apply Qsum_nonneg. rewrite Forall_map. apply Forall_forall. intros x _.
  simpl. apply Qsquare_nonneg.
Qed.

(** X10.  Whenever [loss_flat] returns a number, it is not negative, for every
    mesh and every tensor of normals. *)
Theorem loss_flat_nonneg (mesh : Mesh) (norms : tensor Q) (v : Q) :
  loss_flat mesh norms = Ok v -> 0 <= v.
Proof.
  unfold loss_flat. cbn [fold_left bind_nf].
  destruct (loss_flat_edge mesh norms 0) as [m0|e0|] eqn:E0; cbn [bind bind_nf].
  - destruct (loss_flat_edge mesh norms 1) as [m1|e1|] eqn:E1; cbn [bind bind_nf].
    + destruct (loss_flat_edge mesh norms 2) as [m2|e2|] eqn:E2; cbn [bind bind_nf].
      * destruct (shape (faces mesh)) as [|nf sf]; [discriminate|].
        intros E. injection E as <-.
        apply loss_flat_edge_nonneg in E0, E1, E2.
        assert (0 <= Qnat nf / 2).
        { apply Qle_shift_div_l; [reflexivity|]. rewrite Qmult_0_l.
          unfold Qnat. change 0 with (inject_Z 0). rewrite <- Zle_Qle. lia. }
        apply Qmult_le_0_compat; lra.
      * discriminate.
      * destruct (shape (faces mesh)); discriminate.
    + discriminate.
    + destruct (loss_flat_edge mesh norms 2) as [m2|e2|]; cbn [bind bind_nf]; try discriminate;
        destruct (shape (faces mesh)); discriminate.
  - discriminate.
  - destruct (loss_flat_edge mesh norms 1) as [m1|e1|]; cbn [bind bind_nf]; try discriminate;
      destruct (loss_flat_edge mesh norms 2) as [m2|e2|]; cbn [bind bind_nf]; try discriminate;
      destruct (shape (faces mesh)); discriminate.
Qed.

Lemma loss_flat_nonneg_witness : 0 <= 0 # 16.
Proof.
  apply (loss_flat_nonneg
           (mkMesh (mkTensor [2; 3]%nat [0; 1; 2; 2; 1; 0]%Z) ff_two_faces)
           (mkTensor [1; 2; 3]%nat [0; 0; 1; 0; 0; 1])).
  vm_compute. reflexivity.
Defined.

Ltac zb_cases :=
  repeat match goal with
         | |- context [(?a <=? ?b)%Z] => destruct (Z.leb_spec a b)
         | |- context [(?a <? ?b)%Z] => destruct (Z.ltb_spec a b)
         end; cbn [andb]; try reflexivity; try lia.

Lemma norm_index_wrap (d : nat) (z : Z) : norm_index d (wrap_index d z) = norm_index d z.
Proof.
  unfold wrap_index.
  destruct ((- Z.of_nat d <=? z) && (z <? 0))%Z eqn:E; [|reflexivity].
  apply andb_true_iff in E. destruct E as [A B].
  apply Z.leb_le in A. apply Z.ltb_lt in B.
  unfold norm_index. zb_cases.
Qed.

Lemma traverse_map {A B C : Type} (g : A -> B) (f : B -> option C) (l : list A) :
  traverse f (map g l) = traverse (fun a => f (g a)) l.
Proof. induction l as [|a l IH]; cbn [map traverse]; [reflexivity|]. now rewrite IH. Qed.

Lemma traverse_ext {A B : Type} (f g : A -> option B) (l : list A) :
  (forall a, f a = g a) -> traverse f l = traverse g l.
Proof.
  intros H. induction l as [|a l IH]; cbn [traverse]; [reflexivity|]. now rewrite H, IH.
Qed.

Lemma flat_map_map_chunk {A B : Type} (f : A -> B) (r : nat) (g : nat -> nat)
    (d : list A) (s : list nat) :
  flat_map (fun b => chunk r (g b) (map f d)) s = map f (flat_map (fun b => chunk r (g b) d) s).
Proof.
  induction s as [|b s IH]; cbn [flat_map]; [reflexivity|].
  now rewrite map_app, chunk_map, IH.
Qed.

Lemma select_col_tmap {A B : Type} (f : A -> B) (c : nat) (t : tensor A) :
  select_col c (tmap f t)
  = match select_col c t with
    | Ok s => Ok (tmap f s)
    | Raise e => Raise e
    | NonFinite => NonFinite
    end.
Proof.
  unfold select_col, tmap. cbn [shape data].
  destruct (shape t) as [|d0 [|d1 rest]]; try reflexivity.
  destruct (d1 <=? c)%nat; [reflexivity|]. cbn [shape data].
  now rewrite flat_map_map_chunk.
Qed.

Lemma index_dim1_wrap {A : Type} (t : tensor A) (idx : tensor Z) :
  index_dim1 t (tmap (wrap_index (nth 1 (shape t) 0%nat)) idx) = index_dim1 t idx.
Proof.
  unfold index_dim1, tmap. cbn [shape data].
  destruct (shape t) as [|d0 [|d1 rest]]; try reflexivity. cbn [nth].
  rewrite traverse_map, (traverse_ext _ _ _ (norm_index_wrap d1)). reflexivity.
Qed.

(** X11.  A negative entry of [ff] is not a "no neighbour" mark to
    [loss_flat]: down to minus the number of faces of [norms] it is an index
    counted from the end ([-1] is the last face), and the loss is the one of
    the adjacency with those entries written out. *)
Theorem loss_flat_negative_index (mesh : Mesh) (norms : tensor Q) :
  loss_flat (mkMesh (faces mesh) (tmap (wrap_index (nth 1 (shape norms) 0%nat)) (ff mesh)))
            norms
  = loss_flat mesh norms.
Proof.
  assert (E : forall i,
             loss_flat_edge
               (mkMesh (faces mesh) (tmap (wrap_index (nth 1 (shape norms) 0%nat)) (ff mesh)))
               norms i
             = loss_flat_edge mesh norms i).
  { intros i. unfold loss_flat_edge. cbn [ff]. rewrite select_col_tmap.
    destruct (select_col i (ff mesh)) as [idx|e|]; cbn [bind]; try reflexivity.
    now rewrite index_dim1_wrap. }
  unfold loss_flat. cbn [fold_left faces]. now rewrite !E.
Qed.

(** On a mesh of two faces, the entry -1 counts as face 1. *)
Example loss_flat_minus_one :
  loss_flat (mkMesh (mkTensor [2; 3]%nat [0; 1; 2; 2; 1; 0]%Z)
                    (mkTensor [2; 3]%nat [-1; -1; -1; 0; 0; 0]%Z))
            (mkTensor [1; 2; 3]%nat [1; 0; 0; 0; 1; 0])
  = loss_flat (mkMesh (mkTensor [2; 3]%nat [0; 1; 2; 2; 1; 0]%Z)
                      (mkTensor [2; 3]%nat [1; 1; 1; 0; 0; 0]%Z))
              (mkTensor [1; 2; 3]%nat [1; 0; 0; 0; 1; 0]).
Proof. reflexivity. Qed.

Lemma traverse_none {A B : Type} (f : A -> option B) (l : list A) (a : A) :
  In a l -> f a = None -> traverse f l = None.
Proof.
  intros Hin Ha. induction l as [|x l IH]; [contradiction|]. cbn [traverse].
  destruct Hin as [->|Hin].
  - now rewrite Ha.
  - rewrite (IH Hin). now destruct (f x).
Qed.

Lemma norm_index_out_of_range (d : nat) (z : Z) :
  (z < - Z.of_nat d \/ Z.of_nat d <= z)%Z -> norm_index d z = None.
Proof.
  intros H. unfold norm_index.
  destruct (0 <=? z)%Z eqn:A, (z <? Z.of_nat d)%Z eqn:B; cbn [andb];
    try (apply Z.leb_le in A); try (apply Z.leb_gt in A);
    try (apply Z.ltb_lt in B); try (apply Z.ltb_ge in B); try lia;
    destruct (- Z.of_nat d <=? z)%Z eqn:C, (z <? 0)%Z eqn:D; cbn [andb]; try reflexivity;
    try (apply Z.leb_le in C); try (apply Z.ltb_lt in D); lia.
Qed.

Lemma loss_flat_edge_raises (mesh : Mesh) (norms : tensor Q) (i : nat) (e : exn) :
  (i < 3)%nat -> loss_flat_edge mesh norms i = Raise e ->
  exists e', loss_flat mesh norms = Raise e'.
Proof.
  intros Hi E. unfold loss_flat. cbn [fold_left bind_nf].
  destruct i as [|[|[|i]]]; [| | |lia].
  - rewrite E. cbn [bind bind_nf]. eauto.
  - destruct (loss_flat_edge mesh norms 0) as [m0|e0|]; cbn [bind bind_nf]; eauto;
      rewrite E; cbn [bind bind_nf]; eauto.
  - destruct (loss_flat_edge mesh norms 0) as [m0|e0|]; cbn [bind bind_nf]; eauto;
      destruct (loss_flat_edge mesh norms 1) as [m1|e1|]; cbn [bind bind_nf]; eauto;
      rewrite E; cbn [bind bind_nf]; eauto.
Qed.

(** X12.  On normals that have entries, an entry of one of the three columns
    of [ff] that is no index of a face, neither below the number of faces nor
    a negative one down to minus that number, makes [loss_flat] raise: no
    loss is returned for an adjacency that points outside the normals.  (On
    normals without entries nothing is read and no index is checked.) *)
Theorem loss_flat_index_out_of_range (mesh : Mesh) (norms : tensor Q)
    (B F : nat) (rest : list nat) (i : nat) (idx : tensor Z) (z : Z) :
  shape norms = B :: F :: rest ->
  (0 < B * numel rest)%nat ->
  (i < 3)%nat ->
  select_col i (ff mesh) = Ok idx ->
  In z (data idx) ->
  (z < - Z.of_nat F \/ Z.of_nat F <= z)%Z ->
  exists e, loss_flat mesh norms = Raise e.
Proof.
  intros Hs Hne Hi Hidx Hin Hz. apply (loss_flat_edge_raises mesh norms i IndexError Hi).
  unfold loss_flat_edge. rewrite Hidx. cbn [bind]. unfold index_dim1. rewrite Hs.
  replace (B * numel rest =? 0)%nat with false by (symmetry; apply Nat.eqb_neq; lia).
  now rewrite (traverse_none _ _ z Hin (norm_index_out_of_range F z Hz)).
Qed.

Lemma loss_flat_index_out_of_range_witness :
  exists e,
    loss_flat (mkMesh (mkTensor [2; 3]%nat [0; 1; 2; 2; 1; 0]%Z)
                      (mkTensor [2; 3]%nat [1; 1; 2; 0; 0; 0]%Z))
              (mkTensor [1; 2; 3]%nat [1; 0; 0; 0; 1; 0]) = Raise e.
Proof.
  apply (loss_flat_index_out_of_range
           (mkMesh (mkTensor [2; 3]%nat [0; 1; 2; 2; 1; 0]%Z)
                   (mkTensor [2; 3]%nat [1; 1; 2; 0; 0; 0]%Z))
           (mkTensor [1; 2; 3]%nat [1; 0; 0; 0; 1; 0]) 1 2 [3%nat] 2
           (mkTensor [2]%nat [2; 0]%Z) 2%Z).
  - reflexivity.
  - cbn. lia.
  - lia.
  - reflexivity.
  - now left.
  - lia.
Defined.

(** On normals without entries the indices are not checked: with an entry of
    [ff] out of range the three terms are means of [(0 - 1)^2] over the two
    faces (the loss is 3), or means over nothing. *)
Example loss_flat_no_entries :
  (exists v, loss_flat (mkMesh (mkTensor [2; 3]%nat [0; 1; 2; 2; 1; 0]%Z)
                               (mkTensor [2; 3]%nat [1; 1; 2; 0; 0; 0]%Z))
                       (mkTensor [1; 2; 0]%nat []) = Ok v /\ v == 3)
  /\ loss_flat (mkMesh (mkTensor [2; 3]%nat [0; 1; 2; 2; 1; 0]%Z)
                       (mkTensor [2; 3]%nat [1; 1; 2; 0; 0; 0]%Z))
               (mkTensor [0; 2; 3]%nat []) = NonFinite.
Proof. split; [eexists; split; [vm_compute; reflexivity|reflexivity]|reflexivity]. Qed.

(** ** LaplacianLoss.forward: sign *)

Lemma sum_trailing_nonneg (n : nat) (t s : tensor Q) :
  Forall (fun v => 0 <= v) (data t) -> sum_trailing n t = Ok s ->
  Forall (fun v => 0 <= v) (data s).
Proof.
  intros H. unfold sum_trailing. destruct (ndim t <? n)%nat; [discriminate|].
  intros E. injection E as <-. cbn [data]. rewrite Forall_map. apply Forall_forall.
  intros i _. apply Qsum_nonneg. now apply Forall_chunk.
Qed.

Lemma Forall_squares (l : list Q) : Forall (fun v => 0 <= v) (map (fun v => v ^ 2) l).
Proof.
  rewrite Forall_map. apply Forall_forall. intros v _.
  change (0 <= v * v). apply Qsquare_nonneg.
Qed.

Lemma fdiv_nonneg (x y g : Q) : 0 <= x -> 0 <= y -> fdiv x y = Ok g -> 0 <= g.
Proof.
  intros Hx Hy. unfold fdiv. destruct (Qeq_bool y 0) eqn:Z; [discriminate|].
  intros E. injection E as <-.
  assert (P : 0 < y).
  { apply Qle_lteq in Hy. destruct Hy as [Hy|Hy]; [exact Hy|].
    symmetry in Hy. apply Qeq_bool_iff in Hy. congruence. }
  apply Qle_shift_div_l; [exact P|]. now rewrite Qmult_0_l.
Qed.

(** X13.  For a Laplacian matrix and any input, every entry [forward]
    returns is nonnegative, with and without averaging: the loss is a sum of
    squares. *)
Theorem forward_nonneg (self : LaplacianLoss) (x y : tensor Q) :
  ndim (laplacian self) = 2%nat ->
  forward self x = Ok y -> Forall (fun v => 0 <= v) (data y).
Proof.
  intros _. unfold forward. destruct (shape x) as [|batch_size sh]; [discriminate|].
  destruct (matmul (laplacian self) x) as [x'| |]; cbn [bind]; try discriminate.
  assert (S : forall n s, sum_trailing n (tmap (fun v => v ^ 2) x') = Ok s ->
                          Forall (fun v => 0 <= v) (data s)).
  { intros n s. apply sum_trailing_nonneg. unfold tmap. cbn [data]. apply Forall_squares. }
  destruct (if (ndim x' =? 1)%nat
            then sum_trailing 1 (tmap (fun v => v ^ 2) x')
            else sum_trailing (ndim x' - 1) (tmap (fun v => v ^ 2) x')) as [s| |] eqn:E;
    cbn [bind]; try discriminate.
  assert (Hs : Forall (fun v => 0 <= v) (data s)).
  { destruct (ndim x' =? 1)%nat; eapply S; exact E. }
  destruct (average self).
  - destruct (fdiv (tsum s) (Qnat batch_size)) as [g| |] eqn:F; cbn [bind]; try discriminate.
    intros Y. injection Y as <-. cbn [data]. constructor; [|constructor].
    apply (fdiv_nonneg _ _ _ (Qsum_nonneg _ Hs) (Qnat_nonneg batch_size) F).
  - intros Y. now injection Y as <-.
Qed.

Lemma forward_nonneg_witness :
  Forall (fun v => 0 <= v) (data (mkTensor [2]%nat [18; 2])).
Proof.
  apply (forward_nonneg
           (mkLaplacianLoss false (mkTensor [2; 2]%nat [1; -1; -1; 1]))
           (mkTensor [2; 2; 1]%nat [1; -2; 3; 2])).
  - reflexivity.
  - vm_compute. reflexivity.
Defined.

Lemma sum_compatible_scaled (k : Q) : sum_compatible (scaled k).
Proof.
  intros l1 l2 H. unfold scaled in *.
  induction H as [|x y l1 l2 Hxy _ IH]; cbn [Qsum fold_right]; [ring|].
  fold (Qsum l1). fold (Qsum l2). rewrite Hxy, IH. ring.
Qed.

Lemma dot_scaled_rel (c : Q) (u v v' : list Q) :
  Forall2 (scaled c) v v' -> dot u v' == c * dot u v.
Proof.
  intros H. unfold dot, map2, Qsum, scaled in *. revert u.
  induction H as [|b b' v v' Hb _ IH]; intros [|a u]; cbn [map combine fold_right fst snd];
    try ring.
  rewrite (IH u), Hb. ring.
Qed.

Lemma Forall2_flat_map_seq {A B : Type} (R : A -> B -> Prop)
    (f : nat -> list A) (g : nat -> list B) (s : list nat) :
  (forall i, Forall2 R (f i) (g i)) -> Forall2 R (flat_map f s) (flat_map g s).
Proof.
  intros H. induction s as [|i s IH]; cbn [flat_map]; [constructor|].
  apply Forall2_app; auto.
Qed.

Lemma Forall2_map_both {A A' B B' : Type} (R : A -> A' -> Prop) (T : B -> B' -> Prop)
    (f : A -> B) (g : A' -> B') l l' :
  (forall x y, R x y -> T (f x) (g y)) -> Forall2 R l l' -> Forall2 T (map f l) (map g l').
Proof. intros H. induction 1; cbn [map]; constructor; auto. Qed.

(** The product with the Laplacian is linear in the input. *)
Lemma matmul_scaled (c : Q) (l x x' : tensor Q) :
  shape x = shape x' -> Forall2 (scaled c) (data x) (data x') ->
  related (scaled c) (matmul l x) (matmul l x').
Proof.
  intros Hs Hd. unfold matmul. rewrite <- Hs.
  destruct (shape l) as [|r [|c0 [|? ?]]]; cbn [related]; auto.
  destruct (rev (shape x)) as [|k [|c' rpre]]; cbn [related]; auto.
  - destruct (negb (k =? c0)%nat); cbn [related shape data]; auto. split; [reflexivity|].
    apply Forall2_map_seq. intros i _. unfold scaled. now apply dot_scaled_rel.
  - destruct (negb (c' =? c0)%nat); cbn [related shape data]; auto. split; [reflexivity|].
    apply Forall2_flat_map_seq. intros p. apply Forall2_flat_map_seq. intros i.
    apply Forall2_map_seq. intros j _. apply sum_compatible_scaled.
    apply Forall2_map_seq. intros v _.
    assert (N : scaled c (nth ((p * c0 + v) * k + j) (data x) 0)
                         (nth ((p * c0 + v) * k + j) (data x') 0)).
    { apply Forall2_nth; [exact Hd|]. unfold scaled. ring. }
    unfold scaled in *. rewrite N. ring.
Qed.

(** [forward] is a quadratic form of its input: entries scaled by [c] scale
    the loss by [c * c]. *)
Lemma forward_scaled (self : LaplacianLoss) (x x' : tensor Q) (c : Q) :
  shape x = shape x' -> Forall2 (scaled c) (data x) (data x') ->
  related (scaled (c * c)) (forward self x) (forward self x').
Proof.
  intros Hs Hd. pose proof (matmul_scaled c (laplacian self) x x' Hs Hd) as M.
  unfold forward. rewrite <- Hs. clear Hs.
  destruct (shape x) as [|batch_size sh]; [reflexivity|].
  destruct (matmul (laplacian self) x) as [[s1 d1]| |],
           (matmul (laplacian self) x') as [[s2 d2]| |];
    cbn [related bind shape data] in *; try contradiction; auto.
  destruct M as [<- D].
  assert (D2 : Forall2 (scaled (c * c)) (map (fun v => v ^ 2) d1) (map (fun v => v ^ 2) d2)).
  { apply (Forall2_map_both (scaled c)); [|exact D].
    intros u v H. unfold scaled in *. rewrite H. simpl. ring. }
  unfold ndim, tmap. cbn [shape data].
  assert (S : forall n,
             related (scaled (c * c))
               (x0 <- sum_trailing n (mkTensor s1 (map (fun v => v ^ 2) d1)) ;;
                if average self
                then s <- fdiv (tsum x0) (Qnat batch_size) ;; Ok (mkTensor [] [s])
                else Ok x0)
               (x0 <- sum_trailing n (mkTensor s1 (map (fun v => v ^ 2) d2)) ;;
                if average self
                then s <- fdiv (tsum x0) (Qnat batch_size) ;; Ok (mkTensor [] [s])
                else Ok x0)).
  { intros n.
    destruct (sum_trailing_rel (scaled (c * c)) n s1 _ _ (sum_compatible_scaled (c * c)) D2)
      as [[E1 E2]|(pre & r1 & r2 & E1 & E2 & R)]; rewrite E1, E2; cbn [bind related]; auto.
    destruct (average self); cbn [related shape data]; auto.
    unfold tsum, fdiv. cbn [data].
    destruct (Qeq_bool (Qnat batch_size) 0) eqn:Z; cbn [bind related shape data]; auto.
    split; [reflexivity|]. constructor; [|constructor].
    pose proof (sum_compatible_scaled (c * c) _ _ R) as Q. unfold scaled in *.
    rewrite Q. field. intros N. apply Qeq_bool_iff in N. congruence. }
  destruct (length s1 =? 1)%nat; apply S.
Qed.

Lemma related_impl (R R' : Q -> Q -> Prop) (r1 r2 : result (tensor Q)) :
  (forall x y, R x y -> R' x y) -> related R r1 r2 -> related R' r1 r2.
Proof.
  intros H. destruct r1, r2; cbn [related]; auto.
  intros [S D]. split; [exact S|]. eapply Forall2_impl; eauto.
Qed.

(** X14.  For a Laplacian matrix, [forward] does not see the sign of its
    input: negating every entry of [x] gives a result of the same shape with
    equal entries, averaged or not, or the same failure. *)
Theorem forward_sign (self : LaplacianLoss) (x : tensor Q) :
  ndim (laplacian self) = 2%nat ->
  related Qeq (forward self x) (forward self (tmap Qopp x)).
Proof.
  intros _. apply (related_impl (scaled ((- (1)) * (- (1))))).
  - intros u v H. unfold scaled in H. rewrite H. ring.
  - apply forward_scaled; [reflexivity|].
    unfold tmap. cbn [data]. apply Forall2_map_r. apply Forall2_same.
    intros u. unfold scaled. ring.
Qed.

Lemma forward_sign_witness :
  related Qeq
    (forward (mkLaplacianLoss true (mkTensor [2; 2]%nat [1; -1; -1; 1]))
             (mkTensor [2; 2; 1]%nat [1; -2; 3; 2]))
    (forward (mkLaplacianLoss true (mkTensor [2; 2]%nat [1; -1; -1; 1]))
             (tmap Qopp (mkTensor [2; 2; 1]%nat [1; -2; 3; 2]))).
Proof.
  apply (forward_sign (mkLaplacianLoss true (mkTensor [2; 2]%nat [1; -1; -1; 1]))
           (mkTensor [2; 2; 1]%nat [1; -2; 3; 2])).
  reflexivity.
Defined.

(** ** GANLoss: construction, the label caches *)

(** X15.  [__init__] accepts exactly the four modes 'ls', 'original', 'w' and
    'hinge', for which it returns an instance with the labels given and no
    label tensor created yet; any other mode raises [ValueError]. *)
Theorem init_outcome (mode : string) (r f : Q) :
  (In mode gan_modes /\ __init__ mode r f = Ok (mkGANLoss mode r f None None None))
  \/ (~ In mode gan_modes /\ __init__ mode r f = Raise ValueError).
Proof.
  unfold __init__, gan_modes.
  destruct (String.eqb_spec mode "ls"); [left; split; [subst; cbn; auto|reflexivity]|].
  destruct (String.eqb_spec mode "original"); [left; split; [subst; cbn; auto|reflexivity]|].
  destruct (String.eqb_spec mode "w"); [left; split; [subst; cbn; auto|reflexivity]|].
  destruct (String.eqb_spec mode "hinge"); [left; split; [subst; cbn; auto 6|reflexivity]|].
  right. split; [|reflexivity]. cbn [In]. intuition congruence.
Qed.

Lemma same_config_refl (s : GANLoss) : same_config s s.
Proof. repeat split. Qed.

Lemma same_config_trans (s1 s2 s3 : GANLoss) :
  same_config s1 s2 -> same_config s2 s3 -> same_config s1 s3.
Proof. unfold same_config. intuition congruence. Qed.

Lemma same_config_sym (s1 s2 : GANLoss) : same_config s1 s2 -> same_config s2 s1.
Proof. unfold same_config. intuition congruence. Qed.

Lemma transparent_ret {A : Type} (a : A) : transparent (retM a).
Proof.
  intros s1 s2 C1 C2 S. unfold retM. cbn [fst snd].
  auto using same_config_refl.
Qed.

Lemma transparent_lift {A : Type} (r : result A) : transparent (liftM r).
Proof.
  intros s1 s2 C1 C2 S. unfold liftM. cbn [fst snd].
  auto using same_config_refl.
Qed.

Lemma transparent_bind {A B : Type} (m : M A) (k : A -> M B) :
  transparent m -> (forall a, transparent (k a)) -> transparent (bindM m k).
Proof.
  intros Hm Hk s1 s2 C1 C2 S. unfold bindM.
  destruct (Hm s1 s2 C1 C2 S) as (E & D1 & D2 & S1 & S2).
  destruct (m s1) as [r1 t1], (m s2) as [r2 t2]. cbn [fst snd] in *. subst r2.
  destruct r1 as [a| |]; cbn [fst snd]; auto.
  assert (S12 : same_config t1 t2).
  { eapply same_config_trans; [apply same_config_sym; exact S1|].
    eapply same_config_trans; [exact S|exact S2]. }
  destruct (Hk a t1 t2 D1 D2 S12) as (E' & D1' & D2' & S1' & S2').
  split; [exact E'|]. split; [exact D1'|]. split; [exact D2'|].
  split; eapply same_config_trans; eauto.
Qed.

Lemma transparent_get_target_tensor (input : tensor Q) (target_is_real : bool) :
  transparent (get_target_tensor input target_is_real).
Proof.
  intros [m1 r1 f1 rt1 ft1 z1] [m2 r2 f2 rt2 ft2 z2] (R1 & F1 & Z1) (R2 & F2 & Z2) (Em & Er & Ef).
  cbn [gan_mode real_label fake_label real_label_tensor fake_label_tensor zero_tensor] in *.
  subst m2 r2 f2. unfold get_target_tensor, consistent, same_config.
  destruct target_is_real;
    cbn [gan_mode real_label fake_label real_label_tensor fake_label_tensor zero_tensor].
  - destruct R1 as [-> | ->], R2 as [-> | ->];
      cbn [fst snd gan_mode real_label fake_label real_label_tensor fake_label_tensor
           zero_tensor]; auto 10.
  - destruct F1 as [-> | ->], F2 as [-> | ->];
      cbn [fst snd gan_mode real_label fake_label real_label_tensor fake_label_tensor
           zero_tensor]; auto 10.
Qed.

Lemma transparent_get_zero_tensor (input : tensor Q) : transparent (get_zero_tensor input).
Proof.
  intros [m1 r1 f1 rt1 ft1 z1] [m2 r2 f2 rt2 ft2 z2] (R1 & F1 & Z1) (R2 & F2 & Z2) (Em & Er & Ef).
  cbn [gan_mode real_label fake_label real_label_tensor fake_label_tensor zero_tensor] in *.
  subst m2 r2 f2. unfold get_zero_tensor, consistent, same_config.
  cbn [gan_mode real_label fake_label real_label_tensor fake_label_tensor zero_tensor].
  destruct Z1 as [-> | ->], Z2 as [-> | ->];
    cbn [fst snd gan_mode real_label fake_label real_label_tensor fake_label_tensor
         zero_tensor]; auto 10.
Qed.

Ltac by_transparent C1 C2 S :=
  match goal with
  | |- fst (?m ?s1) = fst (?m ?s2) /\ _ =>
      apply (fun T : transparent m => T s1 s2 C1 C2 S)
  end.

Lemma transparent_loss (bce : tensor Q -> tensor Q -> result Q) (input : tensor Q)
    (target_is_real for_discriminator : bool) (mask : option mask_arg) (weight : option Q) :
  transparent (loss bce input target_is_real for_discriminator mask weight).
Proof.
  intros s1 s2 C1 C2 S. unfold loss. destruct S as (Em & Er & Ef). rewrite <- Em.
  assert (S : same_config s1 s2) by (repeat split; assumption).
  destruct (String.eqb (gan_mode s1) "original").
  { by_transparent C1 C2 S. apply transparent_bind.
    - apply transparent_get_target_tensor.
    - intros a. apply transparent_lift. }
  destruct (String.eqb (gan_mode s1) "ls").
  { by_transparent C1 C2 S. apply transparent_bind.
    - apply transparent_get_target_tensor.
    - intros a. apply transparent_lift. }
  destruct (String.eqb (gan_mode s1) "hinge").
  { destruct for_discriminator.
    - destruct target_is_real;
        (by_transparent C1 C2 S; apply transparent_bind;
         [apply transparent_get_zero_tensor|];
         intros zero; apply transparent_bind; [apply transparent_lift|];
         intros minval; apply transparent_lift).
    - destruct (negb target_is_real); cbn [fst snd]; auto 10 using same_config_refl. }
  destruct target_is_real; cbn [fst snd]; auto 10 using same_config_refl.
Qed.

Lemma transparent_call_loop (bce : tensor Q -> tensor Q -> result Q) (items : list pred) :
  forall (idx : nat) (target_is_real for_discriminator : bool)
         (mask : option (list (option (tensor Q)))) (weight : option (list Q)) (acc : fl),
    transparent (call_loop bce items idx target_is_real for_discriminator mask weight acc).
Proof.
  induction items as [|p items IH]; intros idx tir fd mask weight acc; cbn [call_loop].
  - apply transparent_ret.
  - intros s1 s2 C1 C2 Hs.
    destruct (match p with
              | Pred t => Ok t
              | PredList l => match rev l with [] => Raise IndexError | t :: _ => Ok t end
              end) as [t|e|]; cbn [fst snd]; auto 10 using same_config_refl.
    destruct (match mask with
              | None => Ok None
              | Some ms => match nth_error ms idx with
                           | Some m => Ok (option_map MaskTensor m)
                           | None => Raise IndexError
                           end
              end) as [mi|e|]; cbn [fst snd]; auto 10 using same_config_refl.
    destruct (match weight with
              | None => Ok None
              | Some ws => match nth_error ws idx with
                           | Some w => Ok (Some w)
                           | None => Raise IndexError
                           end
              end) as [wi|e|]; cbn [fst snd]; auto 10 using same_config_refl.
    destruct (transparent_loss bce t tir fd mi wi s1 s2 C1 C2 Hs) as (E & D1 & D2 & S1 & S2).
    destruct (loss bce t tir fd mi wi s1) as [r1 t1], (loss bce t tir fd mi wi s2) as [r2 t2].
    cbn [fst snd] in *. subst r2.
    assert (S12 : same_config t1 t2).
    { eapply same_config_trans; [apply same_config_sym; exact S1|].
      eapply same_config_trans; [exact Hs|exact S2]. }
    destruct r1 as [v|e|]; cbn [fst snd]; auto 10.
    + destruct (IH (S idx) tir fd mask weight (fl_add acc (Ok v)) t1 t2 D1 D2 S12)
        as (E' & D1' & D2' & S1' & S2').
      split; [exact E'|]. split; [exact D1'|]. split; [exact D2'|].
  split; eapply same_config_trans; eauto.
    + destruct (IH (S idx) tir fd mask weight (fl_add acc NonFinite) t1 t2 D1 D2 S12)
        as (E' & D1' & D2' & S1' & S2').
      split; [exact E'|]. split; [exact D1'|]. split; [exact D2'|].
  split; eapply same_config_trans; eauto.
Qed.

Lemma transparent_call (bce : tensor Q -> tensor Q -> result Q) (input : input_arg)
    (target_is_real for_discriminator : bool) (mask : option mask_arg)
    (weight : option (list Q)) :
  transparent (__call__ bce input target_is_real for_discriminator mask weight).
Proof.
  intros s1 s2 C1 C2 S. unfold __call__. destruct input as [t|items].
  - destruct (transparent_loss bce t target_is_real for_discriminator mask None s1 s2 C1 C2 S)
      as (E & D1 & D2 & S1 & S2).
    destruct (loss bce t target_is_real for_discriminator mask None s1) as [r1 t1],
             (loss bce t target_is_real for_discriminator mask None s2) as [r2 t2].
    cbn [fst snd] in *. subst r2. auto 10.
  - destruct (match mask with
              | None => Ok None
              | Some (MaskTensor _) => Raise AssertionError
              | Some (MaskList ms) =>
                  if negb (length items =? length ms)%nat then Raise AssertionError
                  else Ok (Some ms)
              end) as [mk|e|]; cbn [fst snd]; auto 10 using same_config_refl.
    destruct (transparent_call_loop bce items 0 target_is_real for_discriminator mk weight
                (Some 0) s1 s2 C1 C2 S) as (E & D1 & D2 & S1 & S2).
    destruct (call_loop bce items 0 target_is_real for_discriminator mk weight (Some 0) s1)
      as [r1 t1],
      (call_loop bce items 0 target_is_real for_discriminator mk weight (Some 0) s2)
      as [r2 t2].
    cbn [fst snd] in *. subst r2.
    destruct r1 as [acc|e|]; cbn [fst snd]; auto 10.
    destruct items as [|p items]; cbn [fst snd]; auto 10.
    destruct (Qeq_bool _ 0); cbn [fst snd]; auto 10.
Qed.

(** X16.  The label tensors [__call__] creates on first use are caches and
    nothing more: on two instances configured alike, whatever label tensors
    each has already created, a call has the same outcome; and it leaves the
    configuration as it was and the caches consistent, so this holds for every
    later call too. *)
Theorem call_cache_transparent (bce : tensor Q -> tensor Q -> result Q) (input : input_arg)
    (target_is_real for_discriminator : bool) (mask : option mask_arg)
    (weight : option (list Q)) (s1 s2 : GANLoss) :
  consistent s1 -> consistent s2 -> same_config s1 s2 ->
  fst (__call__ bce input target_is_real for_discriminator mask weight s1)
  = fst (__call__ bce input target_is_real for_discriminator mask weight s2)
  /\ consistent (snd (__call__ bce input target_is_real for_discriminator mask weight s1))
  /\ same_config s1 (snd (__call__ bce input target_is_real for_discriminator mask weight s1)).
Proof.
  intros C1 C2 S.
  destruct (transparent_call bce input target_is_real for_discriminator mask weight
              s1 s2 C1 C2 S) as (E & D1 & _ & S1 & _).
  auto.
Qed.

Lemma call_cache_transparent_witness :
  fst (__call__ mse_loss (Multi [Pred (mkTensor [1; 1; 1; 2]%nat [3; -5])]) true true None None
         (mkGANLoss "hinge" 1 0 None None None))
  = fst (__call__ mse_loss (Multi [Pred (mkTensor [1; 1; 1; 2]%nat [3; -5])]) true true None None
           (mkGANLoss "hinge" 1 0 (Some 1) None (Some 0)))
  /\ consistent
       (snd (__call__ mse_loss (Multi [Pred (mkTensor [1; 1; 1; 2]%nat [3; -5])]) true true
               None None (mkGANLoss "hinge" 1 0 None None None)))
  /\ same_config (mkGANLoss "hinge" 1 0 None None None)
       (snd (__call__ mse_loss (Multi [Pred (mkTensor [1; 1; 1; 2]%nat [3; -5])]) true true
               None None (mkGANLoss "hinge" 1 0 None None None))).
Proof.
  apply (call_cache_transparent mse_loss (Multi [Pred (mkTensor [1; 1; 1; 2]%nat [3; -5])])
           true true None None
           (mkGANLoss "hinge" 1 0 None None None)
           (mkGANLoss "hinge" 1 0 (Some 1) None (Some 0))).
  - unfold consistent. cbn. auto.
  - unfold consistent. cbn. auto.
  - unfold same_config. cbn. auto.
Defined.

(** A cache that does not hold its label is seen: with a zero tensor that is
    not zero the hinge loss changes. *)
Example call_inconsistent_cache :
  fst (__call__ mse_loss (Single (mkTensor [1; 1; 1; 2]%nat [3; -5])) true true None None
         (mkGANLoss "hinge" 1 0 None None None))
  <> fst (__call__ mse_loss (Single (mkTensor [1; 1; 1; 2]%nat [3; -5])) true true None None
            (mkGANLoss "hinge" 1 0 None None (Some 7))).
Proof. vm_compute. discriminate. Qed.

(** ** GANLoss: the sign of the losses *)

Lemma Forall_map2 {A B C : Type} (PA : A -> Prop) (PB : B -> Prop) (PC : C -> Prop)
    (f : A -> B -> C) (l1 : list A) (l2 : list B) :
  (forall x y, PA x -> PB y -> PC (f x y)) ->
  Forall PA l1 -> Forall PB l2 -> Forall PC (map2 f l1 l2).
Proof.
  intros H H1. unfold map2. revert l2.
  induction H1 as [|x l1 Hx _ IH]; intros l2 H2; [constructor|].
  destruct H2 as [|y l2 Hy H2]; cbn [combine map fst snd]; constructor; auto.
Qed.

Lemma expand_Forall {A : Type} (P : A -> Prop) (d : A) (t : tensor A) (sh : list nat) :
  P d -> Forall P (data t) -> Forall P (data (expand d t sh)).
Proof.
  intros Hd H. unfold expand. cbn [data]. rewrite Forall_map. apply Forall_forall.
  intros i _. now apply Forall_nth_default.
Qed.

Lemma zip_with_Forall {A B C : Type} (PA : A -> Prop) (PB : B -> Prop) (PC : C -> Prop)
    (dA : A) (dB : B) (f : A -> B -> C) (a : tensor A) (b : tensor B) (c : tensor C) :
  (forall x y, PA x -> PB y -> PC (f x y)) -> PA dA -> PB dB ->
  Forall PA (data a) -> Forall PB (data b) ->
  zip_with dA dB f a b = Ok c -> Forall PC (data c).
Proof.
  intros H HdA HdB Ha Hb. unfold zip_with. destruct (shape_eqb (shape a) (shape b)).
  - intros E. injection E as <-. cbn [data]. now apply (Forall_map2 PA PB).
  - destruct (broadcast_shapes (shape a) (shape b)) as [sh|]; [|discriminate].
    intros E. injection E as <-. cbn [data].
    apply (Forall_map2 PA PB);
      [exact H|apply expand_Forall; assumption|apply expand_Forall; assumption].
Qed.

Lemma sequence_map_Forall {A B : Type} (P : A -> Prop) (R : B -> Prop) (f : A -> result B)
    (l : list A) (d : list B) :
  (forall a b, P a -> f a = Ok b -> R b) ->
  Forall P l -> sequence (map f l) = Ok d -> Forall R d.
Proof.
  intros H Hl. revert d. induction Hl as [|a l Ha _ IH]; intros d; cbn [map sequence].
  - intros E. injection E as <-. constructor.
  - destruct (f a) as [b| |] eqn:Fa; cbn [bind]; try discriminate.
    destruct (sequence (map f l)) as [bs| |]; cbn [bind]; try discriminate.
    intros E. injection E as <-. constructor; eauto.
Qed.

Lemma tdiv_Forall (PA PB PC : Q -> Prop) (a b r : tensor Q) :
  (forall x y g, PA x -> PB y -> fdiv x y = Ok g -> PC g) -> PA 0 -> PB 0 ->
  Forall PA (data a) -> Forall PB (data b) ->
  tdiv a b = Ok r -> Forall PC (data r).
Proof.
  intros H HA HB Ha Hb. unfold tdiv.
  destruct (zip_with 0 0 pair a b) as [p| |] eqn:Z; cbn [bind]; try discriminate.
  destruct (sequence (map (fun xy => fdiv (fst xy) (snd xy)) (data p))) as [d| |] eqn:Sq;
    cbn [bind]; try discriminate.
  intros E. injection E as <-. cbn [data].
  apply (sequence_map_Forall (fun xy => PA (fst xy) /\ PB (snd xy)) PC _ _ _) in Sq; auto.
  - intros [x y] g [Hx Hy]. cbn [fst snd] in *. eauto.
  - apply (zip_with_Forall PA PB _ 0 0 pair a b p); auto.
Qed.

Lemma sum_middle_Forall (P : Q -> Prop) (k : nat) (t s : tensor Q) :
  P 0 -> (forall l, Forall P l -> P (Qsum l)) ->
  Forall P (data t) -> sum_middle k t = Ok s -> Forall P (data s).
Proof.
  intros H0 Hsum Ht. unfold sum_middle. destruct (shape t) as [|d0 tl]; [discriminate|].
  destruct (length tl <? k)%nat; [discriminate|].
  intros E. injection E as <-. cbn [data]. rewrite Forall_map. apply Forall_forall.
  intros i _. apply Hsum. rewrite Forall_map. apply Forall_forall.
  intros j _. now apply Forall_nth_default.
Qed.

Lemma Qsum_nonpos (l : list Q) : Forall (fun x => x <= 0) l -> Qsum l <= 0.
Proof. induction 1 as [|x l Hx _ IH]; simpl; lra. Qed.

Lemma Qinv_pos_of_nonneg (y : Q) : 0 <= y -> Qeq_bool y 0 = false -> 0 < / y.
Proof.
  intros Hy Z. apply Qinv_lt_0_compat. apply Qle_lteq in Hy.
  destruct Hy as [Hy|Hy]; [exact Hy|].
  symmetry in Hy. apply Qeq_bool_iff in Hy. congruence.
Qed.

Lemma Qmult_nonpos_nonneg (x y : Q) : x <= 0 -> 0 <= y -> x * y <= 0.
Proof.
  intros Hx Hy. assert (H : 0 <= (- x) * y) by (apply Qmult_le_0_compat; lra).
  setoid_replace (- x * y) with (- (x * y)) in H by ring. lra.
Qed.

Lemma fdiv_nonpos (x y g : Q) : x <= 0 -> 0 <= y -> fdiv x y = Ok g -> g <= 0.
Proof.
  intros Hx Hy. unfold fdiv. destruct (Qeq_bool y 0) eqn:Z; [discriminate|].
  intros E. injection E as <-. unfold Qdiv.
  apply Qmult_nonpos_nonneg; [exact Hx|]. apply Qlt_le_weak. now apply Qinv_pos_of_nonneg.
Qed.

Lemma fdiv_zero (x y g : Q) : x == 0 -> fdiv x y = Ok g -> g == 0.
Proof.
  intros Hx. unfold fdiv. destruct (Qeq_bool y 0); [discriminate|].
  intros E. injection E as <-. rewrite Hx. unfold Qdiv. ring.
Qed.

(** The masked, weighted mean of [GANLoss.mean] keeps the sign of its entries
    when neither the mask nor the weight is negative. *)
Lemma mean_nonpos (x : tensor Q) (mask : option mask_arg) (weight : option Q) (m : Q) :
  Forall (fun v => v <= 0) (data x) -> mask_nonneg mask -> weight_nonneg weight ->
  mean x mask weight = Ok m -> m <= 0.
Proof.
  intros Hx Hm Hw. unfold mean.
  assert (W : 0 <= match weight with None => 1 | Some w => w end).
  { destruct weight; [exact Hw|lra]. }
  destruct mask as [[mk|ms]|].
  - destruct (negb (shape_eqb (shape x) (shape mk))); [discriminate|].
    destruct (tmul x mk) as [xm| |] eqn:Xm; cbn [bind]; try discriminate.
    destruct (sum_middle 3 xm) as [num| |] eqn:Nu; cbn [bind]; try discriminate.
    destruct (sum_middle 3 mk) as [den| |] eqn:De; cbn [bind]; try discriminate.
    destruct (tdiv num den) as [ret| |] eqn:Re; cbn [bind]; try discriminate.
    destruct (tmean ret) as [g| |] eqn:G; cbn [bind]; try discriminate.
    intros E. injection E as <-. apply Qmult_nonpos_nonneg; [|exact W].
    assert (Hxm : Forall (fun v => v <= 0) (data xm)).
    { apply (zip_with_Forall (fun v => v <= 0) (fun v => 0 <= v) _ 0 0 Qmult x mk xm);
        auto using Qmult_nonpos_nonneg; lra. }
    assert (Hnum : Forall (fun v => v <= 0) (data num)).
    { apply (sum_middle_Forall _ 3 xm num); auto using Qsum_nonpos. lra. }
    assert (Hden : Forall (fun v => 0 <= v) (data den)).
    { apply (sum_middle_Forall _ 3 mk den); auto using Qsum_nonneg. lra. }
    assert (Hret : Forall (fun v => v <= 0) (data ret)).
    { apply (tdiv_Forall (fun v => v <= 0) (fun v => 0 <= v) _ num den ret); auto; try lra.
      intros a b g0. apply fdiv_nonpos. }
    apply (fdiv_nonpos _ _ _ (Qsum_nonpos _ Hret) (Qnat_nonneg _) G).
  - discriminate.
  - destruct (tmean x) as [g| |] eqn:G; cbn [bind]; try discriminate.
    intros E. injection E as <-. apply Qmult_nonpos_nonneg; [|exact W].
    apply (fdiv_nonpos _ _ _ (Qsum_nonpos _ Hx) (Qnat_nonneg _) G).
Qed.

(** The mean of a tensor of zeros is zero under any mask and weight. *)
Lemma mean_zero (x : tensor Q) (mask : option mask_arg) (weight : option Q) (m : Q) :
  Forall (fun v => v == 0) (data x) -> mean x mask weight = Ok m -> m == 0.
Proof.
  intros Hx. unfold mean.
  destruct mask as [[mk|ms]|].
  - destruct (negb (shape_eqb (shape x) (shape mk))); [discriminate|].
    destruct (tmul x mk) as [xm| |] eqn:Xm; cbn [bind]; try discriminate.
    destruct (sum_middle 3 xm) as [num| |] eqn:Nu; cbn [bind]; try discriminate.
    destruct (sum_middle 3 mk) as [den| |] eqn:De; cbn [bind]; try discriminate.
    destruct (tdiv num den) as [ret| |] eqn:Re; cbn [bind]; try discriminate.
    destruct (tmean ret) as [g| |] eqn:G; cbn [bind]; try discriminate.
    intros E. injection E as <-.
    assert (Hxm : Forall (fun v => v == 0) (data xm)).
    { apply (zip_with_Forall (fun v => v == 0) (fun _ => True) _ 0 0 Qmult x mk xm); auto.
      - intros a b Ha _. rewrite Ha. ring.
      - reflexivity.
      - apply Forall_forall. auto. }
    assert (Hnum : Forall (fun v => v == 0) (data num)).
    { apply (sum_middle_Forall _ 3 xm num); auto using Qsum_all_zero. reflexivity. }
    assert (Hret : Forall (fun v => v == 0) (data ret)).
    { apply (tdiv_Forall (fun v => v == 0) (fun _ => True) _ num den ret); auto.
      - intros a b g0 Ha _. now apply fdiv_zero.
      - reflexivity.
      - apply Forall_forall. auto. }
    rewrite (fdiv_zero _ _ _ (Qsum_all_zero _ Hret) G). ring.
  - discriminate.
  - destruct (tmean x) as [g| |] eqn:G; cbn [bind]; try discriminate.
    intros E. injection E as <-.
    rewrite (fdiv_zero _ _ _ (Qsum_all_zero _ Hx) G). ring.
Qed.

Lemma get_zero_tensor_consistent (input : tensor Q) (self : GANLoss) :
  consistent self -> fst (get_zero_tensor input self) = expand_as 0 input.
Proof.
  intros (_ & _ & Z). destruct self as [m r f rt ft z]. cbn [zero_tensor] in Z.
  destruct Z as [-> | ->]; reflexivity.
Qed.

Lemma expand_as_Forall (P : Q -> Prop) (v : Q) (input z : tensor Q) :
  P v -> expand_as v input = Ok z -> Forall P (data z).
Proof.
  intros Hv. unfold expand_as. destruct (shape input) as [|s sh]; [discriminate|].
  intros E. injection E as <-. cbn [data]. apply Forall_forall.
  intros y Hy. apply repeat_spec in Hy. now subst.
Qed.

(** What the discriminator's branch of the hinge loss computes, on an
    instance whose zero tensor is zero: the negated mean of the entries
    [min(g x, 0)]. *)
Lemma loss_hinge_discriminator_shape (bce : tensor Q -> tensor Q -> result Q)
    (self self' : GANLoss) (input : tensor Q) (target_is_real : bool)
    (mask : option mask_arg) (weight : option Q) (v : Q) :
  gan_mode self = "hinge"%string -> consistent self ->
  loss bce input target_is_real true mask weight self = (Ok v, self') ->
  exists zero minval m,
    Forall (fun z => z = 0) (data zero)
    /\ zip_with 0 0 Qminb
         (tmap (if target_is_real then fun x => x - 1 else fun x => - x - 1) input) zero
       = Ok minval
    /\ mean minval mask weight = Ok m /\ v = - m.
Proof.
  intros Hm Hc. unfold loss. rewrite Hm. cbn [String.eqb Ascii.eqb Bool.eqb andb].
  pose proof (get_zero_tensor_consistent input self Hc) as Z.
  destruct target_is_real; unfold bindM, liftM;
    (destruct (get_zero_tensor input self) as [[zero| |] s0]; cbn [fst] in Z;
     try discriminate;
     destruct (zip_with 0 0 Qminb _ zero) as [minval| |] eqn:Mv; try discriminate;
     destruct (mean minval mask weight) as [m| |] eqn:Me; cbn [fneg bind]; try discriminate;
     intros E; injection E as <- _;
     exists zero, minval, m; repeat split; auto;
     apply (expand_as_Forall (fun z => z = 0) 0 input zero); [reflexivity|now symmetry]).
Qed.

(** X17.  The hinge loss of the discriminator is never negative: on an
    instance with consistent caches, under a mask and a weight that are not
    negative, whatever [loss] returns in hinge mode with
    [for_discriminator=True] is at least 0, for real and for fake targets. *)
Theorem loss_hinge_discriminator_nonneg (bce : tensor Q -> tensor Q -> result Q)
    (self self' : GANLoss) (input : tensor Q) (target_is_real : bool)
    (mask : option mask_arg) (weight : option Q) (v : Q) :
  gan_mode self = "hinge"%string -> consistent self ->
  mask_nonneg mask -> weight_nonneg weight ->
  loss bce input target_is_real true mask weight self = (Ok v, self') ->
  0 <= v.
Proof.
  intros Hm Hc Hmask Hw E.
  destruct (loss_hinge_discriminator_shape bce self self' input target_is_real mask weight v
              Hm Hc E) as (zero & minval & m & Hz & Mv & Me & ->).
  assert (Hmin : Forall (fun x => x <= 0) (data minval)).
  { apply (fun H1 H2 => zip_with_Forall (fun _ => True) (fun z => z = 0) (fun x => x <= 0)
                           0 0 Qminb _ zero minval H1 I eq_refl H2 Hz Mv).
    - intros x y _ ->. unfold Qminb. qle_cases; lra.
    - apply Forall_forall. auto. }
  pose proof (mean_nonpos minval mask weight m Hmin Hmask Hw Me). lra.
Qed.

Lemma loss_hinge_discriminator_nonneg_witness : 0 <= 2 # 2.
Proof.
  apply (loss_hinge_discriminator_nonneg mse_loss
           (mkGANLoss "hinge" 1 0 None None None)
           (mkGANLoss "hinge" 1 0 None None (Some 0))
           (mkTensor [1; 1; 1; 2]%nat [3; -1]) true None None).
  - reflexivity.
  - unfold consistent. cbn. auto.
  - exact I.
  - exact I.
  - vm_compute. reflexivity.
Defined.

(** X18.  The hinge loss of the discriminator vanishes beyond the margin: when
    every prediction is at least 1 on a real target, or at most -1 on a fake
    one, the loss returned is 0 under any mask and any weight. *)
Theorem loss_hinge_discriminator_margin (bce : tensor Q -> tensor Q -> result Q)
    (self self' : GANLoss) (input : tensor Q) (target_is_real : bool)
    (mask : option mask_arg) (weight : option Q) (v : Q) :
  gan_mode self = "hinge"%string -> consistent self ->
  Forall (beyond_margin target_is_real) (data input) ->
  loss bce input target_is_real true mask weight self = (Ok v, self') ->
  v == 0.
Proof.
  intros Hm Hc Hin E.
  destruct (loss_hinge_discriminator_shape bce self self' input target_is_real mask weight v
              Hm Hc E) as (zero & minval & m & Hz & Mv & Me & ->).
  assert (Hmin : Forall (fun x => x == 0) (data minval)).
  { apply (fun H1 H0 H2 => zip_with_Forall (fun x => 0 <= x) (fun z => z = 0)
                              (fun x => x == 0) 0 0 Qminb _ zero minval H1 H0 eq_refl H2 Hz Mv).
    - intros x y Hx ->. unfold Qminb. qle_cases; lra.
    - lra.
    - unfold tmap. cbn [data]. rewrite Forall_map.
      eapply Forall_impl; [|exact Hin]. unfold beyond_margin.
      intros x Hx. destruct target_is_real; lra. }
  rewrite (mean_zero minval mask weight m Hmin Me). ring.
Qed.

Lemma loss_hinge_discriminator_margin_witness : 0 # 2 == 0.
Proof.
  apply (loss_hinge_discriminator_margin mse_loss
           (mkGANLoss "hinge" 1 0 None None None)
           (mkGANLoss "hinge" 1 0 None None (Some 0))
           (mkTensor [1; 1; 1; 2]%nat [-3; -1]) false None (Some 5)).
  - reflexivity.
  - unfold consistent. cbn. auto.
  - repeat constructor; unfold beyond_margin; lra.
  - vm_compute. reflexivity.
Defined.

(** X19.  The least-squares loss is never negative, whatever the labels, the
    target and the state of the instance. *)
Theorem loss_ls_nonneg (bce : tensor Q -> tensor Q -> result Q)
    (self self' : GANLoss) (input : tensor Q) (target_is_real for_discriminator : bool)
    (mask : option mask_arg) (weight : option Q) (v : Q) :
  gan_mode self = "ls"%string ->
  loss bce input target_is_real for_discriminator mask weight self = (Ok v, self') ->
  0 <= v.
Proof.
  intros Hm. unfold loss. rewrite Hm. cbn [String.eqb Ascii.eqb Bool.eqb andb].
  unfold bindM, liftM.
  destruct (get_target_tensor input target_is_real self) as [[target| |] s0];
    try discriminate.
  unfold mse_loss.
  destruct (zip_with 0 0 (fun x y => (x - y) ^ 2) input target) as [d| |] eqn:Z;
    cbn [bind]; try discriminate.
  intros E. injection E as E _.
  apply (fdiv_nonneg _ _ _ (Qsum_nonneg _
           (zip_with_Forall (fun _ => True) (fun _ => True) (fun x => 0 <= x) 0 0 _
              input target d
              (fun x y _ _ => Qsquare_nonneg (x - y)) I I
              (proj2 (Forall_forall _ _) (fun _ _ => I))
              (proj2 (Forall_forall _ _) (fun _ _ => I)) Z))
           (Qnat_nonneg _) E).
Qed.

Lemma loss_ls_nonneg_witness : 0 <= 20 # 2.
Proof.
  apply (loss_ls_nonneg mse_loss
           (mkGANLoss "ls" 1 0 None None None)
           (mkGANLoss "ls" 1 0 (Some 1) None None)
           (mkTensor [1; 1; 1; 2]%nat [3; -3]) true true None None).
  - reflexivity.
  - vm_compute. reflexivity.
Defined.

(** ** GANLoss.__call__: lists of predictions *)

Lemma call_loop_last_feature (bce : tensor Q -> tensor Q -> result Q)
    (feats : list (tensor Q)) (t : tensor Q) (post : list pred)
    (target_is_real for_discriminator : bool)
    (mask : option (list (option (tensor Q)))) (weight : option (list Q)) (pre : list pred) :
  forall (idx : nat) (acc : fl) (self : GANLoss),
    call_loop bce (pre ++ PredList (feats ++ [t]) :: post) idx target_is_real
      for_discriminator mask weight acc self
    = call_loop bce (pre ++ Pred t :: post) idx target_is_real
        for_discriminator mask weight acc self.
Proof.
  induction pre as [|p pre IH]; intros idx acc self; cbn [app call_loop].
  - rewrite rev_app_distr. reflexivity.
  - destruct (match p with
              | Pred t0 => Ok t0
              | PredList l => match rev l with [] => Raise IndexError | t0 :: _ => Ok t0 end
              end) as [t0|e|]; try reflexivity.
    destruct (match mask with
              | None => Ok None
              | Some ms => match nth_error ms idx with
                           | Some m => Ok (option_map MaskTensor m)
                           | None => Raise IndexError
                           end
              end) as [mi|e|]; try reflexivity.
    destruct (match weight with
              | None => Ok None
              | Some ws => match nth_error ws idx with
                           | Some w => Ok (Some w)
                           | None => Raise IndexError
                           end
              end) as [wi|e|]; try reflexivity.
    destruct (loss bce t0 target_is_real for_discriminator mi wi self) as [[v|e|] s'];
      try reflexivity; apply IH.
Qed.

(** X21.  Of a prediction given as a list of feature maps, only the last
    entry counts: at any position of the input list, replacing the list by
    its last tensor changes neither the outcome of [__call__] nor the instance
    it leaves. *)
Theorem call_last_feature (bce : tensor Q -> tensor Q -> result Q)
    (pre post : list pred) (feats : list (tensor Q)) (t : tensor Q)
    (target_is_real for_discriminator : bool) (mask : option mask_arg)
    (weight : option (list Q)) (self : GANLoss) :
  __call__ bce (Multi (pre ++ PredList (feats ++ [t]) :: post)) target_is_real
    for_discriminator mask weight self
  = __call__ bce (Multi (pre ++ Pred t :: post)) target_is_real
      for_discriminator mask weight self.
Proof.
  unfold __call__. rewrite !length_app. cbn [length].
  destruct (match mask with
            | None => Ok None
            | Some (MaskTensor _) => Raise AssertionError
            | Some (MaskList ms) =>
                if negb (length pre + S (length post) =? length ms)%nat
                then Raise AssertionError
                else Ok (Some ms)
            end) as [mk|e|]; try reflexivity.
  rewrite call_loop_last_feature.
  destruct (call_loop bce (pre ++ Pred t :: post) 0 target_is_real for_discriminator mk
              weight (Some 0) self) as [[acc|e|] s']; try reflexivity.
  destruct pre; reflexivity.
Qed.

(** An empty list of feature maps has no last entry. *)
Example call_empty_features :
  fst (__call__ mse_loss (Multi [PredList []]) true true None None
         (mkGANLoss "w" 1 0 None None None))
  = Raise IndexError.
Proof. reflexivity. Qed.

(** X22.  A list of one prediction is that prediction alone: without weights,
    [__call__] on the list [[t]] (with the mask list [[m]], or with no mask)
    has the outcome of [__call__] on the tensor [t] (with the mask [m], or
    none), as a tensor of shape (1) in place of a 0-dimensional one, and
    leaves the same instance. *)
Theorem call_single_scale (bce : tensor Q -> tensor Q -> result Q) (t : tensor Q)
    (target_is_real for_discriminator : bool) (m : option (tensor Q)) (self : GANLoss) :
  (same_outcome
     (fst (__call__ bce (Multi [Pred t]) target_is_real for_discriminator
             (Some (MaskList [m])) None self))
     (fst (__call__ bce (Single t) target_is_real for_discriminator
             (option_map MaskTensor m) None self))
   /\ snd (__call__ bce (Multi [Pred t]) target_is_real for_discriminator
             (Some (MaskList [m])) None self)
      = snd (__call__ bce (Single t) target_is_real for_discriminator
               (option_map MaskTensor m) None self))
  /\ (same_outcome
        (fst (__call__ bce (Multi [Pred t]) target_is_real for_discriminator None None self))
        (fst (__call__ bce (Single t) target_is_real for_discriminator None None self))
      /\ snd (__call__ bce (Multi [Pred t]) target_is_real for_discriminator None None self)
         = snd (__call__ bce (Single t) target_is_real for_discriminator None None self)).
Proof.
  assert (D : forall v : Q, fdiv (0 + v) (Qnat 1) = Ok ((0 + v) / Qnat 1)).
  { intros v. apply fdiv_ok. discriminate. }
  split; unfold __call__; cbn [length Nat.eqb negb call_loop nth_error].
  - destruct (loss bce t target_is_real for_discriminator (option_map MaskTensor m) None self)
      as [[v|e|] s']; cbn [fl_add retM fst snd fl_result bind same_outcome]; auto.
    rewrite D. cbn [bind same_outcome data]. split; [|reflexivity].
    constructor; [|constructor]. unfold Qnat. simpl inject_Z. field.
  - destruct (loss bce t target_is_real for_discriminator None None self)
      as [[v|e|] s']; cbn [fl_add retM fst snd fl_result bind same_outcome]; auto.
    rewrite D. cbn [bind same_outcome data]. split; [|reflexivity].
    constructor; [|constructor]. unfold Qnat. simpl inject_Z. field.
Qed.

(** ** evaluate_geodesic_distance: what the line reports *)

Lemma select_col_shape {A : Type} (c : nat) (t col : tensor A) :
  select_col c t = Ok col ->
  exists d0 d1 rest, shape t = d0 :: d1 :: rest /\ shape col = d0 :: rest.
Proof.
  unfold select_col. destruct (shape t) as [|d0 [|d1 rest]]; try discriminate.
  destruct (d1 <=? c)%nat; [discriminate|].
  intros E. injection E as <-. now exists d0, d1, rest.
Qed.

Lemma select_col_finite {A : Type} (c : nat) (t : tensor A) : select_col c t <> NonFinite.
Proof.
  unfold select_col. destruct (shape t) as [|d0 [|d1 rest]]; try discriminate.
  destruct (d1 <=? c)%nat; discriminate.
Qed.

(** The distance and the count come out of one computation: asking for the
    count adds it and changes nothing else. *)
Lemma geodesic_distance_with_count (p t col : tensor Q) :
  select_col 0 t = Ok col ->
  geodesic_distance p t true
  = match geodesic_distance p t false with
    | Ok v => Ok (GDCount (gd_of v) (count_true (data (tmap (fun x => Qneb x (-1000)) col))))
    | Raise e => Raise e
    | NonFinite => NonFinite
    end.
Proof.
  intros Hc. unfold geodesic_distance.
  destruct (negb (shape_eqb (shape p) (shape t))); [reflexivity|].
  destruct (tmul p t) as [pr| |]; cbn [bind]; try reflexivity.
  destruct (sum_last pr) as [s| |]; cbn [bind]; try reflexivity.
  rewrite Hc. cbn [bind].
  destruct (count_true (data (tmap (fun x => Qneb x (-1000)) col)) =? 0)%nat eqn:E.
  - apply Nat.eqb_eq in E. rewrite E. reflexivity.
  - destruct (masked_select _ _) as [rs| |]; cbn [bind]; try reflexivity.
    destruct (tmean rs) as [g| |]; reflexivity.
Qed.

Lemma geodesic_distance_shapes (p t : tensor Q) (rc : bool) :
  (forall e, geodesic_distance p t rc <> Raise e) ->
  shape p = shape t /\ exists col, select_col 0 t = Ok col.
Proof.
  unfold geodesic_distance. intros H.
  destruct (shape_eqb (shape p) (shape t)) eqn:S; cbn [negb] in H;
    [|exfalso; now apply (H AssertionError)].
  split; [now apply shape_eqb_eq|].
  destruct (tmul p t) as [pr|e|] eqn:Tm; cbn [bind] in H;
    [|exfalso; now apply (H e)|exfalso].
  - destruct (sum_last pr) as [s|e|] eqn:Sl; cbn [bind] in H;
      [|exfalso; now apply (H e)|exfalso].
    + destruct (select_col 0 t) as [col|e|] eqn:Sc; cbn [bind] in H.
      * now exists col.
      * exfalso. now apply (H e).
      * exfalso. now apply (select_col_finite 0 t).
    + unfold sum_last in Sl. destruct (shape pr); [discriminate|].
      unfold sum_trailing in Sl. destruct (ndim pr <? 1)%nat; discriminate.
  - unfold tmul, zip_with in Tm. rewrite S in Tm. discriminate.
Qed.

Lemma evaluate_geodesic_distance_inv (p t : tensor Q) (num_total : option Q)
    (rep : gd_report) :
  evaluate_geodesic_distance p t num_total = Ok rep ->
  exists col d0 d1 rest,
    select_col 0 t = Ok col
    /\ shape t = d0 :: d1 :: rest /\ shape col = d0 :: rest /\ shape p = shape t
    /\ rep_total rep = d0
    /\ rep_mask_len rep = count_true (data (tmap (fun x => Qneb x (-1000)) col))
    /\ rep_gd rep = match geodesic_distance p t false with
                    | Ok v => Some (gd_of v)
                    | _ => None
                    end
    /\ (forall e, geodesic_distance p t false <> Raise e)
    /\ rep_recall rep = match num_total with
                        | Some n => Some (Qnat d0 / n, d0, n)
                        | None => None
                        end
    /\ match num_total with Some n => ~ n == 0 | None => True end.
Proof.
  unfold evaluate_geodesic_distance.
  destruct (select_col 0 t) as [col| |] eqn:Sc; cbn [bind]; try discriminate.
  destruct (select_col_shape 0 t col Sc) as (d0 & d1 & rest & St & Scol).
  assert (Lm : len (tmap (fun x => Qneb x (-1000)) col) = Some d0).
  { unfold len, tmap. cbn [shape]. now rewrite Scol. }
  rewrite Lm.
  assert (K : (forall e, geodesic_distance p t false <> Raise e) ->
              shape p = shape t /\ len p = Some d0).
  { intros H. destruct (geodesic_distance_shapes p t false H) as [Sp _].
    split; [exact Sp|]. unfold len. now rewrite Sp, St. }
  intros E. exists col, d0, d1, rest.
  destruct (geodesic_distance p t false) as [v|e|] eqn:G; try discriminate.
  - destruct K as [Sp Lp]; [discriminate|]. rewrite Lp in E.
    destruct num_total as [n|]; cbn [bind] in E.
    + destruct (Qeq_bool n 0) eqn:Z; cbn [bind] in E; try discriminate.
      injection E as <-. cbn [rep_total rep_mask_len rep_gd rep_recall].
      repeat (split; [first [reflexivity|assumption|discriminate]|]).
      intros N. apply Qeq_bool_iff in N. congruence.
    + injection E as <-. cbn [rep_total rep_mask_len rep_gd rep_recall].
      repeat (split; [first [reflexivity|assumption|discriminate]|]). exact I.
  - destruct K as [Sp Lp]; [discriminate|]. rewrite Lp in E.
    destruct num_total as [n|]; cbn [bind] in E.
    + destruct (Qeq_bool n 0) eqn:Z; cbn [bind] in E; try discriminate.
      injection E as <-. cbn [rep_total rep_mask_len rep_gd rep_recall].
      repeat (split; [first [reflexivity|assumption|discriminate]|]).
      intros N. apply Qeq_bool_iff in N. congruence.
    + injection E as <-. cbn [rep_total rep_mask_len rep_gd rep_recall].
      repeat (split; [first [reflexivity|assumption|discriminate]|]). exact I.
Qed.

(** X23.  The line [evaluate_geodesic_distance] prints is consistent with
    [geodesic_distance]: the distance and the number of matching images it
    shows are the pair [geodesic_distance(..., return_count=True)] returns on
    the same tensors (the mask the function computes for itself counts the
    same samples), the total it shows is the length of both tensors, and the
    recall, when [num_total] is given, is that same length over [num_total]. *)
Theorem evaluate_geodesic_distance_report (p t : tensor Q) (num_total : option Q)
    (rep : gd_report) :
  evaluate_geodesic_distance p t num_total = Ok rep ->
  len p = Some (rep_total rep) /\ len t = Some (rep_total rep)
  /\ match rep_gd rep with
     | Some g => geodesic_distance p t true = Ok (GDCount g (rep_mask_len rep))
     | None => geodesic_distance p t true = NonFinite
     end
  /\ rep_recall rep
     = match num_total with
       | Some n => Some (Qnat (rep_total rep) / n, rep_total rep, n)
       | None => None
       end.
Proof.
  intros E.
  destruct (evaluate_geodesic_distance_inv p t num_total rep E)
    as (col & d0 & d1 & rest & Sc & St & Scol & Sp & -> & -> & Hg & Hr & Hrec & _).
  split; [unfold len; now rewrite Sp, St|].
  split; [unfold len; now rewrite St|].
  split; [|exact Hrec].
  rewrite Hg, (geodesic_distance_with_count p t col Sc).
  destruct (geodesic_distance p t false) as [v|e|]; [reflexivity| |reflexivity].
  exfalso. now apply (Hr e).
Qed.

Lemma evaluate_geodesic_distance_report_witness :
  len (mkTensor [2; 2]%nat [1; 0; 5; 7]) = Some 2%nat
  /\ len (mkTensor [2; 2]%nat [3 # 5; 4 # 5; -1000; 0]) = Some 2%nat
  /\ geodesic_distance (mkTensor [2; 2]%nat [1; 0; 5; 7])
       (mkTensor [2; 2]%nat [3 # 5; 4 # 5; -1000; 0]) true
     = Ok (GDCount (400 # 625) 1)
  /\ Some (2 # 4, 2%nat, 4) = Some (Qnat 2 / 4, 2%nat, 4).
Proof.
  apply (evaluate_geodesic_distance_report
           (mkTensor [2; 2]%nat [1; 0; 5; 7])
           (mkTensor [2; 2]%nat [3 # 5; 4 # 5; -1000; 0])
           (Some 4)
           (mkReport (Some (400 # 625)) 1 2 (Some (2 # 4, 2%nat, 4)))).
  vm_compute. reflexivity.
Defined.

(** X24.  With [num_total = 0] nothing is printed: the call raises, and the
    exception is [ZeroDivisionError] (from the recall) whenever the distance
    itself could be computed. *)
Theorem evaluate_geodesic_distance_zero_total (p t : tensor Q) (n : Q) :
  n == 0 ->
  (exists e, evaluate_geodesic_distance p t (Some n) = Raise e)
  /\ ((forall e, geodesic_distance p t false <> Raise e) ->
      evaluate_geodesic_distance p t (Some n) = Raise ZeroDivisionError).
Proof.
  intros Hn. apply Qeq_bool_iff in Hn.
  assert (Z : (forall e, geodesic_distance p t false <> Raise e) ->
              evaluate_geodesic_distance p t (Some n) = Raise ZeroDivisionError).
  { intros H. destruct (geodesic_distance_shapes p t false H) as [Sp [col Sc]].
    destruct (select_col_shape 0 t col Sc) as (d0 & d1 & rest & St & Scol).
    assert (Lp : len p = Some d0) by (unfold len; now rewrite Sp, St).
    unfold evaluate_geodesic_distance. rewrite Sc, Lp, Hn. cbn [bind].
    destruct (geodesic_distance p t false) as [v|e|]; [reflexivity| |reflexivity].
    exfalso. now apply (H e). }
  split; [|exact Z].
  destruct (geodesic_distance p t false) as [v|e|] eqn:G.
  - exists ZeroDivisionError. apply Z. discriminate.
  - unfold evaluate_geodesic_distance. rewrite G.
    destruct (select_col 0 t) as [col|e'|] eqn:Sc; cbn [bind]; eauto.
    exfalso. now apply (select_col_finite 0 t).
  - exists ZeroDivisionError. apply Z. discriminate.
Qed.

Lemma evaluate_geodesic_distance_zero_total_witness :
  (exists e, evaluate_geodesic_distance (mkTensor [1; 2]%nat [1; 0])
               (mkTensor [1; 2]%nat [1; 0]) (Some 0) = Raise e)
  /\ ((forall e, geodesic_distance (mkTensor [1; 2]%nat [1; 0])
                   (mkTensor [1; 2]%nat [1; 0]) false <> Raise e) ->
      evaluate_geodesic_distance (mkTensor [1; 2]%nat [1; 0])
        (mkTensor [1; 2]%nat [1; 0]) (Some 0) = Raise ZeroDivisionError).
Proof.
  apply (evaluate_geodesic_distance_zero_total
           (mkTensor [1; 2]%nat [1; 0]) (mkTensor [1; 2]%nat [1; 0]) 0).
  reflexivity.
Defined.

Lemma length_flat_map_le {A B : Type} (f : A -> list B) (s : list A) (k : nat) :
  (forall a, (length (f a) <= k)%nat) -> (length (flat_map f s) <= length s * k)%nat.
Proof.
  intros H. induction s as [|a s IH]; cbn [flat_map length]; [lia|].
  rewrite length_app. specialize (H a). lia.
Qed.

Lemma count_true_le (l : list bool) : (count_true l <= length l)%nat.
Proof. unfold count_true. apply filter_length_le. Qed.

(** X25.  For 2-dimensional rotations, one row per image, the number of
    matching images printed never exceeds the total printed beside it. *)
Theorem evaluate_geodesic_distance_count_le_total (p t : tensor Q) (num_total : option Q)
    (rep : gd_report) :
  ndim t = 2%nat ->
  evaluate_geodesic_distance p t num_total = Ok rep ->
  (rep_mask_len rep <= rep_total rep)%nat.
Proof.
  intros Hn E.
  destruct (evaluate_geodesic_distance_inv p t num_total rep E)
    as (col & d0 & d1 & rest & Sc & St & _ & _ & -> & -> & _).
  unfold ndim in Hn. rewrite St in Hn. destruct rest; [|discriminate].
  unfold select_col in Sc. rewrite St in Sc.
  destruct (d1 <=? 0)%nat; [discriminate|]. injection Sc as <-.
  unfold tmap. cbn [data]. etransitivity; [apply count_true_le|].
  rewrite length_map.
  etransitivity; [apply (length_flat_map_le _ _ 1)|].
  - intros b. unfold chunk. rewrite length_firstn. cbn [numel fold_right]. lia.
  - rewrite length_seq. lia.
Qed.

Lemma evaluate_geodesic_distance_count_le_total_witness : (1 <= 2)%nat.
Proof.
  apply (evaluate_geodesic_distance_count_le_total
           (mkTensor [2; 2]%nat [1; 0; 5; 7])
           (mkTensor [2; 2]%nat [3 # 5; 4 # 5; -1000; 0])
           None
           (mkReport (Some (400 # 625)) 1 2 None)).
  - reflexivity.
  - vm_compute. reflexivity.
Defined.

(** With a third dimension the mask has several entries per image, and the
    count printed can exceed the total. *)
Example evaluate_geodesic_distance_count_above_total :
  exists rep,
    evaluate_geodesic_distance (mkTensor [1; 2; 2]%nat [1; 0; 0; 1])
      (mkTensor [1; 2; 2]%nat [1; 0; 0; 1]) None = Ok rep
    /\ rep_mask_len rep = 2%nat /\ rep_total rep = 1%nat.
Proof. eexists. split; [vm_compute; reflexivity|]. split; reflexivity. Qed.

(** ** mean_miou_noreduce with balancing *)

Lemma sum_compatible_share : sum_compatible share.
Proof.
  intros l1 l2 H. unfold share, Qsum.
  induction H as [|x w l1 l2 Hxw _ IH]; cbn [fold_right].
  - left. split; reflexivity.
  - destruct Hxw as [[W X]|[X0 XW]], IH as [[W' X']|[X0' XW']].
    + left. rewrite W, X, W', X'. split; reflexivity.
    + right. rewrite W, X. lra.
    + right. rewrite W', X'. lra.
    + right. lra.
Qed.

Lemma tdiv_Forall2 (R : Q -> Q -> Prop) (P : Q -> Prop) (sh : list nat) (l1 l2 : list Q)
    (r : tensor Q) :
  (forall x y g, R x y -> fdiv x y = Ok g -> P g) ->
  Forall2 R l1 l2 ->
  tdiv (mkTensor sh l1) (mkTensor sh l2) = Ok r -> Forall P (data r).
Proof.
  intros H HR. unfold tdiv. rewrite zip_with_same_shape by reflexivity.
  cbn [bind shape data].
  destruct (sequence (map (fun xy => fdiv (fst xy) (snd xy)) (map2 pair l1 l2)))
    as [d| |] eqn:Sq; cbn [bind]; try discriminate.
  intros E. injection E as <-. cbn [data].
  apply (sequence_map_Forall (fun xy => R (fst xy) (snd xy)) P _ _ _) in Sq; auto.
  - intros [x y] g. cbn [fst snd]. apply H.
  - apply (Forall_map2_rel R); [|exact HR]. intros x y Hxy. exact Hxy.
Qed.

Lemma share_ratio (x y g : Q) : share x y -> fdiv x y = Ok g -> 0 <= g /\ g < 1.
Proof.
  unfold fdiv. intros S. destruct (Qeq_bool y 0) eqn:Z; [discriminate|].
  intros E. injection E as <-.
  destruct S as [[W _]|[X0 XY]].
  - apply Qeq_bool_iff in W. congruence.
  - split; [apply Qle_shift_div_l|apply Qlt_shift_div_r]; lra.
Qed.

(** In exact arithmetic, with [balanced=True], on masks of one shape with no
    negative entry, every entry returned is below 1. *)
Lemma mean_miou_noreduce_balanced_exact (pred target r : tensor Q) :
  shape pred = shape target ->
  Forall (fun x => 0 <= x) (data pred) ->
  Forall (fun x => 0 <= x) (data target) ->
  mean_miou_noreduce pred target true = Ok r ->
  Forall (fun x => 0 <= x /\ x < 1) (data r).
Proof.
  destruct pred as [sh dp], target as [sh' dt]. cbn [shape data]. intros <- Hp Ht.
  pose proof eps6_pos as He.
  unfold mean_miou_noreduce, sum_last2.
  rewrite !zip_with_same_shape by reflexivity. cbn [bind shape data].
  destruct (sum_trailing_spec 2 sh) as [S|(pre & k & S)]; rewrite !S; cbn [bind];
    [discriminate|].
  set (I := fun i => Qsum (chunk k i (map2 Qminb dp dt))).
  set (U := fun i => Qsum (chunk k i (map2 Qmaxb dp dt))).
  set (T := fun i => Qsum (chunk k i dt)).
  assert (B : forall i, below (I i) (U i)).
  { intros i. apply sum_compatible_below, Forall2_chunk. now apply min_below_max. }
  rewrite tdiv_ok; cbn [shape data tmap]; [|reflexivity|].
  2:{ rewrite map_map, Forall_map. apply Forall_forall. intros i _.
      destruct (B i) as [B0 B1]. fold (U i). lra. }
  rewrite !map_map. cbn [bind_nf bind].
  rewrite zip_with_same_shape by reflexivity. unfold tmap. cbn [bind shape data].
  rewrite !map_map, (map2_map_same Qdiv), (map2_map_same (fun x b => x * bool_to_Q b)).
  destruct (sum_last_rel share pre
              (map (fun i => I i / (U i + eps6) * bool_to_Q (Qgtb (T i) eps6))
                   (seq 0 (numel pre)))
              (map (fun i => bool_to_Q (Qgtb (T i) eps6)) (seq 0 (numel pre)))
              sum_compatible_share)
    as (pre' & s1 & s2 & F1 & F2 & Hs).
  { apply Forall2_map_seq. intros i _. unfold share.
    destruct (B i) as [B0 B1].
    destruct (Qgtb (T i) eps6); cbn [bool_to_Q].
    - right. split.
      + rewrite Qmult_1_r. apply Qle_shift_div_l; lra.
      + rewrite Qmult_1_r. apply Qlt_shift_div_r; lra.
    - left. split; [reflexivity|ring]. }
  fold I U T. rewrite F1. cbn [bind]. rewrite F2. cbn [bind].
  apply tdiv_Forall2 with (R := share); [|exact Hs].
  intros x y g. apply share_ratio.
Qed.

(** X26.  With [balanced=True], on masks of one shape with entries between 0
    and 1, every entry [mean_miou_noreduce] returns is at least 0 and at most
    1: it is the mean over the non-empty channels of ratios that are. *)
Theorem mean_miou_noreduce_balanced_range (pred target r : tensor Q) :
  shape pred = shape target ->
  Forall (fun x => 0 <= x /\ x <= 1) (data pred) ->
  Forall (fun x => 0 <= x /\ x <= 1) (data target) ->
  mean_miou_noreduce pred target true = Ok r ->
  Forall (fun x => 0 <= x /\ x <= 1) (data r).
Proof.
  intros Hs Hp Ht E.
  pose proof (mean_miou_noreduce_balanced_exact pred target r Hs
                (Forall_unit_nonneg _ Hp) (Forall_unit_nonneg _ Ht) E) as R.
  eapply Forall_impl; [|exact R]. intros x [H0 H1]. split; [exact H0|lra].
Qed.

Lemma mean_miou_noreduce_balanced_range_witness :
  Forall (fun x => 0 <= x /\ x <= 1)
         (data (mkTensor [1%nat] [44000044000000 # 120000200000080])).
Proof.
  apply (mean_miou_noreduce_balanced_range
           (mkTensor [1; 2; 1; 2]%nat [3 # 10; 1; 0; 1])
           (mkTensor [1; 2; 1; 2]%nat [1 # 2; 1 # 4; 0; 0])).
  - reflexivity.
  - repeat constructor; discriminate.
  - repeat constructor; discriminate.
  - vm_compute. reflexivity.
Defined.

(** Across shapes that broadcast, the weights of one channel count for all
    channels of the other argument and the entry can exceed 1. *)
Example mean_miou_noreduce_balanced_broadcast :
  exists v, mean_miou_noreduce (mkTensor [1; 3; 1; 1]%nat [1; 1; 1])
              (mkTensor [1; 1; 1; 1]%nat [1]) true
            = Ok (mkTensor [1%nat] [v])
            /\ 2 < v.
Proof. eexists. split; [vm_compute; reflexivity|reflexivity]. Qed.

(** ** agreement_score: the sign of the hypotheses *)

Lemma dot_opp (u v : list Q) : dot (map Qopp u) (map Qopp v) == dot u v.
Proof.
  unfold dot, map2, Qsum. revert v.
  induction u as [|a u IH]; intros [|b v]; cbn [map combine fold_right fst snd];
    try reflexivity.
  rewrite IH. ring.
Qed.

Lemma pairwise_dot_sign (rot : tensor Q) :
  related Qeq (pairwise_dot (tmap Qopp rot)) (pairwise_dot rot).
Proof.
  unfold pairwise_dot, tmap. cbn [shape data].
  destruct (shape rot) as [|b [|h [|d [|? ?]]]]; cbn [related]; auto.
  split; [reflexivity|]. cbn [data].
  apply Forall2_flat_map_seq. intros n. apply Forall2_flat_map_seq. intros i.
  apply Forall2_map_seq. intros j _. rewrite !chunk_map. apply dot_opp.
Qed.

Lemma sum_middle_rel (k : nat) (sh : list nat) (d1 d2 : list Q) :
  Forall2 Qeq d1 d2 ->
  related Qeq (sum_middle k (mkTensor sh d1)) (sum_middle k (mkTensor sh d2)).
Proof.
  intros H. unfold sum_middle. cbn [shape data].
  destruct sh as [|d0 tl]; cbn [related]; auto.
  destruct (length tl <? k)%nat; cbn [related]; auto.
  split; [reflexivity|]. cbn [data].
  apply Forall2_map_seq. intros i _. apply Qsum_Forall2.
  apply Forall2_map_seq. intros j _. apply Forall2_nth; [exact H|reflexivity].
Qed.

Lemma bind_nf_related {A : Type} (R : Q -> Q -> Prop) (r : result A) (dflt : A)
    (k1 k2 : A -> result (tensor Q)) :
  (forall a, related R (k1 a) (k2 a)) -> related R (bind_nf r dflt k1) (bind_nf r dflt k2).
Proof.
  intros H. destruct r as [a|e|]; cbn [bind_nf related]; auto.
  specialize (H dflt). destruct (k1 dflt), (k2 dflt); cbn [related] in *; auto; contradiction.
Qed.

(** X27.  For rotations of shape (batch, hypotheses, d), [agreement_score]
    does not see the sign of the hypotheses: [q] and [-q] are the same
    rotation, and negating every entry of [rotations] gives the same scores,
    or the same failure, for any confidences and temperature. *)
Theorem agreement_score_sign (exp : Q -> Q) (iou_or_miou rotations : tensor Q)
    (temperature : Q) :
  ndim rotations = 3%nat ->
  related Qeq (agreement_score exp iou_or_miou (tmap Qopp rotations) temperature)
              (agreement_score exp iou_or_miou rotations temperature).
Proof.
  intros _. unfold agreement_score. apply bind_nf_related. intros scaled.
  destruct (softmax_dim1 exp scaled) as [v| |]; cbn [bind related]; auto.
  pose proof (pairwise_dot_sign rotations) as P.
  destruct (pairwise_dot (tmap Qopp rotations)) as [[s1 d1]| |],
           (pairwise_dot rotations) as [[s2 d2]| |];
    cbn [related bind shape data] in *; try contradiction; auto.
  destruct P as [<- D].
  destruct (unsqueeze_before_last v) as [v2| |]; cbn [bind related]; auto.
  destruct (tmul (unsqueeze_last v) v2) as [vm| |]; cbn [bind related]; auto.
  unfold tmul, tmap. cbn [shape data].
  destruct (zip_with_rel Qeq Qeq Qeq 0 0 Qmult
              (mkTensor s1 (map (fun x => 1 - x ^ 2) d1))
              (mkTensor s1 (map (fun x => 1 - x ^ 2) d2)) vm vm)
    as [[E1 E2]|(sh & r1 & r2 & E1 & E2 & R)].
  - intros x x' y y' Hx Hy. now rewrite Hx, Hy.
  - reflexivity.
  - reflexivity.
  - reflexivity.
  - cbn [data]. apply (Forall2_map_both Qeq); [|exact D].
    intros x y Hxy. now rewrite Hxy.
  - reflexivity.
  - apply Forall2_same. reflexivity.
  - rewrite E1, E2. reflexivity.
  - rewrite E1, E2. cbn [bind]. now apply sum_middle_rel.
Qed.

Lemma agreement_score_sign_witness :
  related Qeq
    (agreement_score exp_standin (mkTensor [1; 2]%nat [7 # 10; 1 # 5])
       (tmap Qopp (mkTensor [1; 2; 2]%nat [1; 0; 3 # 5; 4 # 5])) (1 # 100))
    (agreement_score exp_standin (mkTensor [1; 2]%nat [7 # 10; 1 # 5])
       (mkTensor [1; 2; 2]%nat [1; 0; 3 # 5; 4 # 5]) (1 # 100)).
Proof.
  apply (agreement_score_sign exp_standin (mkTensor [1; 2]%nat [7 # 10; 1 # 5])
           (mkTensor [1; 2; 2]%nat [1; 0; 3 # 5; 4 # 5]) (1 # 100)).
  reflexivity.
Defined.

(** * The functions in floating-point arithmetic *)

(** ** Values that are 0 or 1 *)

Section FloatFacts.

Variable rnd : Q -> Q.
Variable fmax : Q.
Hypothesis R : rounding rnd fmax.

Lemma fround_is (x q : Q) :
  x == q -> q == 0 \/ q == 1 -> fl_is (Float.fround rnd fmax x) q.
Proof.
  destruct R as (R0 & R1 & RM & RP). intros E H. unfold Float.fround.
  assert (V : rnd x == q).
  { rewrite (RP x q E). destruct H as [H|H]; rewrite (RP q _ H); [rewrite R0|rewrite R1];
      now symmetry. }
  assert (B : Qle_bool (Qabs (rnd x)) fmax = true).
  { apply Qle_bool_iff. rewrite V. destruct H as [H|H]; rewrite H.
    - change (Qabs 0) with 0. lra.
    - change (Qabs 1) with 1. exact RM. }
  cbv zeta. rewrite B. now exists (rnd x).
Qed.

Lemma fmul_zero_l (a b : fl) (y : Q) :
  fl_is a 0 -> fl_is b y -> fl_is (Float.fmul rnd fmax a b) 0.
Proof.
  intros (u & -> & Hu) (v & -> & Hv). cbn [Float.fmul Float.lift2].
  apply fround_is; [rewrite Hu; ring|now left].
Qed.


Lemma fsq_zero (a : fl) : fl_is a 0 -> fl_is (Float.fsq rnd fmax a) 0.
Proof. intros H. unfold Float.fsq. now apply (fmul_zero_l a a 0). Qed.


Lemma fsub_same (a b : fl) (x : Q) :
  fl_is a x -> fl_is b x -> fl_is (Float.fsub rnd fmax a b) 0.
Proof.
  intros (u & -> & Hu) (v & -> & Hv). cbn [Float.fsub Float.lift2].
  apply fround_is; [rewrite Hu, Hv; ring|now left].
Qed.

Lemma fadd_zero (a b : fl) : fl_is a 0 -> fl_is b 0 -> fl_is (Float.fadd rnd fmax a b) 0.
Proof.
  intros (u & -> & Hu) (v & -> & Hv). cbn [Float.fadd Float.lift2].
  apply fround_is; [rewrite Hu, Hv; ring|now left].
Qed.

Lemma fdiv_zero_l (a b : fl) (n : Q) :
  fl_is a 0 -> fl_is b n -> ~ n == 0 -> fl_is (Float.fdiv rnd fmax a b) 0.
Proof.
  intros (u & -> & Hu) (v & -> & Hv) Hn. cbn [Float.fdiv Float.lift2].
  rewrite Qeq_bool_false by (rewrite Hv; exact Hn).
  apply fround_is; [rewrite Hu; unfold Qdiv; ring|now left].
Qed.


Lemma fl_is_some (x : Q) : fl_is (Some x) x.
Proof. now exists x. Qed.

Lemma traverse_is_zero (l : list fl) :
  Forall (fun a => fl_is a 0) l ->
  exists qs, traverse (fun a => a) l = Some qs /\ Forall (fun x => x == 0) qs.
Proof.
  induction 1 as [|a l (u & -> & Hu) _ (qs & E & Hq)]; cbn [traverse].
  - now exists [].
  - rewrite E. exists (u :: qs). split; [reflexivity|now constructor].
Qed.

Lemma fsum_zeros (fsumq : list Q -> fl) (l : list fl) :
  summation fsumq -> Forall (fun a => fl_is a 0) l -> fl_is (Float.fsum fsumq l) 0.
Proof.
  intros [Z _] H. destruct (traverse_is_zero l H) as (qs & E & Hq).
  unfold Float.fsum. rewrite E. now apply Z.
Qed.

(** The mean of zeros is zero. *)
Lemma tmean_zeros (fsumq : list Q -> fl) (t : tensor fl) :
  summation fsumq -> data t <> [] -> Forall (fun a => fl_is a 0) (data t) ->
  fl_is (Float.tmean rnd fmax fsumq t) 0.
Proof.
  intros S Hne H. unfold Float.tmean.
  apply (fdiv_zero_l _ _ (Qnat (length (data t)))).
  - now apply fsum_zeros.
  - apply fl_is_some.
  - intros E. apply Qeq_bool_iff in E. rewrite Qnat_pos_neq0 in E; [discriminate|].
    destruct (data t); [congruence|cbn; lia].
Qed.

(** Adding from left to right is a summation. *)
Lemma seq_sum_summation : summation (Float.seq_sum rnd fmax).
Proof.
  split.
  - intros l H. destruct H as [|x l Hx H]; cbn [Float.seq_sum].
    + apply fl_is_some.
    + assert (G : forall a, fl_is a 0 ->
                   fl_is (fold_left (fun acc y => Float.fadd rnd fmax acc (Some y)) l a) 0).
      { induction H as [|y l Hy _ IH]; intros a Ha; cbn [fold_left]; [exact Ha|].
        apply IH. apply fadd_zero; [exact Ha|now exists y]. }
      apply G. now exists x.
  - reflexivity.
Qed.

End FloatFacts.

(** Binary32 rounding meets the requirements. *)
Lemma rne_comp (x y : Q) : x == y -> Binary32.rne x == Binary32.rne y.
Proof.
  intros E. destruct (Qlt_le_dec 0 x) as [P|N].
  - apply Qle_antisym; apply rne_mono; rewrite <- ?E; lra.
  - destruct (Qlt_le_dec x 0) as [L|Z].
    + assert (Ly : y < 0) by (rewrite <- E; exact L).
      assert (Cx : Qcompare x 0 = Lt) by (apply Qlt_alt; exact L).
      assert (Cy : Qcompare y 0 = Lt) by (apply Qlt_alt; exact Ly).
      unfold Binary32.rne. rewrite Cx, Cy.
      assert (Px : 0 < - x) by lra. assert (Py : 0 < - y) by lra.
      rewrite <- (rne_pos (- x) Px), <- (rne_pos (- y) Py).
      apply Qopp_comp. apply Qle_antisym; apply rne_mono; rewrite <- ?E; lra.
    + rewrite (rne_zero x) by lra. rewrite (rne_zero y) by (rewrite <- E; lra). reflexivity.
Qed.

Lemma rounding_binary32 : rounding Binary32.rne fmax32.
Proof.
  split; [reflexivity|]. split; [reflexivity|]. split; [discriminate|]. exact rne_comp.
Qed.

(** ** geodesic_distance of a tensor with itself *)

Lemma map2_map_map {A A' B B' C : Type} (f : A' -> B' -> C) (g : A -> A') (h : B -> B')
    (l1 : list A) (l2 : list B) :
  map2 f (map g l1) (map h l2) = map2 (fun x y => f (g x) (h y)) l1 l2.
Proof.
  unfold map2. revert l2.
  induction l1 as [|a l1 IH]; intros [|b l2]; cbn [map combine fst snd]; try reflexivity.
  now rewrite IH.
Qed.

(** The inner products of the rows, as the products and the sum over the
    last dimension compute them. *)
Lemma float_row_products (rnd : Q -> Q) (fmax : Q) (fsumq : list Q -> fl)
    (d N : nat) (l1 l2 : list Q) :
  map (fun i => Float.fsum fsumq
                  (chunk d i (map2 (Float.fmul rnd fmax) (map Some l1) (map Some l2))))
      (seq 0 N)
  = map (fun i => Float.dot rnd fmax fsumq (chunk d i l1) (chunk d i l2)) (seq 0 N).
Proof.
  apply map_ext. intros i. unfold Float.dot.
  now rewrite map2_map_map, chunk_map2.
Qed.


Lemma summation_seq_sum32 : summation (Float.seq_sum Binary32.rne fmax32).
Proof. exact (seq_sum_summation Binary32.rne fmax32 rounding_binary32). Qed.


(** The rows of that tensor are the identity quaternion and the binary32
    numbers nearest to 0.6 and 0.8: the second has no exact unit norm, and in
    exact arithmetic its distance to itself is not 0. *)
Example geodesic_distance_self_exact_differs :
  exists v, geodesic_distance
              (mkTensor [1; 2]%nat [10066330 # 16777216; 13421773 # 16777216])
              (mkTensor [1; 2]%nat [10066330 # 16777216; 13421773 # 16777216]) false
            = Ok (GD v)
            /\ v < 0.
Proof. eexists. split; [vm_compute; reflexivity|reflexivity]. Qed.

(** A quaternion normalised in binary32 need not have the computed norm 1:
    for (0, 0, 0.70710683, 0.70710683) the distance to itself is [-2^-22]. *)
Example geodesic_distance_self_normalised :
  exists v, Float.geodesic_distance Binary32.rne fmax32 (Float.seq_sum Binary32.rne fmax32)
              (mkTensor [1; 4]%nat [0; 0; 11863284 # 16777216; 11863284 # 16777216])
              (mkTensor [1; 4]%nat [0; 0; 11863284 # 16777216; 11863284 # 16777216]) false
            = Ok (GD v)
            /\ v == - (1 # 4194304).
Proof. eexists. split; [vm_compute; reflexivity|reflexivity]. Qed.

(** ** loss_flat on two faces with one normal *)

Lemma loss_flat_edge_two_faces_float (rnd : Q -> Q) (fmax : Q) (fsumq : list Q -> fl)
    (mesh : Mesh) (norms : tensor Q) (B i : nat) :
  rounding rnd fmax ->
  summation fsumq ->
  ff mesh = ff_two_faces ->
  shape norms = [B; 2; 3]%nat ->
  wf norms ->
  (0 < B)%nat ->
  (i < 3)%nat ->
  (forall b, (b < B)%nat ->
     chunk 3 (2 * b) (data norms) = chunk 3 (2 * b + 1) (data norms)) ->
  (forall f, (f < 2 * B)%nat ->
     fl_is (Float.dot rnd fmax fsumq (chunk 3 f (data norms)) (chunk 3 f (data norms))) 1) ->
  exists m, Float.loss_flat_edge rnd fmax fsumq mesh norms i = Ok m /\ fl_is m 0.
Proof.
  intros HR HS Hff Hs Hwf HB Hi Hsame Hunit.
  destruct norms as [sn dn]. cbn [shape data] in *. subst sn.
  unfold wf in Hwf. cbn [shape data numel fold_right] in Hwf.
  unfold Float.loss_flat_edge. rewrite Hff.
  assert (Hidx : select_col i ff_two_faces = Ok (mkTensor [2]%nat [1; 0]%Z)).
  { destruct i as [|[|[|i]]]; try reflexivity. lia. }
  rewrite Hidx. cbn [bind].
  rewrite (index_dim1_two_faces B dn Hwf Hsame). cbn [bind].
  unfold Float.tmul, Float.finite, tmap, zip_with. cbn [shape data].
  rewrite shape_eqb_refl. cbn [bind].
  unfold Float.sum_last, Float.sum_trailing, ndim.
  cbn [shape data length Nat.ltb Nat.leb Nat.sub firstn skipn numel fold_right bind].
  rewrite !Nat.mul_1_r. rewrite float_row_products.
  eexists. split; [reflexivity|].
  apply (tmean_zeros rnd fmax HR fsumq _ HS).
  - cbn [data]. destruct B as [|B']; [lia|]. cbn [Nat.mul Nat.add seq map]. discriminate.
  - cbn [data]. rewrite !Forall_map. apply Forall_forall. intros f Hf.
    apply in_seq in Hf. apply (fsq_zero rnd fmax HR).
    apply (fsub_same rnd fmax HR _ _ 1); [|apply fl_is_some]. apply Hunit. lia.
Qed.

(** C8, amended.  In the floating-point arithmetic of the tensors: for a mesh
    of two triangles that are each other's neighbour across every edge, and
    normals of shape (batch, 2, 3) over a batch that is not empty, in which
    both faces of a batch element carry the same normal and that normal has,
    as the function computes it, the inner product 1 with itself, [loss_flat]
    returns 0. *)
Theorem loss_flat_two_faces_float (rnd : Q -> Q) (fmax : Q) (fsumq : list Q -> fl)
    (mesh : Mesh) (norms : tensor Q) (B : nat) :
  rounding rnd fmax ->
  summation fsumq ->
  shape (faces mesh) = [2; 3]%nat ->
  ff mesh = ff_two_faces ->
  shape norms = [B; 2; 3]%nat ->
  wf norms ->
  (0 < B)%nat ->
  (forall b, (b < B)%nat ->
     chunk 3 (2 * b) (data norms) = chunk 3 (2 * b + 1) (data norms)) ->
  (forall f, (f < 2 * B)%nat ->
     fl_is (Float.dot rnd fmax fsumq (chunk 3 f (data norms)) (chunk 3 f (data norms))) 1) ->
  exists v, Float.loss_flat rnd fmax fsumq mesh norms = Ok v /\ v == 0.
Proof.
  intros HR HS Hfaces Hff Hs Hwf HB Hsame Hunit.
  destruct (loss_flat_edge_two_faces_float rnd fmax fsumq mesh norms B 0 HR HS Hff Hs Hwf HB)
    as (m0 & E0 & Z0); auto; try lia.
  destruct (loss_flat_edge_two_faces_float rnd fmax fsumq mesh norms B 1 HR HS Hff Hs Hwf HB)
    as (m1 & E1 & Z1); auto; try lia.
  destruct (loss_flat_edge_two_faces_float rnd fmax fsumq mesh norms B 2 HR HS Hff Hs Hwf HB)
    as (m2 & E2 & Z2); auto; try lia.
  unfold Float.loss_flat. cbn [fold_left bind]. rewrite E0. cbn [bind].
  rewrite E1. cbn [bind]. rewrite E2. cbn [bind]. rewrite Hfaces.
  pose proof (fadd_zero rnd fmax HR _ _ (fl_is_some 0) Z0) as A0.
  pose proof (fadd_zero rnd fmax HR _ _ A0 Z1) as A1.
  pose proof (fadd_zero rnd fmax HR _ _ A1 Z2) as A2.
  destruct (fmul_zero_l rnd fmax HR _ _ (Qnat 2 / 2) A2 (fl_is_some (Qnat 2 / 2)))
    as (v & E & Hv).
  rewrite E. cbn [Float.value]. now exists v.
Qed.

Lemma loss_flat_two_faces_float_witness :
  exists v,
    Float.loss_flat Binary32.rne fmax32 (Float.seq_sum Binary32.rne fmax32)
      (mkMesh (mkTensor [2; 3]%nat [0; 1; 2; 2; 1; 0]%Z) ff_two_faces)
      (mkTensor [1; 2; 3]%nat
         [10066330 # 16777216; 0; 13421773 # 16777216;
          10066330 # 16777216; 0; 13421773 # 16777216]) = Ok v
    /\ v == 0.
Proof.
  apply (loss_flat_two_faces_float Binary32.rne fmax32 (Float.seq_sum Binary32.rne fmax32)
           (mkMesh (mkTensor [2; 3]%nat [0; 1; 2; 2; 1; 0]%Z) ff_two_faces)
           (mkTensor [1; 2; 3]%nat
              [10066330 # 16777216; 0; 13421773 # 16777216;
               10066330 # 16777216; 0; 13421773 # 16777216]) 1).
  - exact rounding_binary32.
  - exact summation_seq_sum32.
  - reflexivity.
  - reflexivity.
  - reflexivity.
  - reflexivity.
  - lia.
  - intros b Hb. destruct b as [|b]; [reflexivity | lia].
  - intros f Hf.
    destruct f as [|[|f]]; [| |lia]; eexists; (split; [vm_compute; reflexivity|reflexivity]).
Defined.

(** C8, as stated, fails: both faces carry the binary32 normal nearest to
    (1, 1, 1) / sqrt 3, a unit normal as far as the type has one; its computed
    inner product with itself is [1 - 2^-24], every term [(cos - 1)^2] is
    [2^-48], and the loss is [3 * 2^-48], not 0.  (The three squares are
    equal, so the order of their sum does not matter.) *)
Lemma loss_flat_two_faces_sqrt3 :
  exists v,
    Float.loss_flat Binary32.rne fmax32 (Float.seq_sum Binary32.rne fmax32)
      (mkMesh (mkTensor [2; 3]%nat [0; 1; 2; 2; 1; 0]%Z) ff_two_faces)
      (mkTensor [1; 2; 3]%nat
         [9686330 # 16777216; 9686330 # 16777216; 9686330 # 16777216;
          9686330 # 16777216; 9686330 # 16777216; 9686330 # 16777216]) = Ok v
    /\ v == 3 * (1 # 281474976710656) /\ ~ v == 0.
Proof.
  eexists. split; [vm_compute; reflexivity|]. split; [reflexivity|discriminate].
Qed.

(** ** agreement_score with one hypothesis *)







(** Without the finite quotient the result is not zero: a confidence of
    [2^126] over a temperature of [2^-7] overflows binary32, the softmax is
    then not a number and neither is the score. *)
Example agreement_score_single_overflow :
  Float.agreement_score Binary32.rne fmax32 (Float.seq_sum Binary32.rne fmax32) exp_taylor2
    (Float.dot Binary32.rne fmax32 (Float.seq_sum Binary32.rne fmax32))
    (mkTensor [1; 1]%nat [inject_Z (2 ^ 126)])
    (mkTensor [1; 1; 4]%nat [1; 0; 0; 0])
    (1 # 128)
  = NonFinite.
Proof. vm_compute. reflexivity. Qed.

(** ** The generator's hinge loss *)





(** On those inputs the generator's loss is [-(4 * 2) = -8] without the mask,
    and [-(3 / 1 * 2) = -6] with the mask that keeps the first entry only. *)
Example loss_hinge_generator_float_values :
  (exists v,
     Float.loss Binary32.rne fmax32 (Float.seq_sum Binary32.rne fmax32) mse_loss
       (mkTensor [1; 1; 1; 2]%nat [3; 5]) true false None (Some 2)
       (mkGANLoss "hinge" 1 0 None None None)
     = (Ok v, mkGANLoss "hinge" 1 0 None None None) /\ v == -8)
  /\ (exists v,
        Float.loss Binary32.rne fmax32 (Float.seq_sum Binary32.rne fmax32) mse_loss
          (mkTensor [1; 1; 1; 2]%nat [3; 5]) true false
          (Some (MaskTensor (mkTensor [1; 1; 1; 2]%nat [1; 0]))) (Some 2)
          (mkGANLoss "hinge" 1 0 None None None)
        = (Ok v, mkGANLoss "hinge" 1 0 None None None) /\ v == -6)
  /\ (exists v,
        negated_masked_mean Binary32.rne fmax32 (Float.seq_sum Binary32.rne fmax32)
          2 2 [3; 5; 1; 7] [1; 1; 0; 1] None
        = Ok v /\ v == -(11 # 2)).
Proof.
  split; [|split]; eexists; (split; [vm_compute; reflexivity|reflexivity]).
Qed.

(** ** mean_miou_noreduce and mean_iou_noreduce on 0/1 masks, in floating point *)


















(** On those masks both functions return [1 / (2 + 1e-6)] in single
    precision, [8388604 / 2^24], at both batch positions. *)
Example mean_miou_noreduce_unbalanced_single_value :
  exists v,
    Float.mean_miou_noreduce Binary32.rne fmax32 (Float.seq_sum Binary32.rne fmax32)
      (mkTensor [2; 1; 1; 2]%nat [1; 0; 1; 1]) (mkTensor [2; 1; 1; 2]%nat [1; 1; 0; 1]) false
    = Ok (mkTensor [2]%nat [v; v])
    /\ Binary32.mean_iou_noreduce (mkTensor [2; 1; 1; 2]%nat [1; 0; 1; 1])
                                  (mkTensor [2; 1; 1; 2]%nat [1; 1; 0; 1])
       = Ok (mkTensor [2; 1]%nat [v; v])
    /\ v == 8388604 # 16777216.
Proof. eexists. split; [vm_compute; reflexivity|]. split; [vm_compute; reflexivity|reflexivity]. Qed.

